(** * RAG web application: rate limiter, TTL response cache and cache keys

    A shallow embedding of the orchestration core of the repository:

    - [src/lib/ratelimit.ts]: the sliding-window rate limiter and
      [ipFromHeaders];
    - the cache module ([@/lib/cache]): [MemoryCache], [generateCacheKey],
      [generateQueryCacheKey], [simpleHash], [withResponseCache];
    - the chat route ([app/api/chat/route.ts]): the [POST] handler, as far as
      it touches the limiter and the response cache;
    - the wrappers [cached] and [cachedAsync] of the cache module;
    - [PerformanceMonitor] of the logger module: [recordMetric] and
      [getMetricStats];
    - the error module ([@/lib/errorHandler]): the error classes,
      [handleApiError], the queue of [ClientErrorHandler] and
      [retryWithBackoff];
    - the name that [saveIncomingFile] ([@/lib/upload]) writes a file under;
    - the upload route ([app/api/upload/route.ts]) and the streaming chat
      route ([app/api/chat_stream/route.ts]): their [POST] handlers, with
      the form, the storage and the backend as inputs.

    Conventions of the embedding.

    - JavaScript numbers that hold counts, limits and millisecond times are
      integers here ([Z]); every call of [Date.now()] is an explicit argument
      of the operation that performs it.
    - The process-wide [buckets] map is a [gmap string Bucket] threaded
      through [rateLimit]; a bucket object mutated in place is written back
      under its key.
    - A JavaScript [Map] whose iteration order is observed (the cache's
      entries, scanned by [evictOldest]) is an association list in insertion
      order.
    - A question is a list of UTF-16 code units, the values that
      [charCodeAt] returns; keys and header values are [string]s.
    - A call that can throw or reject returns an [option], [None] where it
      does; this includes [new Response], which refuses a status outside
      200 to 599 and a body together with a null body status. *)

From Stdlib Require Import ZArith QArith Ascii String.
From Stdlib Require Lqa.
From stdpp Require Import gmap strings list pretty sorting.

Open Scope Z_scope.

(** ** JavaScript helpers *)

Module Js.

(** [ToInt32]: the wrap-around of the 32-bit integer operators. *)
Definition ToInt32 (x : Z) : Z :=
  let m := x mod 2 ^ 32 in
  if decide (2 ^ 31 ≤ m) then m - 2 ^ 32 else m.

(** [a << n] on numbers holding integers. *)
Definition shl (a n : Z) : Z := ToInt32 (Z.shiftl (ToInt32 a) (n mod 32)).

(** [a & b] on numbers holding integers. *)
Definition band (a b : Z) : Z := ToInt32 (Z.land (ToInt32 a) (ToInt32 b)).

(** Truthiness of a possibly undefined boolean, string or number. *)
Definition truthy_bool (b : option bool) : bool := default false b.

Definition truthy_string (s : option string) : bool :=
  match s with
  | Some s => bool_decide (s ≠ "")
  | None => false
  end.

(** [x || d] on a possibly undefined number: 0 and undefined give [d]. *)
Definition number_or (x : option Z) (d : Z) : Z :=
  match x with
  | Some n => if decide (n = 0) then d else n
  | None => d
  end.

(** White space as [String.prototype.trim] sees it, on code units below 256:
    TAB, LF, VT, FF, CR, SP and NBSP. *)
Definition is_white (c : ascii) : bool :=
  let n := N_of_ascii c in
  bool_decide ((9 ≤ n ≤ 13)%N ∨ n = 32%N ∨ n = 160%N).

Fixpoint trimStart (s : string) : string :=
  match s with
  | String c r => if is_white c then trimStart r else s
  | EmptyString => EmptyString
  end.

Fixpoint trimEnd (s : string) : string :=
  match s with
  | String c r =>
      match trimEnd r with
      | EmptyString => if is_white c then EmptyString else String c EmptyString
      | r' => String c r'
      end
  | EmptyString => EmptyString
  end.

Definition trim (s : string) : string := trimEnd (trimStart s).

(** [s.split(sep)[0]]: the part of [s] before the first [sep]. *)
Fixpoint split_head (sep : ascii) (s : string) : string :=
  match s with
  | String c r => if decide (c = sep) then EmptyString else String c (split_head sep r)
  | EmptyString => EmptyString
  end.

(** Digits of [Number.prototype.toString(radix)]: 0-9 then a-z. *)
Definition digit_char (d : N) : ascii :=
  if decide (d < 10)%N then ascii_of_N (48 + d) else ascii_of_N (87 + d).

Fixpoint digits_go (fuel : nat) (radix n : N) (acc : string) : string :=
  match fuel with
  | O => acc
  | S fuel' =>
      if decide (n = 0)%N then acc
      else digits_go fuel' radix (n / radix) (String (digit_char (n mod radix)) acc)
  end.

(** [n.toString(36)] for a non-negative integer [n]. *)
Definition toString36 (n : N) : string :=
  if decide (n = 0)%N then "0" else digits_go (N.size_nat n) 36 n "".

(** The code units of an ASCII literal. *)
Fixpoint code_units (s : string) : list Z :=
  match s with
  | String c r => Z.of_N (N_of_ascii c) :: code_units r
  | EmptyString => []
  end.

End Js.

(** ** The [Response] constructor *)

Module Fetch.

(** The conversion of a number to [unsigned short], which the [status] of a
    [ResponseInit] goes through. *)
Definition ToUint16 (x : Z) : Z := x mod 65536.

Definition null_body_status (status : Z) : bool :=
  bool_decide (status ∈ [101; 103; 204; 205; 304]).

(** The status of [new Response(body, {status})] for a [body] that is not
    [null]; [None] where the constructor throws: a [RangeError] outside 200
    to 599, a [TypeError] for a null body status. *)
Definition init_status (status : Z) : option Z :=
  let status := ToUint16 status in
  if bool_decide (200 ≤ status ≤ 599) && negb (null_body_status status)
  then Some status else None.

End Fetch.

(** ** src/lib/ratelimit.ts *)

Module RateLimit.

Record Bucket := mkBucket {
  timestamps : list Z;
  limit : Z;
  windowMs : Z
}.

(** The object returned by [rateLimit].  [resetMs] is [None] where the source
    computes [NaN] ([bucket.timestamps[0]] undefined on an empty bucket). *)
Record Decision_ := mkDecision {
  allowed : bool;
  remaining : Z;
  resetMs : option Z
}.

Definition getBucket (buckets : gmap string Bucket) (key : string) (limit windowMs : Z)
  : Bucket * gmap string Bucket :=
  match buckets !! key with
  | Some existing =>
      let existing := mkBucket (timestamps existing) limit windowMs in
      (existing, <[key := existing]> buckets)
  | None =>
      let bucket := mkBucket [] limit windowMs in
      (bucket, <[key := bucket]> buckets)
  end.

Definition rateLimit (buckets : gmap string Bucket) (key : string) (limit windowMs : Z)
    (now : Z) : Decision_ * gmap string Bucket :=
  let '(bucket, buckets) := getBucket buckets key limit windowMs in
  let kept := filter (λ t, now - t < windowMs) (timestamps bucket) in
  if decide (limit ≤ Z.of_nat (length kept)) then
    let resetMs := (λ t0, Z.max 0 (windowMs - (now - t0))) <$> head kept in
    (mkDecision false 0 resetMs,
     <[key := mkBucket kept (RateLimit.limit bucket) (RateLimit.windowMs bucket)]> buckets)
  else
    let pushed := kept ++ [now] in
    (mkDecision true (Z.max 0 (limit - Z.of_nat (length pushed))) (Some windowMs),
     <[key := mkBucket pushed (RateLimit.limit bucket) (RateLimit.windowMs bucket)]> buckets).

(** [Headers]: lower-cased header name to value; [headers.get(name)] is the
    lookup. *)
Definition ipFromHeaders (headers : gmap string string) : string :=
  let xff := headers !! "x-forwarded-for" in
  if Js.truthy_string xff then
    Js.trim (Js.split_head "," (default "" xff))
  else
    let xr := headers !! "x-real-ip" in
    if Js.truthy_string xr then default "" xr
    else "unknown".

(** A header is blank when [headers.get] gives [null] or the empty string:
    the two values that the tests [if (xff)] and [if (xr)] reject. *)
Definition blank (h : option string) : Prop := h = None ∨ h = Some "".

(** A sequence of [rateLimit] calls, each with its arguments and the value
    [Date.now()] returned inside it. *)
Record Call := mkCall {
  c_key : string;
  c_limit : Z;
  c_windowMs : Z;
  c_now : Z
}.

Fixpoint run (buckets : gmap string Bucket) (calls : list Call)
  : list (Call * Decision_) * gmap string Bucket :=
  match calls with
  | [] => ([], buckets)
  | c :: cs =>
      let '(d, buckets) := rateLimit buckets (c_key c) (c_limit c) (c_windowMs c) (c_now c) in
      let '(tr, buckets) := run buckets cs in
      ((c, d) :: tr, buckets)
  end.

(** Times of the calls for [key] that were admitted. *)
Definition allowed_times (key : string) (trace : list (Call * Decision_)) : list Z :=
  (λ p, c_now p.1) <$> filter (λ p, c_key p.1 = key ∧ allowed p.2 = true) trace.

(** The timestamps a bucket holds, [[]] when the key was never seen. *)
Definition bucket_timestamps (buckets : gmap string Bucket) (key : string) : list Z :=
  from_option timestamps [] (buckets !! key).

End RateLimit.


(** ** A JavaScript [Map] with string keys, in insertion order *)

Module JsMap.

Section JsMap.
Context {V : Type}.

Fixpoint get (m : list (string * V)) (key : string) : option V :=
  match m with
  | [] => None
  | (k, v) :: r => if decide (k = key) then Some v else get r key
  end.

Definition has (m : list (string * V)) (key : string) : bool :=
  bool_decide (is_Some (get m key)).

(** [m.set(key, v)]: an existing key keeps its place, a new key goes last. *)
Fixpoint set (m : list (string * V)) (key : string) (v : V) : list (string * V) :=
  match m with
  | [] => [(key, v)]
  | (k, x) :: r => if decide (k = key) then (k, v) :: r else (k, x) :: set r key v
  end.

Fixpoint delete (m : list (string * V)) (key : string) : list (string * V) :=
  match m with
  | [] => []
  | (k, x) :: r => if decide (k = key) then r else (k, x) :: delete r key
  end.

Definition size (m : list (string * V)) : Z := Z.of_nat (length m).

(** Keys are unique in a [Map]. *)
Definition wf (m : list (string * V)) : Prop := NoDup m.*1.

End JsMap.

End JsMap.

(** ** The cache module *)

Module Cache.

Section MemoryCache.
Context {T : Type}.

Record CacheEntry := mkEntry {
  data : T;
  timestamp : Z;
  ttl : Z;
  hits : Z
}.

(** [cache] is the entries [Map]; [stats_hits] and [stats_misses] are the two
    fields of [stats].  The interval handle is not part of the state: the
    periodic sweep is the operation [cleanup], run at the times the timer
    fires. *)
Record MemoryCache := mkCache {
  cache : list (string * CacheEntry);
  maxSize : Z;
  defaultTtl : Z;
  stats_hits : Z;
  stats_misses : Z
}.

(** [hitRate] is the exact quotient; the source returns its nearest double. *)
Record CacheStats := mkStats {
  totalEntries : Z;
  totalHits : Z;
  totalMisses : Z;
  hitRate : Q;
  memoryUsage : Z
}.

Definition new (maxSize defaultTtl : Z) : MemoryCache :=
  mkCache [] maxSize defaultTtl 0 0.

Definition with_cache (c : MemoryCache) (m : list (string * CacheEntry)) : MemoryCache :=
  mkCache m (maxSize c) (defaultTtl c) (stats_hits c) (stats_misses c).

Definition count_hit (c : MemoryCache) : MemoryCache :=
  mkCache (cache c) (maxSize c) (defaultTtl c) (stats_hits c + 1) (stats_misses c).

Definition count_miss (c : MemoryCache) : MemoryCache :=
  mkCache (cache c) (maxSize c) (defaultTtl c) (stats_hits c) (stats_misses c + 1).

(** The loop of [evictOldest]: the pair [(oldestKey, oldestTimestamp)]. *)
Definition oldest_scan (now : Z) (m : list (string * CacheEntry)) : option string * Z :=
  foldl (λ acc p, if decide (timestamp p.2 < acc.2) then (Some p.1, timestamp p.2) else acc)
        (None, now) m.

Definition evictOldest (c : MemoryCache) (now : Z) : MemoryCache :=
  let oldestKey := (oldest_scan now (cache c)).1 in
  if Js.truthy_string oldestKey then
    with_cache c (JsMap.delete (cache c) (default "" oldestKey))
  else c.

(** [set(key, value, ttl)]; [now] is read first, [evictNow] inside
    [evictOldest]. *)
Definition set (c : MemoryCache) (key : string) (value : T) (ttl : option Z)
    (now evictNow : Z) : MemoryCache :=
  let entryTtl := default (defaultTtl c) ttl in
  let c :=
    if bool_decide (maxSize c ≤ JsMap.size (cache c)) && negb (JsMap.has (cache c) key)
    then evictOldest c evictNow else c in
  with_cache c (JsMap.set (cache c) key (mkEntry value now entryTtl 0)).

(** The test [now - entry.timestamp > entry.ttl] of [get], [has] and
    [cleanup]. *)
Definition expired (entry : CacheEntry) (now : Z) : Prop :=
  now - timestamp entry > ttl entry.

#[global] Instance expired_dec entry now : Decision (expired entry now).
Proof. unfold expired. apply Z_gt_dec. Defined.

Definition get (c : MemoryCache) (key : string) (now : Z) : option T * MemoryCache :=
  match JsMap.get (cache c) key with
  | None => (None, count_miss c)
  | Some entry =>
      if decide (expired entry now) then
        (None, count_miss (with_cache c (JsMap.delete (cache c) key)))
      else
        let entry := mkEntry (data entry) (timestamp entry) (ttl entry) (hits entry + 1) in
        (Some (data entry), count_hit (with_cache c (JsMap.set (cache c) key entry)))
  end.

Definition has (c : MemoryCache) (key : string) (now : Z) : bool * MemoryCache :=
  match JsMap.get (cache c) key with
  | None => (false, c)
  | Some entry =>
      if decide (expired entry now) then
        (false, with_cache c (JsMap.delete (cache c) key))
      else (true, c)
  end.

Definition delete (c : MemoryCache) (key : string) : bool * MemoryCache :=
  (JsMap.has (cache c) key, with_cache c (JsMap.delete (cache c) key)).

Definition clear (c : MemoryCache) : MemoryCache :=
  mkCache [] (maxSize c) (defaultTtl c) 0 0.

Definition getStats (c : MemoryCache) : CacheStats :=
  let totalRequests := stats_hits c + stats_misses c in
  let hitRate :=
    if decide (0 < totalRequests)
    then Qdiv (inject_Z (stats_hits c)) (inject_Z totalRequests) else 0%Q in
  let memoryUsage := JsMap.size (cache c) * 1024 in
  mkStats (JsMap.size (cache c)) (stats_hits c) (stats_misses c) hitRate memoryUsage.

(** The periodic sweep: every expired entry is deleted. *)
Definition cleanup (c : MemoryCache) (now : Z) : MemoryCache :=
  with_cache c (filter (λ p, ¬ expired p.2 now) (cache c)).

Definition destroy (c : MemoryCache) : MemoryCache := clear c.

(** The public operations, each with the clock values it reads. *)
Inductive Op :=
  | OSet (key : string) (value : T) (ttl : option Z) (now evictNow : Z)
  | OGet (key : string) (now : Z)
  | OHas (key : string) (now : Z)
  | ODelete (key : string)
  | OClear
  | OCleanup (now : Z)
  | ODestroy.

(** Reads and sweeps no later than [now]: the operations that may come
    between a [set] and a later [get] without storing anything. *)
Definition passive (now : Z) (op : Op) : Prop :=
  match op with
  | OGet _ t | OHas _ t | OCleanup t => t ≤ now
  | _ => False
  end.

Definition exec (c : MemoryCache) (op : Op) : MemoryCache :=
  match op with
  | OSet key value ttl now evictNow => set c key value ttl now evictNow
  | OGet key now => (get c key now).2
  | OHas key now => (has c key now).2
  | ODelete key => (delete c key).2
  | OClear => clear c
  | OCleanup now => cleanup c now
  | ODestroy => destroy c
  end.

Definition exec_all (c : MemoryCache) (ops : list Op) : MemoryCache :=
  foldl exec c ops.

(** The number of [get] calls since the last [clear]. *)
Definition gets_since_clear (ops : list Op) : Z :=
  foldl (λ n op,
    match op with
    | OGet _ _ => n + 1
    | OClear | ODestroy => 0
    | _ => n
    end) 0 ops.

End MemoryCache.

Arguments CacheEntry : clear implicits.
Arguments MemoryCache : clear implicits.
Arguments Op : clear implicits.

(** *** Cache keys *)

(** The [(string | number)[]] rest parameter of [generateCacheKey]. *)
Inductive Part := PStr (s : string) | PNum (n : Z).

Definition part_to_string (p : Part) : string :=
  match p with
  | PStr s => s
  | PNum n => pretty n
  end.

(** [parts.join(sep)] *)
Fixpoint join (sep : string) (parts : list string) : string :=
  match parts with
  | [] => ""
  | [x] => x
  | x :: r => x +:+ sep +:+ join sep r
  end.

Definition generateCacheKey (prefix : string) (parts : list Part) : string :=
  prefix +:+ ":" +:+ join ":" (part_to_string <$> parts).

Definition simpleHash_loop (str : list Z) : Z :=
  foldl (λ hash char,
    let hash := Js.shl hash 5 - hash + char in
    Js.band hash hash) 0 str.

Definition simpleHash (str : list Z) : string :=
  Js.toString36 (Z.to_N (Z.abs (simpleHash_loop str))).

Definition flag (b : option bool) : string :=
  if Js.truthy_bool b then "1" else "0".

Definition generateQueryCacheKey (question : list Z) (topK : Z)
    (enableRerank enableLLMRerank : option bool) (sentenceWindowSize : option Z) : string :=
  let hash := simpleHash question in
  generateCacheKey "query"
    [PStr hash; PNum topK; PStr (flag enableRerank); PStr (flag enableLLMRerank);
     PNum (Js.number_or sentenceWindowSize 3)].

(** *** The response cache and its middleware *)

(** The two shapes of value the repository stores in [responseCache]: the
    chat route's [{answer, sources}] and the middleware's
    [{body, status, statusText, headers}], whose [headers] is a plain
    object with one string for each header name. *)
Inductive CachedValue :=
  | ChatData (answer : option string) (sources : list string)
  | HttpData (body : string) (status : Z) (statusText : string)
      (headers : gmap string string).

(** A response as its reader sees it.  [r_headers] gives, for each
    (lower-case) header name, the values that iterating over
    [response.headers] yields for it: one combined value, or for
    [set-cookie] one value for each header.  [r_body] is what
    [response.text()] gives; it is the empty string for a [null] body. *)
Record Response := mkResponse {
  r_status : Z;
  r_statusText : string;
  r_headers : gmap string (list string);
  r_body : string
}.

(** [response.ok] *)
Definition ok (r : Response) : bool := bool_decide (200 ≤ r_status r ≤ 299).

(** [Object.fromEntries(response.headers.entries())]: where the iteration
    yields several entries for a name, the last one stays. *)
Definition Object_fromEntries (headers : gmap string (list string)) : gmap string string :=
  omap last headers.

(** The headers of [new Response(body, {headers})] for a string [body]: one
    value for each property of the object, and the [Content-Type] of a
    string body unless the object gives one. *)
Definition init_headers (headers : gmap string string) : gmap string (list string) :=
  let filled := (λ value, [value]) <$> headers in
  if bool_decide (is_Some (filled !! "content-type")) then filled
  else <["content-type" := ["text/plain;charset=UTF-8"]]> filled.

(** [new Response(cached.body, cached)]; [None] where the constructor
    throws.  A value of the chat route has no [body], [status] or
    [headers]. *)
Definition replay (cached : CachedValue) : option Response :=
  match cached with
  | HttpData body status statusText headers =>
      status ← Fetch.init_status status;
      Some (mkResponse status statusText (init_headers headers) body)
  | ChatData _ _ => Some (mkResponse 200 "" ∅ "")
  end.

(** [withResponseCache(keyGenerator, ttl)(handler)] applied to a request.
    The wrapped handler runs against the global [responseCache] too, so it
    takes and returns it.  The response is [None] where the wrapper
    rejects. *)
Definition withResponseCache {Req : Type} (keyGenerator : Req → string) (ttl : option Z)
    (handler : Req → MemoryCache CachedValue → Response * MemoryCache CachedValue)
    (req : Req) (responseCache : MemoryCache CachedValue) (getNow setNow evictNow : Z)
  : option Response * MemoryCache CachedValue :=
  let key := keyGenerator req in
  let '(cached, responseCache) := get responseCache key getNow in
  match cached with
  | Some cached => (replay cached, responseCache)
  | None =>
      let '(response, responseCache) := handler req responseCache in
      if ok response then
        (Some response,
         set responseCache key
           (HttpData (r_body response) (r_status response) (r_statusText response)
              (Object_fromEntries (r_headers response))) ttl setNow evictNow)
      else (Some response, responseCache)
  end.

End Cache.

(** ** The chat route: [POST /api/chat] *)

Module ChatRoute.

Import RateLimit Cache.

(** A body that type-checks against [bodySchema]'s field types; the ranges
    are checked by [bodySchema_parse]. *)
Record ChatBody := mkBody {
  question : list Z;
  topK : option Z;
  enableLLMRerank : option bool;
  enableRerank : option bool;
  sentenceWindowSize : option Z
}.

Definition in_range (lo hi : Z) (x : option Z) : bool :=
  match x with
  | Some n => bool_decide (lo ≤ n ≤ hi)
  | None => true
  end.

(** [bodySchema.parse]: [None] where it throws. *)
Definition bodySchema_parse (b : ChatBody) : option ChatBody :=
  if bool_decide (3 ≤ Z.of_nat (length (question b)) ≤ 2000)
     && in_range 1 50 (topK b) && in_range 1 10 (sentenceWindowSize b)
  then Some b else None.

(** [req.headers] and the outcome of [req.json()]: [None] where it rejects
    or yields a value of the wrong shape. *)
Record Request := mkRequest {
  req_headers : gmap string string;
  req_json : option ChatBody
}.

(** What [resp.json()] of the backend gives. *)
Inductive BackendJson :=
  | JsonRejects
  | JsonNull
  | JsonObject (answer : option string) (sources : option (list string)).

(** What [fetch(pyUrl/chat)] gives, if it is performed. *)
Inductive Upstream :=
  | FetchRejects
  | FetchResponse (ok : bool) (status : Z) (json : BackendJson).

Inductive Thrown :=
  | RateLimitError
  | ExternalServiceError
  | OtherError.

Inductive Payload :=
  | ErrorPayload (e : Thrown)
  | DataPayload (v : CachedValue).

Record Reply := mkReply {
  status : Z;
  payload : Payload
}.

(** [handleApiError]: the status of an [AppError], 500 for anything else. *)
Definition handleApiError (e : Thrown) : Reply :=
  match e with
  | RateLimitError => mkReply 429 (ErrorPayload e)
  | ExternalServiceError => mkReply 502 (ErrorPayload e)
  | OtherError => mkReply 500 (ErrorPayload e)
  end.

(** The process-wide state the handler works on. *)
Record Server := mkServer {
  buckets : gmap string Bucket;
  responseCache : MemoryCache CachedValue
}.

(** The values of [Date.now()] read by the limiter, by [get], and by [set]
    and its [evictOldest]. *)
Record Clock := mkClock {
  t_limit : Z;
  t_get : Z;
  t_set : Z;
  t_evict : Z
}.

Definition cacheKey_of (body : ChatBody) : string :=
  generateQueryCacheKey (question body) (Js.number_or (topK body) 5)
    (enableRerank body) (enableLLMRerank body) (sentenceWindowSize body).

Definition POST (srv : Server) (req : Request) (clk : Clock) (upstream : Upstream)
  : Reply * Server :=
  let ip := ipFromHeaders (req_headers req) in
  let '(rl, buckets) := rateLimit (buckets srv) ("chat:" +:+ ip) 60 60000 (t_limit clk) in
  let srv := mkServer buckets (responseCache srv) in
  if negb (allowed rl) then (handleApiError RateLimitError, srv)
  else
    match req_json req ≫= bodySchema_parse with
    | None => (handleApiError OtherError, srv)
    | Some body =>
        let cacheKey := cacheKey_of body in
        let '(cachedResponse, rc) := get (responseCache srv) cacheKey (t_get clk) in
        let srv := mkServer buckets rc in
        match cachedResponse with
        | Some cachedResponse => (mkReply 200 (DataPayload cachedResponse), srv)
        | None =>
            match upstream with
            | FetchRejects => (handleApiError OtherError, srv)
            | FetchResponse _ _ JsonRejects => (handleApiError OtherError, srv)
            | FetchResponse false _ _ => (handleApiError ExternalServiceError, srv)
            | FetchResponse true _ JsonNull => (handleApiError OtherError, srv)
            | FetchResponse true _ (JsonObject answer sources) =>
                let responseData := ChatData answer (default [] sources) in
                let rc := set rc cacheKey responseData (Some 300000) (t_set clk) (t_evict clk) in
                (mkReply 200 (DataPayload responseData), mkServer buckets rc)
            end
        end
    end.

(** [resp.ok] of the backend call; [false] too when [fetch] gave no response
    at all. *)
Definition upstream_ok (u : Upstream) : bool :=
  match u with
  | FetchRejects => false
  | FetchResponse ok _ _ => ok
  end.

(** A request without headers or options, and a backend answering 503. *)
Definition example_body : ChatBody :=
  mkBody (Js.code_units "Aa rates") None None None None.

Definition example_request : Request := mkRequest ∅ (Some example_body).

Definition example_failure : Upstream := FetchResponse false 503 JsonNull.

End ChatRoute.

(** ** The memoising wrappers [cached] and [cachedAsync] *)

Module Cached.

Import Cache.

Section wrappers.
Context {Args T : Type}.

(** Which results are [null]: the wrappers test [cached !== null], so a
    stored [null] counts as absent. *)
Context (is_null : T → bool).

(** The wrapped function runs against the same cache object as the wrapper
    (and, for [cachedAsync], other handlers run while it is awaited), so it
    takes the cache and returns it.  Its result is [None] for a call that
    throws or, under [cachedAsync], whose promise rejects.  [cached] does
    not await: a promise that the function returns is a result like any
    other and is stored, also one that rejects.  [call] is the path after
    the lookup: the function is called and its result stored. *)
Definition call (fn : Args → MemoryCache T → option T * MemoryCache T)
    (cache : MemoryCache T) (key : string) (ttl : option Z) (args : Args)
    (setNow evictNow : Z) : option T * MemoryCache T :=
  match fn args cache with
  | (Some result, cache) => (Some result, set cache key result ttl setNow evictNow)
  | (None, cache) => (None, cache)
  end.

Definition cached (fn : Args → MemoryCache T → option T * MemoryCache T)
    (cache : MemoryCache T) (keyGenerator : Args → string) (ttl : option Z)
    (args : Args) (getNow setNow evictNow : Z) : option T * MemoryCache T :=
  let key := keyGenerator args in
  let '(cached, cache) := get cache key getNow in
  match cached with
  | Some cached =>
      if is_null cached then call fn cache key ttl args setNow evictNow
      else (Some cached, cache)
  | None => call fn cache key ttl args setNow evictNow
  end.

Definition cachedAsync (fn : Args → MemoryCache T → option T * MemoryCache T)
    (cache : MemoryCache T) (keyGenerator : Args → string) (ttl : option Z)
    (args : Args) (getNow setNow evictNow : Z) : option T * MemoryCache T :=
  let key := keyGenerator args in
  let '(cached, cache) := get cache key getNow in
  match cached with
  | Some cached =>
      if is_null cached then call fn cache key ttl args setNow evictNow
      else (Some cached, cache)
  | None => call fn cache key ttl args setNow evictNow
  end.

End wrappers.

End Cached.

(** ** The logger module: [PerformanceMonitor] *)

Module PerformanceMonitor.

(** [metrics]: the static [Map<string, number[]>]; the values are durations
    in milliseconds. *)
Definition recordMetric (metrics : gmap string (list Z)) (name : string) (value : Z)
  : gmap string (list Z) :=
  let metrics :=
    if bool_decide (is_Some (metrics !! name)) then metrics else <[name := []]> metrics in
  let values := default [] (metrics !! name) ++ [value] in
  let values := if decide (100 < Z.of_nat (length values)) then tail values else values in
  <[name := values]> metrics.

Record MetricStats := mkMetricStats {
  avg : Q;
  min : Z;
  max : Z;
  count : Z
}.

(** [Math.min(...values)] and [Math.max(...values)] on a non-empty array. *)
Definition Math_min (first : Z) (rest : list Z) : Z := foldl Z.min first rest.
Definition Math_max (first : Z) (rest : list Z) : Z := foldl Z.max first rest.

Definition getMetricStats (metrics : gmap string (list Z)) (name : string)
  : option MetricStats :=
  match metrics !! name with
  | None | Some [] => None
  | Some ((first :: rest) as values) =>
      let sum := foldl Z.add 0 values in
      Some (mkMetricStats (Qdiv (inject_Z sum) (inject_Z (Z.of_nat (length values))))
              (Math_min first rest) (Math_max first rest) (Z.of_nat (length values)))
  end.

(** A sequence of [recordMetric] calls. *)
Definition record_all (metrics : gmap string (list Z)) (calls : list (string * Z))
  : gmap string (list Z) :=
  foldl (λ m call, recordMetric m call.1 call.2) metrics calls.

(** The values recorded under [name], in order. *)
Definition recorded (name : string) (calls : list (string * Z)) : list Z :=
  snd <$> filter (λ call, call.1 = name) calls.

End PerformanceMonitor.

(** ** The error handling module *)

Module ErrorHandler.

Inductive ErrorType :=
  | VALIDATION | AUTHENTICATION | AUTHORIZATION | NOT_FOUND | RATE_LIMIT
  | FILE_UPLOAD | EXTERNAL_SERVICE | INTERNAL_SERVER | NETWORK | TIMEOUT.

#[global] Instance ErrorType_eq_dec : EqDecision ErrorType.
Proof. solve_decision. Defined.

(** An [AppError]: a [BaseError], or any object with a string [type] and a
    numeric [statusCode]; only a [BaseError] is sure to carry a
    [userMessage]. *)
Record AppError := mkAppError {
  message : string;
  type : ErrorType;
  statusCode : Z;
  isOperational : bool;
  userMessage : option string
}.

Definition getDefaultUserMessage (type : ErrorType) : string :=
  match type with
  | VALIDATION => "Please check your input and try again."
  | AUTHENTICATION => "Please log in to continue."
  | AUTHORIZATION => "You do not have permission to perform this action."
  | NOT_FOUND => "The requested resource was not found."
  | RATE_LIMIT => "Too many requests. Please try again later."
  | FILE_UPLOAD => "There was a problem with your file upload."
  | EXTERNAL_SERVICE =>
      "An external service is currently unavailable. Please try again later."
  | NETWORK => "Network error. Please check your connection and try again."
  | TIMEOUT => "The request took too long to complete. Please try again."
  | INTERNAL_SERVER => "An unexpected error occurred. Please try again."
  end.

(** [new BaseError(message, type, statusCode, isOperational, userMessage)] *)
Definition BaseError (message : string) (type : ErrorType) (statusCode : Z)
    (isOperational : bool) (userMessage : option string) : AppError :=
  mkAppError message type statusCode isOperational
    (Some (if Js.truthy_string userMessage then default "" userMessage
           else getDefaultUserMessage type)).

Definition ValidationError (message : string) (userMessage : option string) : AppError :=
  BaseError message VALIDATION 400 true userMessage.
Definition AuthenticationError (message : string) : AppError :=
  BaseError message AUTHENTICATION 401 true None.
Definition AuthorizationError (message : string) : AppError :=
  BaseError message AUTHORIZATION 403 true None.
Definition NotFoundError (message : string) : AppError :=
  BaseError message NOT_FOUND 404 true None.
Definition RateLimitError (message : string) : AppError :=
  BaseError message RATE_LIMIT 429 true None.
Definition FileUploadError (message : string) (userMessage : option string) : AppError :=
  BaseError message FILE_UPLOAD 400 true userMessage.
Definition ExternalServiceError (message : string) : AppError :=
  BaseError message EXTERNAL_SERVICE 502 true None.
Definition NetworkError (message : string) : AppError :=
  BaseError message NETWORK 503 true None.
Definition TimeoutError (message : string) : AppError :=
  BaseError message TIMEOUT 504 true None.

(** A thrown value: an [AppError], another [Error] with its message, or
    anything else. *)
Inductive Thrown :=
  | ThrownApp (e : AppError)
  | ThrownError (message : string)
  | ThrownOther.

Definition isAppError (error : Thrown) : bool :=
  match error with
  | ThrownApp _ => true
  | _ => false
  end.

(** The response of [handleApiError]: its status and the fields of its JSON
    body; [development] is [process.env.NODE_ENV === 'development']. *)
Record ApiResponse := mkApiResponse {
  status : Z;
  body_error : string;
  body_type : ErrorType;
  body_details : option string
}.

(** [new Response(JSON.stringify(body), {status, headers})]; [None] where
    the constructor throws. *)
Definition json_response (status : Z) (error : string) (type : ErrorType)
    (details : option string) : option ApiResponse :=
  status ← Fetch.init_status status;
  Some (mkApiResponse status error type details).

(** [None] where [handleApiError] itself throws, in [new Response]. *)
Definition handleApiError (development : bool) (error : Thrown) : option ApiResponse :=
  match error with
  | ThrownApp error =>
      json_response (statusCode error)
        (if Js.truthy_string (userMessage error) then default "" (userMessage error)
         else ErrorHandler.message error)
        (type error)
        (if development then Some (ErrorHandler.message error) else None)
  | _ =>
      let message :=
        match error with
        | ThrownError message => message
        | _ => "Unknown error occurred"
        end in
      json_response 500 "An unexpected error occurred. Please try again."
        INTERNAL_SERVER (if development then Some message else None)
  end.

(** *** [ClientErrorHandler] *)

Definition maxQueueSize : Z := 50.

Definition normalizeError (error : Thrown) : AppError :=
  match error with
  | ThrownApp error => error
  | ThrownError message => BaseError message INTERNAL_SERVER 500 true None
  | ThrownOther => BaseError "An unexpected error occurred" INTERNAL_SERVER 500 true None
  end.

Definition addToQueue (errorQueue : list AppError) (error : AppError) : list AppError :=
  let errorQueue := errorQueue ++ [error] in
  if decide (maxQueueSize < Z.of_nat (length errorQueue)) then tail errorQueue
  else errorQueue.

(** [handleError]: the queue after it; logging and the console notice are
    not part of the state. *)
Definition handleError (errorQueue : list AppError) (error : Thrown) : list AppError :=
  addToQueue errorQueue (normalizeError error).

Definition getRecentErrors (errorQueue : list AppError) : list AppError := errorQueue.

Definition clearErrors (errorQueue : list AppError) : list AppError := [].

(** *** [retryWithBackoff] *)

Inductive Outcome (T : Type) :=
  | Resolves (value : T)
  | Rejects (error : Thrown).

Arguments Resolves {T} value.
Arguments Rejects {T} error.

(** How [retryWithBackoff] ends: with a value, or throwing [lastError],
    which is [undefined] ([None]) if the operation was never called. *)
Inductive Ending (T : Type) :=
  | Returned (value : T)
  | Threw (lastError : option Thrown).

Arguments Returned {T} value.
Arguments Threw {T} lastError.

Definition non_retryable (error : Thrown) : bool :=
  match error with
  | ThrownApp error =>
      bool_decide (type error ∈ [VALIDATION; AUTHENTICATION; AUTHORIZATION; NOT_FOUND])
  | _ => false
  end.

(** The delay before the next attempt, without and with its jitter;
    [random] is the value of [Math.random()]. *)
Definition backoff (baseDelay maxDelay : Z) (attempt : nat) : Z :=
  Z.min (baseDelay * 2 ^ Z.of_nat attempt) maxDelay.

Definition with_jitter (delay : Z) (random : Q) : Q :=
  (inject_Z delay + random * (1 # 10) * inject_Z delay)%Q.

Record RetryRun (T : Type) := mkRetryRun {
  ending : Ending T;
  calls : nat;
  sleeps : list Q
}.

Arguments mkRetryRun {T} ending calls sleeps.
Arguments ending {T} r.
Arguments calls {T} r.
Arguments sleeps {T} r.

Section retry.
Context {T : Type}.

(** [operation i] is what the [i]-th call of the operation gives, [random i]
    the random number drawn after it.  The loop runs while
    [attempt <= maxRetries]; [fuel] counts the iterations left. *)
Fixpoint retry_loop (operation : nat → Outcome T) (random : nat → Q)
    (maxRetries baseDelay maxDelay : Z) (fuel attempt : nat)
    (lastError : option Thrown) (slept : list Q) : RetryRun T :=
  match fuel with
  | O => mkRetryRun (Threw lastError) attempt slept
  | S fuel =>
      match operation attempt with
      | Resolves value => mkRetryRun (Returned value) (S attempt) slept
      | Rejects error =>
          if decide (Z.of_nat attempt = maxRetries) then
            mkRetryRun (Threw (Some error)) (S attempt) slept
          else if non_retryable error then
            mkRetryRun (Threw (Some error)) (S attempt) slept
          else
            let delay := backoff baseDelay maxDelay attempt in
            retry_loop operation random maxRetries baseDelay maxDelay fuel (S attempt)
              (Some error) (slept ++ [with_jitter delay (random attempt)])
      end
  end.

Definition retryWithBackoff (operation : nat → Outcome T) (random : nat → Q)
    (maxRetries baseDelay maxDelay : Z) : RetryRun T :=
  retry_loop operation random maxRetries baseDelay maxDelay
    (Z.to_nat (maxRetries + 1)) 0 None [].

End retry.

End ErrorHandler.

(** ** The upload helper: [saveIncomingFile] *)

Module Upload.

(** The class [[a-zA-Z0-9-_]] on code units. *)
Definition safe (c : Z) : bool :=
  bool_decide ((97 ≤ c ≤ 122) ∨ (65 ≤ c ≤ 90) ∨ (48 ≤ c ≤ 57) ∨ c = 45 ∨ c = 95).

(** [s.replace(/[^a-zA-Z0-9-_]+/g, '_')]: every maximal run of other code
    units becomes one underscore.  [in_run] says that the previous code unit
    was replaced. *)
Fixpoint replace_unsafe (in_run : bool) (s : list Z) : list Z :=
  match s with
  | [] => []
  | c :: r =>
      if safe c then c :: replace_unsafe false r
      else if in_run then replace_unsafe true r
      else 95 :: replace_unsafe true r
  end.

(** The name under which [saveIncomingFile] stores a file: [ext] is
    [path.extname(file.name).toLowerCase()], [base] is
    [path.basename(file.name, ext)] and [hash] the SHA-1 of the content in
    hexadecimal. *)
Definition fileName (base ext hash : list Z) : list Z :=
  let safeBase := replace_unsafe false base in
  safeBase ++ [95] ++ take 10 hash ++ ext.

End Upload.

(** ** The upload route: [POST /api/upload] *)

Module UploadRoute.

Import RateLimit ErrorHandler.

Definition MAX_FILES : Z := 12.
Definition MAX_FILE_SIZE : Z := 25 * 1024 * 1024.
Definition MAX_TOTAL_SIZE : Z := 100 * 1024 * 1024.

Definition ALLOWED_EXTENSIONS : list string :=
  [".pdf"; ".docx"; ".html"; ".htm"; ".txt"; ".md"].

(** The MIME types of the local list [allowed]. *)
Definition allowed : list string :=
  ["application/pdf";
   "application/vnd.openxmlformats-officedocument.wordprocessingml.document";
   "text/html"; "application/xhtml+xml"; "text/plain"; "text/markdown";
   "application/octet-stream"].

(** The two shapes of [SUSPICIOUS_PATTERNS]: [/text$/i] and [/text/i]. *)
Inductive Pattern :=
  | AtEnd (text : string)
  | Anywhere (text : string).

Definition SUSPICIOUS_PATTERNS : list Pattern :=
  [AtEnd ".exe"; AtEnd ".bat"; AtEnd ".cmd"; AtEnd ".scr"; AtEnd ".vbs"; AtEnd ".js";
   AtEnd ".jar"; Anywhere "<script"; Anywhere "javascript:"; Anywhere "vbscript:";
   Anywhere "onload="; Anywhere "onerror="].

(** A pattern character against a character of the input under the [i]
    flag: the pattern characters here are lower-case letters and
    punctuation, and a lower-case letter also matches its capital. *)
Definition matches_char (p c : ascii) : bool :=
  let pn := N_of_ascii p in
  let cn := N_of_ascii c in
  bool_decide (cn = pn ∨ ((97 ≤ pn ≤ 122)%N ∧ (cn + 32 = pn)%N)).

Fixpoint matches_here (text s : string) : bool :=
  match text, s with
  | EmptyString, _ => true
  | String p text, String c s => matches_char p c && matches_here text s
  | String _ _, EmptyString => false
  end.

Fixpoint matches_anywhere (text s : string) : bool :=
  matches_here text s
  || match s with
     | String _ s => matches_anywhere text s
     | EmptyString => false
     end.

Definition matches_at_end (text s : string) : bool :=
  matches_here (String.rev text) (String.rev s).

(** [pattern.test(s)] *)
Definition test (pattern : Pattern) (s : string) : bool :=
  match pattern with
  | AtEnd text => matches_at_end text s
  | Anywhere text => matches_anywhere text s
  end.

(** [s.lastIndexOf(c)], -1 when [c] does not occur. *)
Fixpoint lastIndexOf_from (c : ascii) (s : string) (i : Z) (found : Z) : Z :=
  match s with
  | String d r => lastIndexOf_from c r (i + 1) (if decide (d = c) then i else found)
  | EmptyString => found
  end.

Definition lastIndexOf (c : ascii) (s : string) : Z := lastIndexOf_from c s 0 (-1).

(** [s.substring(start)]: a negative [start] counts as 0. *)
Fixpoint drop_chars (n : nat) (s : string) : string :=
  match n, s with
  | S n, String _ r => drop_chars n r
  | _, _ => s
  end.

Definition substring (s : string) (start : Z) : string := drop_chars (Z.to_nat start) s.

(** [s.endsWith(suffix)] *)
Definition endsWith (s suffix : string) : bool :=
  String.prefix (String.rev suffix) (String.rev s).

Record File := mkFile {
  f_name : string;
  f_size : Z;
  f_type : string;
  f_content : string
}.

(** An entry of [form.getAll("files")]: a [File] or a plain string. *)
Inductive FormEntry :=
  | FileEntry (f : File)
  | TextEntry (value : string).

(** The [throw] statements of the handler. *)
Inductive Failure :=
  | RateLimited
  | StorageFailed
  | FormFailed
  | NoFiles
  | TooManyFiles
  | FileTooLarge (f : File)
  | TotalTooLarge (totalSize : Z)
  | BadExtension (f : File) (fileExt : string)
  | SuspiciousName (f : File)
  | BadType (f : File)
  | SaveFailed (f : File)
  | FetchFailed
  | IngestJsonFailed
  | IngestFailed
  | IngestNull.

(** What [resp.json()] of the ingestion backend gives, and the backend call
    as a whole. *)
Inductive IngestJson :=
  | JsonRejects
  | JsonNull
  | JsonObject (ingested : option Z).

Inductive Upstream :=
  | FetchRejects
  | FetchResponse (ok : bool) (status : Z) (json : IngestJson).

(** The reply: the 200 response with its [ingested], or the response that
    [handleApiError] makes of a failure, [None] if it throws itself. *)
Inductive Reply :=
  | Ingested (ingested : Z)
  | Failed (failure : Failure) (response : option ApiResponse).

(** What a request leaves behind: the limiter's buckets, the paths written
    under the upload directory, and the [file_paths] posted to the backend
    if it was called. *)
Record Effects := mkEffects {
  buckets : gmap string Bucket;
  saved : list string;
  posted : option (list string)
}.

Section handler.

(** [String.prototype.toLowerCase]; [saveIncomingFile(UPLOAD_DIR, f)] with
    the path it returns, [None] where it rejects;
    [process.env.NODE_ENV === 'development']; and the message of the
    [Error] that a failing library call throws ([ensureStorage],
    [req.formData], [saveIncomingFile], [fetch], [resp.json], or the read of
    [json.ingested] on [null]). *)
Context (toLowerCase : string → string).
Context (saveIncomingFile : File → option string).
Context (development : bool).
Context (library_message : Failure → string).

(** The value that is thrown at each failure: one of the error classes of
    the error module where the handler throws, the library's [Error]
    otherwise. *)
Definition thrown (failure : Failure) : Thrown :=
  match failure with
  | RateLimited => ThrownApp (RateLimitError "Too many uploads, slow down.")
  | NoFiles => ThrownApp (FileUploadError "No files provided" None)
  | TooManyFiles =>
      ThrownApp (FileUploadError ("Too many files (max " +:+ pretty MAX_FILES +:+ ")") None)
  | FileTooLarge f => ThrownApp (FileUploadError (f_name f +:+ " exceeds 25MB limit") None)
  | TotalTooLarge _ =>
      ThrownApp (FileUploadError "Total upload size exceeds 100MB limit" None)
  | BadExtension _ fileExt =>
      ThrownApp (FileUploadError ("Unsupported file extension: " +:+ fileExt) None)
  | SuspiciousName f =>
      ThrownApp (FileUploadError
                   ("File name contains suspicious patterns: " +:+ f_name f) None)
  | BadType f =>
      ThrownApp (FileUploadError ("Unsupported file type for " +:+ f_name f) None)
  | IngestFailed => ThrownApp (ExternalServiceError "Python ingest failed")
  | StorageFailed | FormFailed | SaveFailed _ | FetchFailed | IngestJsonFailed
  | IngestNull => ThrownError (library_message failure)
  end.

(** The checks of one file, in the order of the loop body; [totalSize] is
    the running total before the file. *)
Definition check_file (f : File) (totalSize : Z) : option Failure :=
  if decide (MAX_FILE_SIZE < f_size f) then Some (FileTooLarge f)
  else
    let totalSize := totalSize + f_size f in
    if decide (MAX_TOTAL_SIZE < totalSize) then Some (TotalTooLarge totalSize)
    else
      let fileExt := substring (toLowerCase (f_name f)) (lastIndexOf "." (f_name f)) in
      if negb (bool_decide (fileExt ∈ ALLOWED_EXTENSIONS)) then Some (BadExtension f fileExt)
      else
        let fileName := toLowerCase (f_name f) in
        if existsb (λ pattern, test pattern fileName) SUSPICIOUS_PATTERNS
        then Some (SuspiciousName f)
        else if negb (bool_decide (f_type f ∈ allowed))
                && negb (existsb (λ ext, endsWith (toLowerCase (f_name f)) ext)
                           ALLOWED_EXTENSIONS)
        then Some (BadType f)
        else None.

(** The loop over [files]: the failure that ended it, if any, the total
    size and the paths saved so far. *)
Fixpoint save_files (files : list FormEntry) (totalSize : Z) (saved : list string)
  : option Failure * Z * list string :=
  match files with
  | [] => (None, totalSize, saved)
  | TextEntry _ :: files => save_files files totalSize saved
  | FileEntry f :: files =>
      match check_file f totalSize with
      | Some failure => (Some failure, totalSize, saved)
      | None =>
          match saveIncomingFile f with
          | None => (Some (SaveFailed f), totalSize + f_size f, saved)
          | Some p => save_files files (totalSize + f_size f) (saved ++ [p])
          end
      end
  end.

Definition fail (failure : Failure) (effects : Effects) : Reply * Effects :=
  (Failed failure (handleApiError development (thrown failure)), effects).

Definition POST (buckets : gmap string Bucket) (headers : gmap string string)
    (now : Z) (storageReady : bool) (form : option (list FormEntry))
    (upstream : Upstream) : Reply * Effects :=
  let ip := ipFromHeaders headers in
  let '(rl, buckets) := rateLimit buckets ("upload:" +:+ ip) 20 60000 now in
  if negb (RateLimit.allowed rl) then fail RateLimited (mkEffects buckets [] None)
  else if negb storageReady then fail StorageFailed (mkEffects buckets [] None)
  else
    match form with
    | None => fail FormFailed (mkEffects buckets [] None)
    | Some files =>
        if decide (length files = 0%nat) then fail NoFiles (mkEffects buckets [] None)
        else if decide (MAX_FILES < Z.of_nat (length files))
        then fail TooManyFiles (mkEffects buckets [] None)
        else
          match save_files files 0 [] with
          | (Some failure, _, saved) => fail failure (mkEffects buckets saved None)
          | (None, _, saved) =>
              let effects := mkEffects buckets saved (Some saved) in
              match upstream with
              | FetchRejects => fail FetchFailed effects
              | FetchResponse _ _ JsonRejects => fail IngestJsonFailed effects
              | FetchResponse false _ _ => fail IngestFailed effects
              | FetchResponse true _ JsonNull => fail IngestNull effects
              | FetchResponse true _ (JsonObject ingested) =>
                  (Ingested (default (Z.of_nat (length saved)) ingested), effects)
              end
          end
    end.

End handler.

End UploadRoute.

(** ** The streaming chat route: [POST /api/chat_stream] *)

Module ChatStreamRoute.

Import RateLimit.

(** How the handler ends: the 429 and 500 error events, the relayed stream,
    or an exception that leaves the handler ([req.json()] or
    [bodySchema.parse] throwing, or [fetch] or [upstream.text()]
    rejecting). *)
Inductive Reply :=
  | RateLimitExceeded
  | UpstreamFailed (error : string)
  | Streaming
  | Uncaught.

Definition reply_status (r : Reply) : option Z :=
  match r with
  | RateLimitExceeded => Some 429
  | UpstreamFailed _ => Some 500
  | Streaming => Some 200
  | Uncaught => None
  end.

(** The upstream response: [ok], whether it has a body, and what
    [upstream.text()] gives when it is read, [None] where it rejects. *)
Inductive Upstream :=
  | FetchRejects
  | FetchResponse (ok : bool) (hasBody : bool) (text : option string).

(** The reply, the buckets, and whether the backend was called. *)
Definition POST (buckets : gmap string Bucket) (headers : gmap string string)
    (now : Z) (json : option ChatRoute.ChatBody) (upstream : Upstream)
  : Reply * gmap string Bucket * bool :=
  let ip := ipFromHeaders headers in
  let '(rl, buckets) := rateLimit buckets ("chat_stream:" +:+ ip) 60 60000 now in
  if negb (allowed rl) then (RateLimitExceeded, buckets, false)
  else
    match json ≫= ChatRoute.bodySchema_parse with
    | None => (Uncaught, buckets, false)
    | Some _ =>
        match upstream with
        | FetchRejects => (Uncaught, buckets, true)
        | FetchResponse ok hasBody text =>
            if negb ok || negb hasBody then
              match text with
              | None => (Uncaught, buckets, true)
              | Some errText =>
                  (UpstreamFailed
                     (if bool_decide (errText ≠ "") then errText else "Upstream failed"),
                   buckets, true)
              end
            else (Streaming, buckets, true)
        end
    end.

End ChatStreamRoute.

(** * Properties *)

Import RateLimit Cache.

(** ** The rate limiter *)

(** What one call decides and leaves in the bucket of its key, in terms of
    the timestamps the bucket held. *)
Lemma rateLimit_allowed bs key lim W now :
  allowed (rateLimit bs key lim W now).1
  = bool_decide (Z.of_nat (length (filter (λ t, now - t < W) (bucket_timestamps bs key))) < lim).
Proof.
  unfold rateLimit, getBucket, bucket_timestamps.
  destruct (bs !! key) as [b|]; simpl;
    case_decide; simpl; symmetry;
    (apply bool_decide_eq_false_2 || apply bool_decide_eq_true_2); lia.
Qed.

Lemma rateLimit_timestamps bs key lim W now :
  bucket_timestamps (rateLimit bs key lim W now).2 key
  = let kept := filter (λ t, now - t < W) (bucket_timestamps bs key) in
    if allowed (rateLimit bs key lim W now).1 then kept ++ [now] else kept.
Proof.
  unfold rateLimit, getBucket, bucket_timestamps.
  destruct (bs !! key) as [b|]; simpl;
    case_decide; simpl; by rewrite lookup_insert_eq.
Qed.

Lemma rateLimit_other bs key lim W now key' :
  key ≠ key' → (rateLimit bs key lim W now).2 !! key' = bs !! key'.
Proof.
  intros Hne. unfold rateLimit, getBucket.
  destruct (bs !! key) as [b|]; simpl;
    case_decide; simpl; by rewrite !lookup_insert_ne.
Qed.

(** *** The sliding window

    [recent now t] is the pruning test of [rateLimit]; [in_window a t] says
    that [t] lies in the half-open interval from [a] of length [W]. *)

Section window.
Context (key : string) (N W : Z).

Definition recent (now t : Z) : Prop := now - t < W.
Definition in_window (a t : Z) : Prop := a ≤ t < a + W.

#[local] Instance recent_dec now t : Decision (recent now t).
Proof. unfold recent. apply _. Defined.
#[local] Instance in_window_dec a t : Decision (in_window a t).
Proof. unfold in_window. apply _. Defined.

Lemma filter_length_mono {A} (P Q : A → Prop) `{∀ x, Decision (P x)} `{∀ x, Decision (Q x)} l :
  (∀ x, x ∈ l → P x → Q x) → (length (filter P l) ≤ length (filter Q l))%nat.
Proof.
  induction l as [|x l IH]; intros HPQ; [done|].
  rewrite !filter_cons.
  assert (length (filter P l) ≤ length (filter Q l))%nat.
  { apply IH. intros y Hy. apply HPQ. by right. }
  destruct (decide (P x)) as [HP|]; destruct (decide (Q x)) as [|HQ]; simpl; try lia.
  exfalso. apply HQ, HPQ; [by left|done].
Qed.

Lemma filter_recent_later (lo now : Z) (l : list Z) :
  lo ≤ now → filter (recent now) (filter (recent lo) l) = filter (recent now) l.
Proof.
  intros Hle. induction l as [|x l IH]; [done|].
  rewrite !filter_cons.
  destruct (decide (recent lo x)) as [Hlo|Hlo].
  - rewrite filter_cons. destruct (decide (recent now x)); by rewrite IH.
  - rewrite IH. destruct (decide (recent now x)) as [Hn|]; [|done].
    unfold recent in *. lia.
Qed.

(** The invariant of a run: [A] lists the admitted times of [key] so far,
    [lo] is a time no later than every call still to come. *)
Record Inv (bs : gmap string Bucket) (A : list Z) (lo : Z) : Prop := {
  inv_bucket : bucket_timestamps bs key = filter (recent lo) A;
  inv_past : Forall (λ t, t ≤ lo) A;
  inv_window : ∀ a, Z.of_nat (length (filter (in_window a) A)) ≤ N;
  inv_size : Z.of_nat (length (bucket_timestamps bs key)) ≤ N
}.

Definition pushed (d : Decision_) (now : Z) : list Z :=
  if allowed d then [now] else [].

Lemma Inv_step bs A lo now :
  0 < W → Inv bs A lo → lo ≤ now →
  Inv (rateLimit bs key N W now).2 (A ++ pushed (rateLimit bs key N W now).1 now) now.
Proof.
  intros HW [Hb Hp Hw Hs] Hle.
  pose proof (rateLimit_timestamps bs key N W now) as Hts.
  pose proof (rateLimit_allowed bs key N W now) as Hal.
  fold (recent now) in Hts, Hal. simpl in Hts.
  rewrite Hb, filter_recent_later in Hts, Hal by done.
  assert (Hnow : recent now now) by (unfold recent; lia).
  unfold pushed. destruct (allowed _) eqn:Ha.
  - symmetry in Hal. apply bool_decide_eq_true_1 in Hal.
    split.
    + rewrite Hts, filter_app, filter_cons, decide_True by done. done.
    + apply Forall_app. split; [|by repeat constructor].
      eapply Forall_impl; [exact Hp|]. intros; simpl in *; lia.
    + intros a. rewrite filter_app, length_app, filter_cons, filter_nil.
      destruct (decide (in_window a now)) as [Hin|]; simpl.
      * assert (length (filter (in_window a) A) ≤ length (filter (recent now) A))%nat.
        { apply filter_length_mono. intros t _. unfold in_window, recent in *. lia. }
        lia.
      * specialize (Hw a). lia.
    + rewrite Hts, length_app. simpl. lia.
  - rewrite app_nil_r. split.
    + done.
    + eapply Forall_impl; [exact Hp|]. intros; simpl in *; lia.
    + done.
    + rewrite Hts, <-(filter_recent_later lo now), <-Hb by done.
      pose proof (length_filter (recent now) (bucket_timestamps bs key)). lia.
Qed.

Lemma Inv_other bs A lo key' lim win now :
  key' ≠ key → Inv bs A lo → Inv (rateLimit bs key' lim win now).2 A lo.
Proof.
  intros Hne [Hb Hp Hw Hs].
  assert (bucket_timestamps (rateLimit bs key' lim win now).2 key = bucket_timestamps bs key) as E.
  { unfold bucket_timestamps. by rewrite rateLimit_other. }
  split; rewrite ?E; done.
Qed.

Definition uniform (calls : list Call) : Prop :=
  ∀ c, c ∈ calls → c_key c = key → c_limit c = N ∧ c_windowMs c = W.

Lemma allowed_times_cons c d tr :
  allowed_times key ((c, d) :: tr)
  = (if decide (c_key c = key) then pushed d (c_now c) else []) ++ allowed_times key tr.
Proof.
  unfold allowed_times, pushed. rewrite filter_cons. simpl.
  destruct (decide (c_key c = key)) as [->|Hne].
  - destruct (allowed d).
    + rewrite decide_True by done. done.
    + rewrite decide_False by (intros [_ ?]; done). done.
  - rewrite decide_False by (intros [? _]; done). done.
Qed.

Lemma run_cons bs c cs :
  run bs (c :: cs)
  = let r := rateLimit bs (c_key c) (c_limit c) (c_windowMs c) (c_now c) in
    ((c, r.1) :: (run r.2 cs).1, (run r.2 cs).2).
Proof.
  simpl. destruct (rateLimit _ _ _ _ _) as [d bs']. simpl.
  by destruct (run bs' cs).
Qed.

Lemma run_Inv calls : ∀ bs A lo,
  0 < W →
  Inv bs A lo →
  uniform calls →
  StronglySorted (λ c c', c_now c ≤ c_now c') calls →
  Forall (λ c, lo ≤ c_now c) calls →
  ∃ lo', Inv (run bs calls).2 (A ++ allowed_times key (run bs calls).1) lo'
         ∧ ∀ x, lo ≤ x → Forall (λ c, c_now c ≤ x) calls → lo' ≤ x.
Proof.
  induction calls as [|c cs IH]; intros bs A lo HW HI Hu Hs Hlo.
  - exists lo. simpl. rewrite app_nil_r. split; [done|]. by intros.
  - rewrite run_cons. simpl. rewrite allowed_times_cons.
    apply StronglySorted_inv in Hs as [Hs Hhd].
    apply Forall_cons in Hlo as [Hlo0 Hlo].
    assert (Hu' : uniform cs) by (intros c' Hc'; apply Hu; by right).
    destruct (decide (c_key c = key)) as [Hk|Hk].
    + destruct (Hu c (ltac:(by left)) Hk) as [-> ->]. rewrite Hk.
      destruct (IH _ _ _ HW (Inv_step bs A lo (c_now c) HW HI Hlo0) Hu' Hs Hhd) as (lo' & HI' & Hb).
      exists lo'. rewrite <-app_assoc in HI'. split; [done|].
      intros x _ Hx. apply Forall_cons in Hx as [Hx0 Hx]. by apply Hb.
    + destruct (IH _ _ _ HW (Inv_other bs A lo _ (c_limit c) (c_windowMs c) (c_now c) Hk HI) Hu' Hs Hlo)
        as (lo' & HI' & Hb).
      exists lo'. split; [done|].
      intros x Hlx Hx. apply Forall_cons in Hx as [Hx0 Hx]. by apply Hb.
Qed.

Lemma run_app bs l1 l2 :
  (run bs (l1 ++ l2)).2 = (run (run bs l1).2 l2).2.
Proof.
  revert bs. induction l1 as [|c l1 IH]; intros bs; [done|].
  rewrite <-app_comm_cons, !run_cons. simpl. apply IH.
Qed.

Lemma Inv_init bs lo : 0 ≤ N → bs !! key = None → Inv bs [] lo.
Proof.
  intros HN Hnone. unfold bucket_timestamps.
  split; unfold bucket_timestamps; rewrite ?Hnone; simpl; done.
Qed.

End window.

#[local] Instance by_time_trans : Transitive (λ c c' : Call, c_now c ≤ c_now c').
Proof. intros x y z; simpl; lia. Qed.

Lemma sorted_bounds (calls : list Call) :
  Sorted (λ c c', c_now c ≤ c_now c') calls →
  StronglySorted (λ c c', c_now c ≤ c_now c') calls
  ∧ ∀ c0, head calls = Some c0 → Forall (λ c, c_now c0 ≤ c_now c) calls.
Proof.
  intros Hs. apply Sorted_StronglySorted in Hs; [|apply _].
  split; [done|]. intros c0 Hhd. destruct calls as [|c cs]; [done|].
  simplify_eq/=. apply StronglySorted_inv in Hs as [_ Hall].
  constructor; [lia|done].
Qed.

(** C3, amended.  Sliding boundary.  Take a key whose bucket does not
    exist yet, a limit [N >= 0] and a window [W > 0], and any sequence of
    [rateLimit] calls, for this key and for others, whose clock readings do
    not decrease, in which every call for the key passes [N] and [W].  Then
    no half-open interval [a <= t < a + W] holds more than [N] admitted
    calls of the key; and after each decision for the key its bucket holds
    at most [N] timestamps, each less than [W] before the current time. *)
Theorem rateLimit_sliding_window (buckets : gmap string Bucket) (key : string) (N W : Z)
    (calls : list Call) :
  0 ≤ N → 0 < W →
  buckets !! key = None →
  (∀ c, c ∈ calls → c_key c = key → c_limit c = N ∧ c_windowMs c = W) →
  Sorted (λ c c', c_now c ≤ c_now c') calls →
  (∀ a, Z.of_nat (length (filter (λ t, a ≤ t < a + W) (allowed_times key (run buckets calls).1))) ≤ N)
  ∧ (∀ pre c post, calls = pre ++ c :: post → c_key c = key →
       let ts := bucket_timestamps (run buckets (pre ++ [c])).2 key in
       Z.of_nat (length ts) ≤ N ∧ ∀ t, t ∈ ts → 0 ≤ c_now c - t < W).
Proof.
  intros HN HW Hnone Hu Hsorted.
  destruct (sorted_bounds calls Hsorted) as [Hss Hhd].
  split.
  - intros a. destruct calls as [|c0 cs]; [simpl; lia|].
    destruct (run_Inv key N W (c0 :: cs) buckets [] (c_now c0)) as (lo' & HI & _);
      [done|by apply Inv_init|done|done|by apply Hhd|].
    apply (inv_window _ _ _ _ _ _ HI a).
  - intros pre c post -> Hk ts.
    assert (Hss' : StronglySorted (λ c c', c_now c ≤ c_now c') (pre ++ [c])).
    { replace (pre ++ c :: post) with ((pre ++ [c]) ++ post) in Hss
        by (by rewrite <-app_assoc).
      by apply StronglySorted_app_1_l in Hss. }
    assert (Hpre : Forall (λ c', c_now c' ≤ c_now c) pre).
    { clear -Hss'. induction pre as [|x pre IH]; [done|].
      rewrite <-app_comm_cons in Hss'. apply StronglySorted_inv in Hss' as [Hs Hall].
      constructor; [|by apply IH].
      rewrite Forall_app in Hall. destruct Hall as [_ Hc].
      rewrite Forall_singleton in Hc. done. }
    set (lo := from_option c_now (c_now c) (head pre)).
    assert (Hlo : Forall (λ c', lo ≤ c_now c') pre ∧ lo ≤ c_now c).
    { subst lo. destruct pre as [|x pre]; simpl; [split; [done|lia]|].
      rewrite <-app_comm_cons in Hss'. apply StronglySorted_inv in Hss' as [_ Hall].
      rewrite Forall_app in Hall. destruct Hall as [Hall Hc].
      rewrite Forall_singleton in Hc. split; [|done]. constructor; [lia|done]. }
    destruct Hlo as [Hlo Hloc].
    destruct (run_Inv key N W pre buckets [] lo) as (lo' & HI & Hb).
    { done. }
    { by apply Inv_init. }
    { intros c' Hc'. apply Hu. apply elem_of_app. by left. }
    { by apply StronglySorted_app_1_l in Hss'. }
    { done. }
    specialize (Hb (c_now c) Hloc Hpre).
    destruct (Hu c) as [HcN HcW]; [apply elem_of_app; right; by left|done|].
    pose proof (Inv_step key N W _ _ _ (c_now c) HW HI Hb) as HI'.
    assert (E : (run buckets (pre ++ [c])).2
                = (rateLimit (run buckets pre).2 key N W (c_now c)).2).
    { rewrite run_app, run_cons. simpl. by rewrite Hk, HcN, HcW. }
    subst ts. rewrite E. split; [apply (inv_size _ _ _ _ _ _ HI')|].
    intros t Ht. rewrite (inv_bucket _ _ _ _ _ _ HI') in Ht.
    apply list_elem_of_filter in Ht as [Hrec Hin].
    pose proof (inv_past _ _ _ _ _ _ HI') as Hp.
    rewrite Forall_forall in Hp. specialize (Hp t Hin).
    unfold recent in Hrec. simpl in Hp. lia.
Qed.

Lemma rateLimit_sliding_window_witness :
  let calls := mkCall "chat:unknown" 3 1000 <$> [0; 100; 200; 300; 1001] in
  (∀ a, Z.of_nat (length (filter (λ t, a ≤ t < a + 1000)
                           (allowed_times "chat:unknown" (run ∅ calls).1))) ≤ 3)
  ∧ (∀ pre c post, calls = pre ++ c :: post → c_key c = "chat:unknown" →
       let ts := bucket_timestamps (run ∅ (pre ++ [c])).2 "chat:unknown" in
       Z.of_nat (length ts) ≤ 3 ∧ ∀ t, t ∈ ts → 0 ≤ c_now c - t < 1000).
Proof.
  apply (rateLimit_sliding_window ∅ "chat:unknown" 3 1000).
  - lia.
  - lia.
  - reflexivity.
  - intros c Hc _. simpl in Hc.
    repeat (apply elem_of_cons in Hc as [->|Hc]; [split; reflexivity|]).
    by apply elem_of_nil in Hc.
  - simpl. repeat constructor; simpl; lia.
Defined.

(** C4.  With limit 3 and window 1000 on a key not seen before, calls at
    times 0, 100, 200, 300 are answered true, true, true, false, and a fifth
    call at 1001 is admitted: the denied call left the bucket as it was, and
    at 1001 the timestamp 0 has left the window. *)
Theorem rateLimit_window_example (buckets : gmap string Bucket) (key : string) :
  buckets !! key = None →
  let calls := mkCall key 3 1000 <$> [0; 100; 200; 300; 1001] in
  (λ p, allowed p.2) <$> (run buckets calls).1 = [true; true; true; false; true]
  ∧ bucket_timestamps (run buckets (take 3 calls)).2 key = [0; 100; 200]
  ∧ bucket_timestamps (run buckets (take 4 calls)).2 key = [0; 100; 200]
  ∧ bucket_timestamps (run buckets calls).2 key = [100; 200; 1001].
Proof.
  intros Hnone. cbn [fmap list_fmap take].
  assert (E : bucket_timestamps buckets key = []).
  { unfold bucket_timestamps. by rewrite Hnone. }
  repeat (rewrite run_cons; cbv zeta).
  cbn [fst snd c_key c_limit c_windowMs c_now run fmap list_fmap].
  repeat (rewrite ?rateLimit_allowed, ?rateLimit_timestamps; cbv zeta).
  rewrite E. repeat split; reflexivity.
Qed.

Lemma rateLimit_window_example_witness :
  let calls := mkCall "chat:10.0.0.1" 3 1000 <$> [0; 100; 200; 300; 1001] in
  (λ p, allowed p.2) <$> (run ∅ calls).1 = [true; true; true; false; true]
  ∧ bucket_timestamps (run ∅ (take 3 calls)).2 "chat:10.0.0.1" = [0; 100; 200]
  ∧ bucket_timestamps (run ∅ (take 4 calls)).2 "chat:10.0.0.1" = [0; 100; 200]
  ∧ bucket_timestamps (run ∅ calls).2 "chat:10.0.0.1" = [100; 200; 1001].
Proof. apply (rateLimit_window_example ∅ "chat:10.0.0.1"). reflexivity. Defined.

(** C3 as stated fails for an interval that includes both of its ends: with
    limit 1 and window 1000, the calls at 0 and at 1000 are both allowed
    (the timestamp 0 is pruned at 1000, where [now - t < windowMs] is
    false), and both lie in the interval from 0 to 1000, of length 1000. *)
Lemma rateLimit_closed_window_counterexample :
  let calls := mkCall "k" 1 1000 <$> [0; 1000] in
  let in_window := filter (λ t, 0 ≤ t ≤ 0 + 1000) (allowed_times "k" (run ∅ calls).1) in
  Sorted (λ c c', c_now c ≤ c_now c') calls
  ∧ (λ p, allowed p.2) <$> (run ∅ calls).1 = [true; true]
  ∧ in_window = [0; 1000]
  ∧ 1 < Z.of_nat (length in_window).
Proof.
  cbv zeta. split; [repeat constructor; simpl; lia|].
  vm_compute. repeat split; congruence.
Qed.

(** Nor does the bound hold when the clock goes backwards: a timestamp that
    is later than the current time is kept, and the ones pruned before it
    are not counted again.  With limit 2 and window 1000, the calls at 0,
    100, 5000 and then 200 are all allowed, three of them within
    [0 <= t < 1000]. *)
Lemma rateLimit_backwards_clock :
  let calls := mkCall "k" 2 1000 <$> [0; 100; 5000; 200] in
  allowed_times "k" (run ∅ calls).1 = [0; 100; 5000; 200]
  ∧ filter (λ t, 0 ≤ t < 0 + 1000) (allowed_times "k" (run ∅ calls).1) = [0; 100; 200].
Proof. vm_compute. done. Qed.

(** *** The caller's address *)

Lemma truthy_string_blank h : blank h → Js.truthy_string h = false.
Proof. by intros [->| ->]. Qed.

Lemma truthy_string_nonempty s : s ≠ "" → Js.truthy_string (Some s) = true.
Proof. intros Hs. simpl. by apply bool_decide_eq_true_2. Qed.

(** C10, amended.  [ipFromHeaders] returns the trimmed first comma-separated
    entry of [x-forwarded-for] when that header is present and not empty;
    otherwise the value of [x-real-ip] when that one is present and not
    empty; otherwise ["unknown"].  Two requests that carry neither header
    (or carry them empty) get the same bucket key for an endpoint, and an
    admission of one is recorded in the bucket the other is checked
    against. *)
Theorem ipFromHeaders_cases (headers : gmap string string) :
  (∀ xff, headers !! "x-forwarded-for" = Some xff → xff ≠ "" →
     ipFromHeaders headers = Js.trim (Js.split_head "," xff))
  ∧ (∀ xr, blank (headers !! "x-forwarded-for") →
       headers !! "x-real-ip" = Some xr → xr ≠ "" →
       ipFromHeaders headers = xr)
  ∧ (blank (headers !! "x-forwarded-for") → blank (headers !! "x-real-ip") →
     ipFromHeaders headers = "unknown"
     ∧ ∀ other endpoint buckets lim win now,
         blank (other !! "x-forwarded-for") → blank (other !! "x-real-ip") →
         endpoint +:+ ipFromHeaders other = endpoint +:+ ipFromHeaders headers
         ∧ (allowed (rateLimit buckets (endpoint +:+ ipFromHeaders headers) lim win now).1 = true →
            now ∈ bucket_timestamps
                    (rateLimit buckets (endpoint +:+ ipFromHeaders headers) lim win now).2
                    (endpoint +:+ ipFromHeaders other))).
Proof.
  assert (Hunk : ∀ h, blank (h !! "x-forwarded-for") → blank (h !! "x-real-ip") →
                      ipFromHeaders h = "unknown").
  { intros h H1 H2. unfold ipFromHeaders.
    by rewrite (truthy_string_blank _ H1), (truthy_string_blank _ H2). }
  split; [|split].
  - intros xff Hx Hne. unfold ipFromHeaders.
    by rewrite Hx, (truthy_string_nonempty _ Hne).
  - intros xr Hb Hr Hne. unfold ipFromHeaders.
    by rewrite (truthy_string_blank _ Hb), Hr, (truthy_string_nonempty _ Hne).
  - intros H1 H2. split; [by apply Hunk|].
    intros other endpoint buckets lim win now Ho1 Ho2.
    rewrite (Hunk _ H1 H2), (Hunk _ Ho1 Ho2). split; [done|].
    intros Ha. rewrite rateLimit_timestamps. cbv zeta. rewrite Ha.
    apply elem_of_app. right. by left.
Qed.

Lemma ipFromHeaders_cases_witness :
  ipFromHeaders {[ "x-forwarded-for" := " 198.51.100.4 , 10.0.0.1" ]} = "198.51.100.4"
  ∧ ipFromHeaders {[ "x-real-ip" := "203.0.113.7" ]} = "203.0.113.7"
  ∧ ipFromHeaders ∅ = "unknown".
Proof.
  split; [|split].
  - apply (proj1 (ipFromHeaders_cases {[ "x-forwarded-for" := " 198.51.100.4 , 10.0.0.1" ]})
             " 198.51.100.4 , 10.0.0.1"); [reflexivity|discriminate].
  - apply (proj1 (proj2 (ipFromHeaders_cases {[ "x-real-ip" := "203.0.113.7" ]}))
             "203.0.113.7"); [by left|reflexivity|discriminate].
  - apply (proj2 (proj2 (ipFromHeaders_cases ∅))); by left.
Defined.

(** C10 as stated fails on a present but empty [x-forwarded-for]: the code
    falls through to [x-real-ip] instead of returning the (empty) first
    entry. *)
Lemma ipFromHeaders_empty_header_counterexample :
  let headers : gmap string string :=
    {[ "x-forwarded-for" := ""; "x-real-ip" := "203.0.113.7" ]} in
  headers !! "x-forwarded-for" = Some ""
  ∧ ipFromHeaders headers = "203.0.113.7"
  ∧ ipFromHeaders headers ≠ Js.trim (Js.split_head "," "").
Proof. vm_compute. repeat split; discriminate. Qed.

(** ** The entries map *)

Section map_facts.
Context {V : Type}.
Implicit Types (m : list (string * V)) (k : string) (v : V).

Lemma JsMap_get_set_eq m k v : JsMap.get (JsMap.set m k v) k = Some v.
Proof.
  induction m as [|[k' x] m IH]; simpl.
  - by rewrite decide_True.
  - destruct (decide (k' = k)) as [->|Hne]; simpl.
    + by rewrite decide_True.
    + by rewrite decide_False.
Qed.

Lemma JsMap_get_set_ne m k k' v : k ≠ k' → JsMap.get (JsMap.set m k v) k' = JsMap.get m k'.
Proof.
  intros Hne. induction m as [|[k0 x] m IH]; simpl.
  - by rewrite decide_False.
  - destruct (decide (k0 = k)) as [->|Hne0]; simpl.
    + by rewrite !decide_False.
    + by rewrite IH.
Qed.

Lemma JsMap_get_None m k : JsMap.get m k = None ↔ k ∉ m.*1.
Proof.
  induction m as [|[k' x] m IH]; simpl.
  - split; [intros _; apply not_elem_of_nil|done].
  - rewrite not_elem_of_cons. destruct (decide (k' = k)) as [->|Hne].
    + split; [done|]. by intros [? _].
    + rewrite IH. split; [by split|by intros [_ ?]].
Qed.

Lemma JsMap_has_true m k : JsMap.has m k = true ↔ is_Some (JsMap.get m k).
Proof. unfold JsMap.has. apply bool_decide_eq_true. Qed.

Lemma JsMap_has_false m k : JsMap.has m k = false ↔ JsMap.get m k = None.
Proof.
  unfold JsMap.has. rewrite bool_decide_eq_false, eq_None_not_Some. done.
Qed.

Lemma JsMap_keys_set_present m k v :
  is_Some (JsMap.get m k) → (JsMap.set m k v).*1 = m.*1.
Proof.
  induction m as [|[k' x] m IH]; simpl.
  - by intros [? ?].
  - destruct (decide (k' = k)) as [->|Hne]; simpl; [done|].
    intros Hs. f_equal. by apply IH.
Qed.

Lemma JsMap_keys_set_absent m k v :
  JsMap.get m k = None → (JsMap.set m k v).*1 = m.*1 ++ [k].
Proof.
  induction m as [|[k' x] m IH]; simpl; [done|].
  destruct (decide (k' = k)) as [->|Hne]; simpl; [done|].
  intros Hs. f_equal. by apply IH.
Qed.

Lemma JsMap_wf_set m k v : JsMap.wf m → JsMap.wf (JsMap.set m k v).
Proof.
  unfold JsMap.wf. intros Hwf.
  destruct (JsMap.get m k) eqn:E.
  - by rewrite JsMap_keys_set_present by (rewrite E; eauto).
  - rewrite JsMap_keys_set_absent by done.
    apply NoDup_app. split; [done|]. split; [|apply NoDup_singleton].
    intros x Hx Hx'. apply list_elem_of_singleton in Hx' as ->.
    by apply JsMap_get_None in E.
Qed.

Lemma JsMap_delete_sublist m k : JsMap.delete m k `sublist_of` m.
Proof.
  induction m as [|[k' x] m IH]; simpl; [done|].
  destruct (decide (k' = k)).
  - by apply sublist_cons.
  - by apply sublist_skip.
Qed.

Lemma JsMap_wf_sublist m m' : m' `sublist_of` m → JsMap.wf m → JsMap.wf m'.
Proof.
  unfold JsMap.wf. intros Hsub Hwf. eapply sublist_NoDup; [exact Hwf|]. by apply fmap_sublist.
Qed.

Lemma JsMap_wf_delete m k : JsMap.wf m → JsMap.wf (JsMap.delete m k).
Proof. apply JsMap_wf_sublist, JsMap_delete_sublist. Qed.

Lemma JsMap_wf_filter (P : string * V → Prop) `{∀ p, Decision (P p)} m :
  JsMap.wf m → JsMap.wf (filter P m).
Proof. apply JsMap_wf_sublist, sublist_filter. Qed.

Lemma JsMap_get_filter (P : string * V → Prop) `{∀ p, Decision (P p)} m k :
  JsMap.wf m →
  JsMap.get (filter P m) k
  = match JsMap.get m k with
    | Some v => if decide (P (k, v)) then Some v else None
    | None => None
    end.
Proof.
  unfold JsMap.wf. induction m as [|[k' x] m IH]; simpl; [done|].
  intros Hwf. apply NoDup_cons in Hwf as [Hk' Hwf].
  rewrite filter_cons. destruct (decide (k' = k)) as [->|Hne].
  - destruct (decide (P (k, x))); simpl.
    + by rewrite decide_True.
    + apply JsMap_get_None. intros Hin. apply Hk'.
      apply list_elem_of_fmap in Hin as [[k0 v0] [-> Hin]].
      apply list_elem_of_filter in Hin as [_ Hin].
      apply list_elem_of_fmap. by exists (k0, v0).
  - destruct (decide (P (k', x))); simpl.
    + rewrite decide_False by done. by apply IH.
    + by apply IH.
Qed.

Lemma JsMap_get_delete_ne m k k' : k ≠ k' → JsMap.get (JsMap.delete m k) k' = JsMap.get m k'.
Proof.
  intros Hne. induction m as [|[k0 x] m IH]; simpl; [done|].
  destruct (decide (k0 = k)) as [->|Hne0]; simpl.
  - by rewrite decide_False.
  - by rewrite IH.
Qed.

Lemma JsMap_get_delete_eq m k : JsMap.wf m → JsMap.get (JsMap.delete m k) k = None.
Proof.
  unfold JsMap.wf. induction m as [|[k0 x] m IH]; simpl; [done|].
  intros Hwf. apply NoDup_cons in Hwf as [Hk0 Hwf].
  destruct (decide (k0 = k)) as [->|Hne0]; simpl.
  - by apply JsMap_get_None.
  - rewrite decide_False by done. by apply IH.
Qed.

End map_facts.

(** ** The TTL cache *)

Section cache_facts.
Context {T : Type}.
Implicit Types (c : MemoryCache T) (key : string) (value : T).

Lemma evictOldest_sublist c now : cache (evictOldest c now) `sublist_of` cache c.
Proof.
  unfold evictOldest. destruct (Js.truthy_string _); simpl; [|done].
  apply JsMap_delete_sublist.
Qed.

Lemma set_lookup c key value ttl now evictNow :
  JsMap.get (cache (set c key value ttl now evictNow)) key
  = Some (mkEntry value now (default (defaultTtl c) ttl) 0).
Proof. unfold set. simpl. apply JsMap_get_set_eq. Qed.

Lemma set_wf c key value ttl now evictNow :
  JsMap.wf (cache c) → JsMap.wf (cache (set c key value ttl now evictNow)).
Proof.
  intros Hwf. unfold set. simpl. apply JsMap_wf_set.
  destruct (_ && _); [|done].
  eapply JsMap_wf_sublist; [apply evictOldest_sublist|done].
Qed.

Lemma cleanup_wf c now : JsMap.wf (cache c) → JsMap.wf (cache (cleanup c now)).
Proof. intros Hwf. unfold cleanup. simpl. by apply JsMap_wf_filter. Qed.

Lemma cleanup_lookup c now key :
  JsMap.wf (cache c) →
  JsMap.get (cache (cleanup c now)) key
  = match JsMap.get (cache c) key with
    | Some entry => if decide (expired entry now) then None else Some entry
    | None => None
    end.
Proof.
  intros Hwf. unfold cleanup. simpl. rewrite JsMap_get_filter by done.
  destruct (JsMap.get (cache c) key) as [entry|]; [|done]. simpl.
  destruct (decide (expired entry now)).
  - by rewrite decide_False by tauto.
  - by rewrite decide_True.
Qed.

Lemma get_result c key now :
  (get c key now).1
  = match JsMap.get (cache c) key with
    | Some entry => if decide (expired entry now) then None else Some (data entry)
    | None => None
    end.
Proof.
  unfold get. destruct (JsMap.get (cache c) key) as [entry|]; [|done].
  by destruct (decide (expired entry now)).
Qed.

(** What the entry stored under [key] at [createdAt] can have become by
    [now]: still there, up to its hit count, or gone and expired. *)
Definition kept_or_expired key value (createdAt entryTtl now : Z) c : Prop :=
  JsMap.wf (cache c)
  ∧ ((∃ h, JsMap.get (cache c) key = Some (mkEntry value createdAt entryTtl h))
     ∨ (JsMap.get (cache c) key = None ∧ now - createdAt > entryTtl)).

Lemma exec_wf c op : JsMap.wf (cache c) → JsMap.wf (cache (exec c op)).
Proof.
  intros Hwf. destruct op as [k v ttl t te|k t|k t|k| |t|]; simpl.
  - by apply set_wf.
  - unfold get. destruct (JsMap.get (cache c) k) as [e|]; [|done].
    destruct (decide (expired e t)); simpl; [by apply JsMap_wf_delete|by apply JsMap_wf_set].
  - unfold has. destruct (JsMap.get (cache c) k) as [e|]; [|done].
    destruct (decide (expired e t)); simpl; [by apply JsMap_wf_delete|done].
  - by apply JsMap_wf_delete.
  - apply NoDup_nil_2.
  - by apply cleanup_wf.
  - apply NoDup_nil_2.
Qed.

Lemma passive_step key value createdAt entryTtl now c op :
  passive now op →
  kept_or_expired key value createdAt entryTtl now c →
  kept_or_expired key value createdAt entryTtl now (exec c op).
Proof.
  intros Hop [Hwf Hst]. split; [by apply exec_wf|].
  destruct op as [k v ttl t te|k t|k t|k| |t|]; simpl in Hop; try done; cbn [exec].
  - (* get *)
    unfold get. destruct (decide (k = key)) as [->|Hne].
    + destruct Hst as [[h Hget]|[Hget Hexp]]; rewrite Hget; simpl; [|by right].
      destruct (decide (expired _ t)) as [Hx|Hx]; simpl.
      * right. split; [by apply JsMap_get_delete_eq|].
        unfold expired in Hx. simpl in Hx. lia.
      * left. exists (h + 1). by rewrite JsMap_get_set_eq.
    + destruct (JsMap.get (cache c) k) as [e|]; [|done].
      destruct (decide (expired e t)); simpl.
      * by rewrite JsMap_get_delete_ne.
      * by rewrite JsMap_get_set_ne.
  - (* has *)
    unfold has. destruct (decide (k = key)) as [->|Hne].
    + destruct Hst as [[h Hget]|[Hget Hexp]]; rewrite Hget; simpl; [|by right].
      destruct (decide (expired _ t)) as [Hx|Hx]; simpl.
      * right. split; [by apply JsMap_get_delete_eq|].
        unfold expired in Hx. simpl in Hx. lia.
      * left. by exists h.
    + destruct (JsMap.get (cache c) k) as [e|]; [|done].
      destruct (decide (expired e t)); simpl; [|done].
      by rewrite JsMap_get_delete_ne.
  - (* cleanup *)
    rewrite cleanup_lookup by done.
    destruct Hst as [[h Hget]|[Hget Hexp]]; rewrite Hget; [|by right].
    destruct (decide (expired _ t)) as [Hx|Hx]; [|by eauto].
    right. split; [done|]. unfold expired in Hx. simpl in Hx. lia.
Qed.

Lemma passive_run key value createdAt entryTtl now (ops : list (Op T)) : ∀ c,
  Forall (passive now) ops →
  kept_or_expired key value createdAt entryTtl now c →
  kept_or_expired key value createdAt entryTtl now (exec_all c ops).
Proof.
  induction ops as [|op ops IH]; intros c Hops Hst; [done|].
  apply Forall_cons in Hops as [Hop Hops]. simpl.
  apply IH; [done|]. by apply passive_step.
Qed.

End cache_facts.

(** C2, amended.  An entry stored by [set] at [createdAt] with time-to-live
    [entryTtl] (the [ttl] argument, or [defaultTtl] when it is omitted) is
    returned by a [get] of its key at time [now] whenever
    [now - createdAt <= entryTtl], and the [get] returns absent whenever
    [now - createdAt > entryTtl]; this holds whatever sweeps and reads, none
    later than [now], came in between. *)
Theorem get_after_set_ttl {T} (c : MemoryCache T) (key : string) (value : T)
    (ttl : option Z) (createdAt evictNow : Z) (between : list (Op T)) (now : Z) :
  JsMap.wf (cache c) →
  Forall (passive now) between →
  let entryTtl := default (defaultTtl c) ttl in
  let c' := exec_all (set c key value ttl createdAt evictNow) between in
  (now - createdAt ≤ entryTtl → (get c' key now).1 = Some value)
  ∧ (now - createdAt > entryTtl → (get c' key now).1 = None).
Proof.
  intros Hwf Hops entryTtl c'.
  destruct (passive_run key value createdAt entryTtl now between
              (set c key value ttl createdAt evictNow) Hops) as [_ Hst].
  { split; [by apply set_wf|]. left. exists 0. apply set_lookup. }
  fold c' in Hst. rewrite get_result.
  destruct Hst as [[h Hget]|[Hget Hexp]]; rewrite Hget; unfold expired; simpl.
  - split; intros Hage.
    + by rewrite decide_False by lia.
    + by rewrite decide_True by lia.
  - split; intros Hage; [lia|done].
Qed.

Lemma get_after_set_ttl_witness :
  let c := exec_all (set (new 500 300000) "query:abc123:6:0:0:3" "42" None 1000 1000)
             [OCleanup 2000; OGet "query:abc123:6:0:0:3" 2500; OCleanup 301000] in
  (301000 - 1000 ≤ 300000 → (get c "query:abc123:6:0:0:3" 301000).1 = Some "42")
  ∧ (301000 - 1000 > 300000 → (get c "query:abc123:6:0:0:3" 301000).1 = None).
Proof.
  apply (get_after_set_ttl (new 500 300000) "query:abc123:6:0:0:3" "42" None 1000 1000
           [OCleanup 2000; OGet "query:abc123:6:0:0:3" 2500; OCleanup 301000] 301000).
  - apply NoDup_nil_2.
  - repeat constructor; simpl; lia.
Defined.

(** C2 as stated fails on the boundary: at [now - createdAt = ttl] the test
    [now - timestamp > ttl] is false and the value is still returned. *)
Lemma get_at_ttl_boundary_counterexample :
  let c := set (new 500 300000) "query:abc123:6:0:0:3" "42" (Some 300000) 1000 1000 in
  301000 - 1000 >= 300000
  ∧ (get c "query:abc123:6:0:0:3" 301000).1 = Some "42".
Proof. split; [lia|reflexivity]. Qed.

(** *** Hit and miss counters *)

Section accounting.
Context {T : Type}.
Implicit Types (c : MemoryCache T) (op : Op T).

(** The effect of one operation on the number of counted requests. *)
Definition count_step (n : Z) op : Z :=
  match op with
  | OGet _ _ => n + 1
  | OClear | ODestroy => 0
  | _ => n
  end.

Lemma evictOldest_stats c now :
  stats_hits (evictOldest c now) = stats_hits c
  ∧ stats_misses (evictOldest c now) = stats_misses c.
Proof. unfold evictOldest. by destruct (Js.truthy_string _). Qed.

Lemma set_stats c key value ttl now evictNow :
  stats_hits (set c key value ttl now evictNow) = stats_hits c
  ∧ stats_misses (set c key value ttl now evictNow) = stats_misses c.
Proof.
  unfold set. simpl. destruct (_ && _); [apply evictOldest_stats|done].
Qed.

Lemma has_stats c key now :
  stats_hits (has c key now).2 = stats_hits c
  ∧ stats_misses (has c key now).2 = stats_misses c.
Proof.
  unfold has. destruct (JsMap.get (cache c) key) as [e|]; [|done].
  by destruct (decide (expired e now)).
Qed.

Lemma get_stats c key now :
  (stats_hits (get c key now).2 = stats_hits c + 1
   ∧ stats_misses (get c key now).2 = stats_misses c)
  ∨ (stats_hits (get c key now).2 = stats_hits c
     ∧ stats_misses (get c key now).2 = stats_misses c + 1).
Proof.
  unfold get. destruct (JsMap.get (cache c) key) as [e|]; [|by right].
  destruct (decide (expired e now)); [by right|by left].
Qed.

Lemma exec_stats c op n :
  0 ≤ stats_hits c → 0 ≤ stats_misses c →
  stats_hits c + stats_misses c = n →
  0 ≤ stats_hits (exec c op) ∧ 0 ≤ stats_misses (exec c op)
  ∧ stats_hits (exec c op) + stats_misses (exec c op) = count_step n op.
Proof.
  intros Hh Hm Hn. destruct op as [k v ttl t te|k t|k t|k| |t|]; cbn [exec count_step].
  - destruct (set_stats c k v ttl t te) as [-> ->]. done.
  - destruct (get_stats c k t) as [[-> ->]|[-> ->]]; lia.
  - destruct (has_stats c k t) as [-> ->]. done.
  - done.
  - done.
  - done.
  - done.
Qed.

Lemma exec_all_stats (ops : list (Op T)) : ∀ c n,
  0 ≤ stats_hits c → 0 ≤ stats_misses c →
  stats_hits c + stats_misses c = n →
  let c' := exec_all c ops in
  0 ≤ stats_hits c' ∧ 0 ≤ stats_misses c'
  ∧ stats_hits c' + stats_misses c' = foldl count_step n ops.
Proof.
  induction ops as [|op ops IH]; intros c n Hh Hm Hn; simpl; [done|].
  destruct (exec_stats c op n Hh Hm Hn) as (Hh' & Hm' & Hn').
  by apply IH.
Qed.

End accounting.

(** C5.  After any sequence of operations on a fresh cache, the [totalHits]
    and [totalMisses] of [getStats] add up to the number of [get] calls
    since the last [clear]; [hitRate] is [totalHits] divided by that sum, and
    0 when the sum is 0; and [set], [has] and [delete] leave both counters as
    they were. *)
Theorem hit_miss_accounting {T} (maxSize defaultTtl : Z) (ops : list (Op T)) :
  let stats := getStats (exec_all (new maxSize defaultTtl) ops) in
  totalHits stats + totalMisses stats = gets_since_clear ops
  ∧ hitRate stats
    = (if decide (totalHits stats + totalMisses stats = 0) then 0%Q
       else Qdiv (inject_Z (totalHits stats))
                 (inject_Z (totalHits stats + totalMisses stats)))
  ∧ ∀ (c : MemoryCache T) key value ttl now evictNow,
      let same c' :=
        totalHits (getStats c') = totalHits (getStats c)
        ∧ totalMisses (getStats c') = totalMisses (getStats c) in
      same (set c key value ttl now evictNow)
      ∧ same (has c key now).2
      ∧ same (delete c key).2.
Proof.
  destruct (exec_all_stats ops (new maxSize defaultTtl) 0) as (Hh & Hm & Hsum);
    [done..|].
  cbv zeta. split; [exact Hsum|]. split.
  - unfold getStats. simpl.
    destruct (decide (0 < _)), (decide (_ = 0)); try done; lia.
  - intros c key value ttl now evictNow. simpl.
    split; [apply (set_stats c key value ttl now evictNow)|].
    split; [apply (has_stats c key now)|done].
Qed.

(** *** Capacity *)

(** C1 fails on the code.  A cache of capacity 1 receives [set("a")] and
    then [set("b")] within one millisecond: the scan of [evictOldest] starts
    from [Date.now()] and only accepts a strictly smaller timestamp, so it
    finds no key, nothing is evicted, and the cache ends with two entries. *)
Theorem set_same_millisecond_exceeds_maxSize {T} (v1 v2 : T) :
  let c1 := set (new 1 300000) "a" v1 None 5 5 in
  let c2 := set c1 "b" v2 None 5 5 in
  JsMap.size (cache c1) = maxSize c1
  ∧ JsMap.has (cache c1) "b" = false
  ∧ (cache c2).*1 = ["a"; "b"]
  ∧ JsMap.size (cache c2) = 2
  ∧ maxSize c2 = 1.
Proof. repeat split. Qed.

(** The test [if (oldestKey)] also skips the eviction when the oldest key is
    the empty string. *)
Lemma set_empty_key_exceeds_maxSize {T} (v1 v2 : T) :
  let c1 := set (new 1 300000) "" v1 None 5 5 in
  let c2 := set c1 "b" v2 None 9 9 in
  (cache c2).*1 = [""; "b"]
  ∧ JsMap.size (cache c2) = 2
  ∧ maxSize c2 = 1.
Proof. repeat split. Qed.

Section capacity.
Context {T : Type}.
Implicit Types (c : MemoryCache T) (m : list (string * CacheEntry T)).

Lemma JsMap_length_set {V} (m : list (string * V)) k v :
  length (JsMap.set m k v) = if JsMap.has m k then length m else S (length m).
Proof.
  rewrite <-(length_fmap fst (JsMap.set m k v)), <-(length_fmap fst m).
  destruct (JsMap.has m k) eqn:E.
  - apply JsMap_has_true in E. by rewrite JsMap_keys_set_present.
  - apply JsMap_has_false in E. rewrite JsMap_keys_set_absent by done.
    rewrite length_app. simpl. lia.
Qed.

Lemma JsMap_length_delete {V} (m : list (string * V)) k :
  is_Some (JsMap.get m k) → S (length (JsMap.delete m k)) = length m.
Proof.
  induction m as [|[k' x] m IH]; simpl.
  - by intros [? ?].
  - destruct (decide (k' = k)); simpl; [done|].
    intros Hs. by rewrite IH.
Qed.

Lemma JsMap_get_is_Some {V} (m : list (string * V)) k v :
  (k, v) ∈ m → is_Some (JsMap.get m k).
Proof.
  intros Hin. destruct (JsMap.get m k) eqn:E; [eauto|].
  apply JsMap_get_None in E. destruct E.
  apply list_elem_of_fmap. by exists (k, v).
Qed.

(** The scan of [evictOldest] from an accumulator [acc]: it either keeps
    [acc] because no entry is strictly older, or ends on an entry of the
    map that is strictly older than [acc] and as old as any entry. *)
Lemma oldest_scan_from m : ∀ acc : option string * Z,
  let r := foldl (λ acc p, if decide (timestamp p.2 < acc.2)
                           then (Some p.1, timestamp p.2) else acc) acc m in
  (r = acc ∧ ∀ q, q ∈ m → acc.2 ≤ timestamp q.2)
  ∨ (∃ p, p ∈ m ∧ r = (Some p.1, timestamp p.2) ∧ timestamp p.2 < acc.2
          ∧ ∀ q, q ∈ m → timestamp p.2 ≤ timestamp q.2).
Proof.
  induction m as [|p m IH]; intros acc; simpl.
  - left. split; [done|]. intros q Hq. by apply elem_of_nil in Hq.
  - destruct (decide (timestamp p.2 < acc.2)) as [Hlt|Hge].
    + right. destruct (IH (Some p.1, timestamp p.2)) as [[-> Hall]|(p' & Hin & -> & Hlt' & Hall)];
        simpl in *.
      * exists p. split; [by left|]. split; [done|]. split; [done|].
        intros q Hq. apply elem_of_cons in Hq as [->|Hq]; [lia|by apply Hall].
      * exists p'. split; [by right|]. split; [done|]. split; [lia|].
        intros q Hq. apply elem_of_cons in Hq as [->|Hq]; [lia|by apply Hall].
    + destruct (IH acc) as [[-> Hall]|(p' & Hin & -> & Hlt' & Hall)].
      * left. split; [done|].
        intros q Hq. apply elem_of_cons in Hq as [->|Hq]; [lia|by apply Hall].
      * right. exists p'. split; [by right|]. split; [done|]. split; [done|].
        intros q Hq. apply elem_of_cons in Hq as [->|Hq]; [lia|by apply Hall].
Qed.

(** Entries that [evictOldest] can see and delete at [evictNow]: stored
    strictly earlier, under a key that is not the empty string. *)
Definition evictable (evictNow : Z) (p : string * CacheEntry T) : Prop :=
  timestamp p.2 < evictNow ∧ p.1 ≠ "".

Lemma evictOldest_evicts c evictNow :
  cache c ≠ [] →
  Forall (evictable evictNow) (cache c) →
  ∃ p, p ∈ cache c
    ∧ (∀ q, q ∈ cache c → timestamp p.2 ≤ timestamp q.2)
    ∧ cache (evictOldest c evictNow) = JsMap.delete (cache c) p.1.
Proof.
  intros Hne Hall. rewrite Forall_forall in Hall.
  unfold evictOldest, oldest_scan.
  destruct (oldest_scan_from (cache c) (None, evictNow))
    as [[_ Hge]|(p & Hin & -> & _ & Hmin)]; simpl in *.
  - destruct (cache c) as [|q m]; [done|].
    destruct (Hall q) as [Hlt _]; [by left|].
    assert (evictNow ≤ timestamp q.2) by (apply Hge; by left). lia.
  - exists p. split; [done|]. split; [done|].
    destruct (Hall p Hin) as [_ Hk].
    by rewrite bool_decide_eq_true_2.
Qed.

(** With a clock that has advanced past every stored entry, [set] keeps the
    cache within [maxSize], and at capacity a new key replaces exactly one
    entry, one of smallest timestamp. *)
Lemma set_within_capacity c key value ttl now evictNow :
  0 < maxSize c →
  JsMap.size (cache c) ≤ maxSize c →
  Forall (evictable evictNow) (cache c) →
  JsMap.size (cache (set c key value ttl now evictNow)) ≤ maxSize c
  ∧ (JsMap.size (cache c) = maxSize c → JsMap.has (cache c) key = false →
     ∃ p, p ∈ cache c
       ∧ (∀ q, q ∈ cache c → timestamp p.2 ≤ timestamp q.2)
       ∧ cache (set c key value ttl now evictNow)
         = JsMap.set (JsMap.delete (cache c) p.1) key
             (mkEntry value now (default (defaultTtl c) ttl) 0)).
Proof.
  intros Hmax Hsize Hall. unfold JsMap.size in *.
  assert (Hfull : Z.of_nat (length (cache c)) = maxSize c → JsMap.has (cache c) key = false →
     ∃ p, p ∈ cache c
       ∧ (∀ q, q ∈ cache c → timestamp p.2 ≤ timestamp q.2)
       ∧ cache (set c key value ttl now evictNow)
         = JsMap.set (JsMap.delete (cache c) p.1) key
             (mkEntry value now (default (defaultTtl c) ttl) 0)).
  { intros Hfull Hnew. unfold set. cbn [cache with_cache].
    rewrite Hnew, bool_decide_eq_true_2 by (unfold JsMap.size; lia). cbn [andb negb].
    destruct (evictOldest_evicts c evictNow) as (p & Hin & Hmin & E); [|done|].
    { intros E. rewrite E in Hfull. simpl in Hfull. lia. }
    exists p. by rewrite E. }
  split; [|done].
  destruct (JsMap.has (cache c) key) eqn:Hhas.
  - unfold set. cbn [cache with_cache]. rewrite Hhas, andb_false_r.
    rewrite JsMap_length_set, Hhas. done.
  - destruct (decide (Z.of_nat (length (cache c)) = maxSize c)) as [Heq|Hlt].
    + destruct (Hfull Heq eq_refl) as (p & Hin & _ & ->).
      rewrite JsMap_length_set.
      assert (Hd : S (length (JsMap.delete (cache c) p.1)) = length (cache c)).
      { apply JsMap_length_delete. destruct p. by eapply JsMap_get_is_Some. }
      destruct (JsMap.has (JsMap.delete (cache c) p.1) key); lia.
    + unfold set. cbn [cache with_cache].
      rewrite bool_decide_eq_false_2 by (unfold JsMap.size; lia). cbn [andb].
      rewrite JsMap_length_set, Hhas. lia.
Qed.

End capacity.

(** ** Cache keys

    The parts of a query key are joined by colons and contain none
    themselves, so a key determines its parts. *)
Fixpoint colon_free (s : string) : Prop :=
  match s with
  | String c r => c ≠ ":"%char ∧ colon_free r
  | EmptyString => True
  end.

Lemma app_String c r x : String c r +:+ x = String c (r +:+ x).
Proof. reflexivity. Qed.

Lemma app_Empty x : "" +:+ x = x.
Proof. reflexivity. Qed.

Lemma colon_free_app s1 s2 : colon_free s1 → colon_free s2 → colon_free (s1 +:+ s2).
Proof.
  intros H1 H2. induction s1 as [|c r IH]; [done|].
  rewrite app_String. destruct H1 as [Hc Hr]. split; [done|by apply IH].
Qed.

Lemma split_colon s1 : ∀ s2 r1 r2,
  colon_free s1 → colon_free s2 →
  s1 +:+ ":" +:+ r1 = s2 +:+ ":" +:+ r2 → s1 = s2 ∧ r1 = r2.
Proof.
  induction s1 as [|c s1 IH]; intros [|c' s2] r1 r2 H1 H2 E;
    rewrite ?app_String, ?app_Empty in E.
  - by injection E.
  - injection E as E1 E2. destruct H2 as [Hc _]. by destruct Hc.
  - injection E as E1 E2. destruct H1 as [Hc _]. by destruct Hc.
  - injection E as E1 E2. destruct H1 as [_ H1], H2 as [_ H2].
    destruct (IH _ _ _ H1 H2 E2) as [-> ->]. by rewrite E1.
Qed.

Lemma pretty_N_char_colon_free d : pretty_N_char d ≠ ":"%char.
Proof. unfold pretty_N_char. by repeat case_match. Qed.

Lemma pretty_N_go_colon_free x : ∀ s, colon_free s → colon_free (pretty_N_go x s).
Proof.
  induction (N.lt_wf_0 x) as [x _ IH]; intros s Hs.
  destruct (decide (x = 0)%N) as [->|Hx]; [by rewrite pretty_N_go_0|].
  rewrite pretty_N_go_step by lia.
  apply IH; [apply N.div_lt; lia|].
  split; [apply pretty_N_char_colon_free|done].
Qed.

Lemma pretty_Z_colon_free (n : Z) : colon_free (pretty n).
Proof.
  assert (HN : ∀ x : N, colon_free (pretty x)).
  { intros x. unfold pretty, pretty_N. case_decide; [by split|].
    by apply pretty_N_go_colon_free. }
  destruct n as [|p|p]; unfold pretty, pretty_Z.
  - by split.
  - apply (HN (N.pos p)).
  - apply colon_free_app; [by split|apply (HN (N.pos p))].
Qed.

Lemma digit_char_colon_free d : (d < 36)%N → Js.digit_char d ≠ ":"%char.
Proof.
  intros Hd E. unfold Js.digit_char in E.
  apply (f_equal N_of_ascii) in E.
  case_decide; rewrite N_ascii_embedding in E by lia; simpl in E; lia.
Qed.

Lemma digits_go_colon_free fuel : ∀ n acc,
  colon_free acc → colon_free (Js.digits_go fuel 36 n acc).
Proof.
  induction fuel as [|fuel IH]; intros n acc Hacc; simpl; [done|].
  case_decide; [done|].
  apply IH. split; [|done].
  apply digit_char_colon_free. apply N.mod_lt. lia.
Qed.

Lemma simpleHash_colon_free q : colon_free (simpleHash q).
Proof.
  unfold simpleHash, Js.toString36. case_decide; [by split|].
  by apply digits_go_colon_free.
Qed.

Lemma flag_colon_free b : colon_free (flag b).
Proof. unfold flag. destruct (Js.truthy_bool b); by split. Qed.

Lemma flag_inj b b' : flag b = flag b' → Js.truthy_bool b = Js.truthy_bool b'.
Proof. unfold flag. by destruct (Js.truthy_bool b), (Js.truthy_bool b'). Qed.

Lemma generateQueryCacheKey_unfold q k r l s :
  generateQueryCacheKey q k r l s
  = "query:" +:+ (simpleHash q +:+ ":" +:+ (pretty k +:+ ":" +:+ (flag r +:+ ":" +:+
      (flag l +:+ ":" +:+ pretty (Js.number_or s 3))))).
Proof. reflexivity. Qed.

(** C6, amended.  Two calls of [generateQueryCacheKey] give the same key
    exactly when the questions have the same [simpleHash], the [topK] are
    equal, each rerank flag has the same truth value (absent counting as
    false) and the window sizes are equal after the default 3 has replaced
    an absent or zero one.  So equal arguments give equal keys, and a change
    of [topK], of a flag's truth value or of the effective window size
    changes the key; a change of question changes it only if the hash
    changes. *)
Theorem generateQueryCacheKey_eq_iff q k r l s q' k' r' l' s' :
  generateQueryCacheKey q k r l s = generateQueryCacheKey q' k' r' l' s'
  ↔ simpleHash q = simpleHash q' ∧ k = k'
    ∧ Js.truthy_bool r = Js.truthy_bool r' ∧ Js.truthy_bool l = Js.truthy_bool l'
    ∧ Js.number_or s 3 = Js.number_or s' 3.
Proof.
  rewrite !generateQueryCacheKey_unfold. split.
  - intros E. apply (inj (String.app "query:")) in E.
    apply split_colon in E as [Eh E]; [|apply simpleHash_colon_free..].
    apply split_colon in E as [Ek E]; [|apply pretty_Z_colon_free..].
    apply split_colon in E as [Er E]; [|apply flag_colon_free..].
    apply split_colon in E as [El E]; [|apply flag_colon_free..].
    repeat split.
    + done.
    + by apply (inj pretty).
    + by apply flag_inj.
    + by apply flag_inj.
    + by apply (inj pretty).
  - intros (Eh & -> & Er & El & Es). unfold flag. by rewrite Eh, Er, El, Es.
Qed.

(** C6 as stated fails for the question: the 32-bit hash collides on
    distinct questions, here two that differ in their first two letters. *)
Lemma generateQueryCacheKey_collision_counterexample :
  Js.code_units "Aa rates" ≠ Js.code_units "BB rates"
  ∧ generateQueryCacheKey (Js.code_units "Aa rates") 5 None None None
    = "query:oabdql:5:0:0:3"
  ∧ generateQueryCacheKey (Js.code_units "BB rates") 5 None None None
    = "query:oabdql:5:0:0:3".
Proof. split; [discriminate|split; reflexivity]. Qed.

(** C7.  Omitting [sentenceWindowSize] gives the same key as passing 3. *)
Theorem generateQueryCacheKey_default_window (question : list Z) (topK : Z)
    (enableRerank enableLLMRerank : option bool) :
  generateQueryCacheKey question topK enableRerank enableLLMRerank None
  = generateQueryCacheKey question topK enableRerank enableLLMRerank (Some 3).
Proof. reflexivity. Qed.

(** C9.  An omitted rerank flag and an explicit [false] are both written as
    ["0"]: omitting either flag, or both, gives the key of passing [false],
    and the chat route derives the same cache key for the two requests. *)
Theorem generateQueryCacheKey_absent_flag_is_false (question : list Z) (topK : Z)
    (other : option bool) (sentenceWindowSize : option Z) :
  flag None = "0" ∧ flag (Some false) = "0"
  ∧ generateQueryCacheKey question topK None other sentenceWindowSize
    = generateQueryCacheKey question topK (Some false) other sentenceWindowSize
  ∧ generateQueryCacheKey question topK other None sentenceWindowSize
    = generateQueryCacheKey question topK other (Some false) sentenceWindowSize
  ∧ generateQueryCacheKey question topK None None sentenceWindowSize
    = generateQueryCacheKey question topK (Some false) (Some false) sentenceWindowSize
  ∧ ChatRoute.cacheKey_of (ChatRoute.mkBody question (Some topK) None None sentenceWindowSize)
    = ChatRoute.cacheKey_of
        (ChatRoute.mkBody question (Some topK) (Some false) (Some false) sentenceWindowSize).
Proof. repeat split. Qed.

(** ** The chat route and the response cache *)

Import ChatRoute.

Lemma get_miss_cache {T} (c : MemoryCache T) key now :
  (get c key now).1 = None →
  cache (get c key now).2 = cache c
  ∨ ∃ entry, JsMap.get (cache c) key = Some entry ∧ expired entry now
             ∧ cache (get c key now).2 = JsMap.delete (cache c) key.
Proof.
  unfold get. destruct (JsMap.get (cache c) key) as [e|]; [|by left].
  destruct (decide (expired e now)); [|done].
  intros _. right. by exists e.
Qed.

(** C8, amended.  When the backend call gives no ok response, the chat
    handler stores nothing: the response cache is left as it was or as the
    handler's one lookup left it.  A reply with status 200 is then a replay
    of an entry found by that lookup; with any other reply the entries are
    those from before the request, except that the lookup has removed the
    entry of the request's key if it had expired.  The [withResponseCache]
    wrapper, on a miss, stores the inner handler's response exactly when
    [response.ok] holds and otherwise passes it through. *)
Theorem chat_error_never_cached (srv : Server) (req : Request) (clk : Clock)
    (upstream : Upstream) :
  upstream_ok upstream = false →
  let out := POST srv req clk upstream in
  let rc := responseCache srv in
  (responseCache out.2 = rc
   ∨ ∃ body, req_json req ≫= bodySchema_parse = Some body
       ∧ responseCache out.2 = (get rc (cacheKey_of body) (t_get clk)).2)
  ∧ (status out.1 = 200 →
       ∃ body v, req_json req ≫= bodySchema_parse = Some body
         ∧ (get rc (cacheKey_of body) (t_get clk)).1 = Some v
         ∧ payload out.1 = DataPayload v)
  ∧ (status out.1 ≠ 200 →
       cache (responseCache out.2) = cache rc
       ∨ ∃ body entry, req_json req ≫= bodySchema_parse = Some body
           ∧ JsMap.get (cache rc) (cacheKey_of body) = Some entry
           ∧ expired entry (t_get clk)
           ∧ cache (responseCache out.2) = JsMap.delete (cache rc) (cacheKey_of body))
  ∧ (∀ (Req : Type) (keyGenerator : Req → string) ttl handler (r : Req)
       (rc0 : MemoryCache CachedValue) getNow setNow evictNow,
       let looked := get rc0 (keyGenerator r) getNow in
       let inner := handler r looked.2 in
       looked.1 = None →
       withResponseCache keyGenerator ttl handler r rc0 getNow setNow evictNow
       = if ok inner.1
         then (Some inner.1,
               set inner.2 (keyGenerator r)
                 (HttpData (r_body inner.1) (r_status inner.1) (r_statusText inner.1)
                    (Object_fromEntries (r_headers inner.1))) ttl setNow evictNow)
         else (Some inner.1, inner.2)).
Proof.
  intros Hfail out rc. subst out rc. unfold POST.
  destruct (rateLimit _ _ _ _ _) as [rl bs]. 
  split; [|split; [|split]].
  - destruct (allowed rl); simpl; [|by left].
    destruct (req_json req ≫= bodySchema_parse) as [body|] eqn:Hb; [|by left].
    right. exists body. split; [done|].
    destruct (get _ _ _) as [[v|] rc1]; simpl; [done|].
    destruct upstream as [|[] st [| |a s]]; simpl in *; done.
  - destruct (allowed rl); simpl; [|done].
    destruct (req_json req ≫= bodySchema_parse) as [body|] eqn:Hb; [|done].
    destruct (get _ _ _) as [[v|] rc1] eqn:Hg; simpl.
    + intros _. exists body, v. by rewrite Hg.
    + destruct upstream as [|[] st [| |a s]]; simpl in *; done.
  - destruct (allowed rl); simpl; [|by left].
    destruct (req_json req ≫= bodySchema_parse) as [body|] eqn:Hb; [|by left].
    destruct (get _ _ _) as [[v|] rc1] eqn:Hg; simpl; [done|].
    pose proof (get_miss_cache (responseCache srv) (cacheKey_of body) (t_get clk)) as Hm.
    rewrite Hg in Hm. specialize (Hm eq_refl). simpl in Hm.
    assert (Hcases : cache rc1 = cache (responseCache srv)
              ∨ ∃ body0 entry, Some body = Some body0
                  ∧ JsMap.get (cache (responseCache srv)) (cacheKey_of body0) = Some entry
                  ∧ expired entry (t_get clk)
                  ∧ cache rc1 = JsMap.delete (cache (responseCache srv)) (cacheKey_of body0)).
    { destruct Hm as [E|(entry & Hget & Hexp & E)]; [by left|].
      right. by exists body, entry. }
    destruct upstream as [|[] st [| |a s]]; simpl in *; try done.
  - cbv zeta. intros Req keyGenerator ttl handler r rc0 getNow setNow evictNow Hmiss.
    unfold withResponseCache.
    destruct (get rc0 (keyGenerator r) getNow) as [cached rc1]. simpl in *. subst cached.
    destruct (handler r rc1) as [response rc2]. simpl. by destruct (ok response).
Qed.

Lemma chat_error_never_cached_witness :
  let srv := mkServer ∅ (new 500 300000) in
  let out := POST srv example_request (mkClock 10 11 12 12) example_failure in
  upstream_ok example_failure = false
  ∧ (status out.1 = 200 →
       ∃ body v, req_json example_request ≫= bodySchema_parse = Some body
         ∧ (get (responseCache srv) (cacheKey_of body) 11).1 = Some v
         ∧ payload out.1 = DataPayload v).
Proof.
  split; [reflexivity|].
  apply (proj1 (proj2 (chat_error_never_cached (mkServer ∅ (new 500 300000))
                         example_request (mkClock 10 11 12 12) example_failure eq_refl))).
Defined.

(** C8 as stated fails where it says the cache contents are exactly as
    before: an entry of the request's key that has expired is removed by the
    handler's lookup, before the backend is called and fails. *)
Lemma chat_error_expired_entry_counterexample :
  let stored :=
    set (new 500 300000) (cacheKey_of example_body) (ChatData (Some "42") [])
      (Some 300000) 0 0 in
  let srv := mkServer ∅ stored in
  let out := POST srv example_request (mkClock 300001 300001 300001 300001) example_failure in
  upstream_ok example_failure = false
  ∧ status out.1 = 502
  ∧ (cache (responseCache srv)).*1 = ["query:oabdql:5:0:0:3"]
  ∧ cache (responseCache out.2) = []
  ∧ cache (responseCache out.2) ≠ cache (responseCache srv).
Proof. vm_compute. repeat split; discriminate. Qed.

(** * Further properties

    Properties of the same modules beyond the statements above, and of the
    code around them: the memoising wrappers, the metrics store, the error
    module, the upload helper and the upload and streaming routes. *)

(** ** The rate limiter: keys, retry hints and the remaining count *)

Lemma rateLimit_local bs1 bs2 key lim W now :
  bs1 !! key = bs2 !! key →
  (rateLimit bs1 key lim W now).1 = (rateLimit bs2 key lim W now).1
  ∧ (rateLimit bs1 key lim W now).2 !! key = (rateLimit bs2 key lim W now).2 !! key.
Proof.
  intros E. unfold rateLimit, getBucket. rewrite E.
  destruct (bs2 !! key) as [b|]; simpl; case_decide; simpl;
    by rewrite !lookup_insert_eq.
Qed.

(** X1. Keys do not interfere.  In any sequence of [rateLimit] calls over
    any keys, the decisions taken for one key are those the limiter takes
    when it is given only the calls for that key, from any bucket map that
    holds the same bucket for that key. *)
Theorem run_key_isolated (key : string) (calls : list Call) : ∀ bs1 bs2,
  bs1 !! key = bs2 !! key →
  filter (λ p, c_key p.1 = key) (run bs1 calls).1
  = (run bs2 (filter (λ c, c_key c = key) calls)).1.
Proof.
  induction calls as [|c cs IH]; intros bs1 bs2 E; [done|].
  rewrite run_cons. cbv zeta. cbn [fst]. rewrite !filter_cons. cbn [fst].
  destruct (decide (c_key c = key)) as [Hk|Hk].
  - rewrite run_cons. cbv zeta. cbn [fst].
    destruct (rateLimit_local bs1 bs2 (c_key c) (c_limit c) (c_windowMs c) (c_now c))
      as [-> E']; [by rewrite Hk|].
    f_equal. apply IH. by rewrite <-Hk.
  - apply IH. by rewrite rateLimit_other.
Qed.

Lemma run_key_isolated_witness :
  let calls := [mkCall "a" 1 1000 0; mkCall "b" 1 1000 1; mkCall "a" 1 1000 2] in
  filter (λ p, c_key p.1 = "a") (run (run ∅ [mkCall "b" 1 1000 0]).2 calls).1
  = (run ∅ (filter (λ c, c_key c = "a") calls)).1.
Proof.
  apply (run_key_isolated "a"
           [mkCall "a" 1 1000 0; mkCall "b" 1 1000 1; mkCall "a" 1 1000 2]
           (run ∅ [mkCall "b" 1 1000 0]).2 ∅).
  reflexivity.
Defined.

Lemma rateLimit_denied bs key lim W now :
  allowed (rateLimit bs key lim W now).1 = false →
  let kept := filter (λ t, now - t < W) (bucket_timestamps bs key) in
  lim ≤ Z.of_nat (length kept)
  ∧ remaining (rateLimit bs key lim W now).1 = 0
  ∧ resetMs (rateLimit bs key lim W now).1
    = (λ t0, Z.max 0 (W - (now - t0))) <$> head kept.
Proof.
  unfold rateLimit, getBucket, bucket_timestamps.
  destruct (bs !! key) as [b|]; simpl; case_decide; simpl; done.
Qed.

(** X2. The retry hint of a denial is sound.  When a call is denied (limit
    [N >= 1], the bucket holding at most [N] timestamps, as it does when the
    key is always used with that limit), [remaining] is 0 and [resetMs] is a
    positive number of milliseconds after which every next call for the key
    is allowed. *)
Theorem rateLimit_retry_after_reset (bs : gmap string Bucket) (key : string)
    (N W now : Z) :
  1 ≤ N →
  Z.of_nat (length (bucket_timestamps bs key)) ≤ N →
  allowed (rateLimit bs key N W now).1 = false →
  ∃ r, resetMs (rateLimit bs key N W now).1 = Some r
    ∧ 0 < r
    ∧ remaining (rateLimit bs key N W now).1 = 0
    ∧ ∀ now', now + r ≤ now' →
        allowed (rateLimit (rateLimit bs key N W now).2 key N W now').1 = true.
Proof.
  intros HN Hq Hden.
  destruct (rateLimit_denied bs key N W now Hden) as (Hfull & Hrem & Hreset).
  pose proof (rateLimit_timestamps bs key N W now) as Hts.
  rewrite Hden in Hts. cbv zeta in *.
  set (kept := filter (λ t, now - t < W) (bucket_timestamps bs key)) in *.
  destruct kept as [|t0 rest] eqn:Hk; [simpl in Hfull; lia|].
  assert (Hin : t0 ∈ kept) by (rewrite Hk; by left).
  subst kept. pose proof Hin as Hin'.
  apply list_elem_of_filter in Hin as [Hrec _].
  exists (Z.max 0 (W - (now - t0))). rewrite Hreset. split; [done|].
  split; [lia|]. split; [done|].
  intros now' Hlater. rewrite rateLimit_allowed, Hts.
  apply bool_decide_eq_true_2.
  assert (Z.of_nat (length (filter (λ t, now' - t < W) (t0 :: rest)))
            < Z.of_nat (length (t0 :: rest))).
  { apply inj_lt, (length_filter_lt _ _ t0); [by left|lia]. }
  pose proof (length_filter (λ t, now - t < W) (bucket_timestamps bs key)) as Hle.
  rewrite Hk in Hle. lia.
Qed.

Lemma rateLimit_retry_after_reset_witness :
  let bs := (run ∅ (mkCall "k" 2 1000 <$> [0; 400])).2 in
  ∃ r, resetMs (rateLimit bs "k" 2 1000 500).1 = Some r
    ∧ 0 < r
    ∧ remaining (rateLimit bs "k" 2 1000 500).1 = 0
    ∧ ∀ now', 500 + r ≤ now' →
        allowed (rateLimit (rateLimit bs "k" 2 1000 500).2 "k" 2 1000 now').1 = true.
Proof.
  apply (rateLimit_retry_after_reset _ "k" 2 1000 500); [lia| |reflexivity].
  vm_compute. discriminate.
Defined.

Lemma rateLimit_remaining bs key lim W now :
  allowed (rateLimit bs key lim W now).1 = true →
  remaining (rateLimit bs key lim W now).1
  = Z.max 0 (lim - Z.of_nat (length (bucket_timestamps (rateLimit bs key lim W now).2 key))).
Proof.
  unfold rateLimit, getBucket, bucket_timestamps.
  destruct (bs !! key) as [b|]; simpl; case_decide; simpl; try done;
    by rewrite lookup_insert_eq.
Qed.

Lemma filter_all {A} (P : A → Prop) `{∀ x, Decision (P x)} (l : list A) :
  Forall P l → filter P l = l.
Proof.
  induction 1 as [|x l Hx _ IH]; [done|].
  by rewrite filter_cons, decide_True, IH.
Qed.

(** A burst at one instant: the bucket fills up, then the limiter
    refuses. *)
Lemma burst_at_instant (key : string) (N W now : Z) (r : nat) : ∀ bs,
  0 < W →
  Forall (λ t, now - t < W) (bucket_timestamps bs key) →
  Z.of_nat (length (bucket_timestamps bs key)) + Z.of_nat r = N →
  (λ p, allowed p.2) <$> (run bs (replicate (S r) (mkCall key N W now))).1
  = replicate r true ++ [false].
Proof.
  induction r as [|r IH]; intros bs HW Hrec Hlen.
  - cbn [replicate]. rewrite run_cons. cbv zeta.
    cbn [fst snd run fmap list_fmap app c_key c_limit c_windowMs c_now].
    rewrite rateLimit_allowed, filter_all by done.
    by rewrite bool_decide_eq_false_2 by lia.
  - change (replicate (S (S r)) ?c) with (c :: replicate (S r) c).
    rewrite run_cons. cbv zeta.
    cbn [fst snd fmap list_fmap c_key c_limit c_windowMs c_now].
    assert (Ha : allowed (rateLimit bs key N W now).1 = true).
    { rewrite rateLimit_allowed, filter_all by done. apply bool_decide_eq_true_2. lia. }
    pose proof (rateLimit_timestamps bs key N W now) as Hts.
    rewrite Ha, filter_all in Hts by done. cbv zeta in Hts.
    rewrite Ha. cbn [replicate app]. f_equal.
    apply IH; [done|..]; rewrite Hts.
    + apply Forall_app. split; [done|]. constructor; [lia|done].
    + rewrite length_app. simpl. lia.
Qed.

(** X3. [remaining] is exact.  After an allowed call (window longer than
    0 ms) [remaining] is not negative and is the limit minus the number of
    timestamps then in the bucket; exactly that many further calls for the
    key at the same instant are allowed, and the one after them is
    denied. *)
Theorem rateLimit_remaining_exact (bs : gmap string Bucket) (key : string) (N W now : Z) :
  0 < W →
  allowed (rateLimit bs key N W now).1 = true →
  let d := (rateLimit bs key N W now).1 in
  let more := replicate (S (Z.to_nat (remaining d))) (mkCall key N W now) in
  0 ≤ remaining d
  ∧ remaining d = N - Z.of_nat (length (bucket_timestamps (rateLimit bs key N W now).2 key))
  ∧ (λ p, allowed p.2) <$> (run (rateLimit bs key N W now).2 more).1
    = replicate (Z.to_nat (remaining d)) true ++ [false].
Proof.
  intros HW Ha d more. subst d more.
  pose proof (rateLimit_remaining bs key N W now Ha) as Hrem.
  pose proof (rateLimit_timestamps bs key N W now) as Hts.
  pose proof (rateLimit_allowed bs key N W now) as Hal.
  rewrite Ha in Hts, Hal. cbv zeta in Hts.
  symmetry in Hal. apply bool_decide_eq_true_1 in Hal.
  assert (Hlen : Z.of_nat (length (bucket_timestamps (rateLimit bs key N W now).2 key)) ≤ N).
  { rewrite Hts, length_app. simpl. lia. }
  split; [lia|]. split; [lia|].
  apply burst_at_instant; [done| |lia].
  rewrite Hts. apply Forall_app. split.
  - apply Forall_forall. intros t Ht. by apply list_elem_of_filter in Ht as [? _].
  - constructor; [lia|done].
Qed.

Lemma rateLimit_remaining_exact_witness :
  let d := (rateLimit ∅ "k" 3 1000 7).1 in
  let more := replicate (S (Z.to_nat (remaining d))) (mkCall "k" 3 1000 7) in
  0 ≤ remaining d
  ∧ remaining d = 3 - Z.of_nat (length (bucket_timestamps (rateLimit ∅ "k" 3 1000 7).2 "k"))
  ∧ (λ p, allowed p.2) <$> (run (rateLimit ∅ "k" 3 1000 7).2 more).1
    = replicate (Z.to_nat (remaining d)) true ++ [false].
Proof.
  apply (rateLimit_remaining_exact ∅ "k" 3 1000 7); [lia|reflexivity].
Defined.

(** ** [ipFromHeaders]: the shape of a forwarded address *)

(** The characters of a string. *)
Fixpoint chars (s : string) : list ascii :=
  match s with
  | String c r => c :: chars r
  | EmptyString => []
  end.

Lemma chars_trimStart s : chars (Js.trimStart s) `suffix_of` chars s.
Proof.
  induction s as [|c r IH]; simpl; [done|].
  destruct (Js.is_white c); [by apply suffix_cons_r|done].
Qed.

Lemma chars_trimEnd s : chars (Js.trimEnd s) `prefix_of` chars s.
Proof.
  induction s as [|c r IH]; simpl; [done|].
  destruct (Js.trimEnd r) as [|c' r'] eqn:E.
  - destruct (Js.is_white c); simpl; [apply prefix_nil|].
    apply prefix_cons, prefix_nil.
  - simpl. by apply prefix_cons.
Qed.

Lemma chars_split_head sep s : sep ∉ chars (Js.split_head sep s).
Proof.
  induction s as [|c r IH]; simpl; [apply not_elem_of_nil|].
  destruct (decide (c = sep)); simpl; [apply not_elem_of_nil|].
  apply not_elem_of_cons. by split.
Qed.

Lemma trimStart_head s : from_option Js.is_white false (head (chars (Js.trimStart s))) = false.
Proof.
  induction s as [|c r IH]; simpl; [done|].
  destruct (Js.is_white c) eqn:E; [done|]. simpl. done.
Qed.

Lemma trimEnd_last s : from_option Js.is_white false (last (chars (Js.trimEnd s))) = false.
Proof.
  induction s as [|c r IH]; simpl; [done|].
  destruct (Js.trimEnd r) as [|c' r'] eqn:E.
  - destruct (Js.is_white c) eqn:Ec; simpl; [done|by rewrite Ec].
  - simpl in *. destruct (chars r') eqn:E'; done.
Qed.

Lemma trimEnd_head s :
  from_option Js.is_white false (head (chars s)) = false →
  from_option Js.is_white false (head (chars (Js.trimEnd s))) = false.
Proof.
  destruct s as [|c r]; simpl; [done|]. intros Hc.
  destruct (Js.trimEnd r); [rewrite Hc|]; done.
Qed.

Lemma prefix_is_sublist {A} (l1 l2 : list A) : l1 `prefix_of` l2 → l1 `sublist_of` l2.
Proof. intros [k ->]. by apply sublist_inserts_r. Qed.

Lemma suffix_is_sublist {A} (l1 l2 : list A) : l1 `suffix_of` l2 → l1 `sublist_of` l2.
Proof. intros [k ->]. by apply sublist_inserts_l. Qed.

(** X4. With a non-empty [x-forwarded-for] header, the address that
    [ipFromHeaders] returns holds no comma, neither starts nor ends with
    white space, and is made of characters of the header, in their
    order. *)
Theorem ipFromHeaders_forwarded_clean (headers : gmap string string) (xff : string) :
  headers !! "x-forwarded-for" = Some xff → xff ≠ "" →
  let ip := chars (ipFromHeaders headers) in
  (","%char ∉ ip)
  ∧ from_option Js.is_white false (head ip) = false
  ∧ from_option Js.is_white false (last ip) = false
  ∧ ip `sublist_of` chars xff.
Proof.
  intros Hx Hne ip. subst ip. unfold ipFromHeaders.
  rewrite Hx. simpl Js.truthy_string. rewrite bool_decide_eq_true_2 by done.
  cbn [default from_option]. unfold Js.trim.
  assert (Hsub : chars (Js.trimEnd (Js.trimStart (Js.split_head "," xff)))
                 `sublist_of` chars (Js.split_head "," xff)).
  { etrans; [apply prefix_is_sublist, chars_trimEnd|].
    apply suffix_is_sublist, chars_trimStart. }
  split; [|split; [|split]].
  - intros Hin. apply (chars_split_head "," xff).
    eapply elem_of_sublist; [exact Hin|done].
  - apply trimEnd_head, trimStart_head.
  - apply trimEnd_last.
  - etrans; [exact Hsub|].
    clear. induction xff as [|c r IH]; simpl; [done|].
    destruct (decide (c = ","%char)); simpl; [apply sublist_nil_l|by apply sublist_skip].
Qed.

Lemma ipFromHeaders_forwarded_clean_witness :
  let ip := chars (ipFromHeaders {["x-forwarded-for" := " 203.0.113.7 , 10.0.0.1"]}) in
  (","%char ∉ ip)
  ∧ from_option Js.is_white false (head ip) = false
  ∧ from_option Js.is_white false (last ip) = false
  ∧ ip `sublist_of` chars " 203.0.113.7 , 10.0.0.1".
Proof.
  apply (ipFromHeaders_forwarded_clean {["x-forwarded-for" := " 203.0.113.7 , 10.0.0.1"]}
           " 203.0.113.7 , 10.0.0.1"); [reflexivity|discriminate].
Defined.

(** ** The cache: overwriting, sweeping, [has], and capacity over a run *)

Lemma JsMap_set_elem {V} (m : list (string * V)) k v p :
  p ∈ JsMap.set m k v → p = (k, v) ∨ p ∈ m.
Proof.
  induction m as [|[k' x] m IH]; simpl.
  - intros Hp. apply list_elem_of_singleton in Hp. by left.
  - destruct (decide (k' = k)) as [->|Hne]; intros Hp;
      apply elem_of_cons in Hp as [->|Hp].
    + by left.
    + right. by right.
    + right. by left.
    + destruct (IH Hp) as [->|Hin]; [by left|right; by right].
Qed.

Lemma JsMap_get_elem {V} (m : list (string * V)) k v :
  JsMap.get m k = Some v → (k, v) ∈ m.
Proof.
  induction m as [|[k' x] m IH]; simpl; [done|].
  destruct (decide (k' = k)) as [->|Hne].
  - intros [= ->]. by left.
  - intros Hg. right. by apply IH.
Qed.

(** The clock readings of a run of operations, as [Date.now()] gives them
    when at least a millisecond passes between two [set] calls: each [set]
    reads [now], later than the [now] of the [set] before it, and then
    [evictNow]; it stores under a key that is not the empty string. *)
Fixpoint clock_advances {T} (last : Z) (ops : list (Op T)) : Prop :=
  match ops with
  | [] => True
  | OSet key _ _ now evictNow :: ops =>
      key ≠ "" ∧ last < now ∧ now ≤ evictNow ∧ clock_advances now ops
  | _ :: ops => clock_advances last ops
  end.

Section capacity_runs.
Context {T : Type}.
Implicit Types (c : MemoryCache T) (op : Op T).

(** Every entry was stored no later than [last], under a key that is not
    the empty string, and the cache is within its capacity. *)
Definition within_capacity (last : Z) c : Prop :=
  JsMap.size (cache c) ≤ maxSize c
  ∧ Forall (λ p, timestamp p.2 ≤ last ∧ p.1 ≠ "") (cache c).

Lemma exec_maxSize c op : maxSize (exec c op) = maxSize c.
Proof.
  destruct op; simpl; try done.
  - unfold set. cbv zeta. destruct (_ && _); [|done].
    unfold evictOldest. by destruct (Js.truthy_string _).
  - unfold get. destruct (JsMap.get _ _); [|done]. by destruct (decide _).
  - unfold has. destruct (JsMap.get _ _); [|done]. by destruct (decide _).
Qed.

Lemma within_capacity_sublist last c (m : list (string * CacheEntry T)) :
  within_capacity last c → m `sublist_of` cache c →
  within_capacity last (with_cache c m).
Proof.
  intros [Hsize Hall] Hsub. split; simpl.
  - apply sublist_length in Hsub. unfold JsMap.size in *. lia.
  - rewrite Forall_forall in *. intros p Hp. apply Hall.
    by eapply elem_of_sublist.
Qed.

Lemma within_capacity_touch last c key entry entry' :
  within_capacity last c →
  JsMap.get (cache c) key = Some entry → timestamp entry' = timestamp entry →
  within_capacity last (with_cache c (JsMap.set (cache c) key entry')).
Proof.
  intros [Hsize Hall] Hget Hts. split; simpl.
  - unfold JsMap.size in *. rewrite JsMap_length_set.
    assert (JsMap.has (cache c) key = true) as -> by (apply JsMap_has_true; eauto).
    done.
  - rewrite Forall_forall in *. intros p Hp.
    apply JsMap_set_elem in Hp as [->|Hp]; [|by apply Hall].
    simpl. rewrite Hts. apply (Hall (key, entry)). by apply JsMap_get_elem.
Qed.

Lemma exec_within_capacity last c op :
  0 < maxSize c →
  within_capacity last c →
  match op with
  | OSet key _ _ now evictNow =>
      key ≠ "" → last < now → now ≤ evictNow → within_capacity now (exec c op)
  | _ => within_capacity last (exec c op)
  end.
Proof.
  intros Hmax Hin. destruct op as [key value ttl now evictNow|key now|key now|key| |now|];
    simpl.
  - intros Hkey Hlast Hnow. destruct Hin as [Hsize Hall].
    assert (Hev : Forall (evictable evictNow) (cache c)).
    { eapply Forall_impl; [exact Hall|]. intros p [Hp Hk]. split; [lia|done]. }
    destruct (set_within_capacity c key value ttl now evictNow Hmax Hsize Hev) as [Hle _].
    split.
    + change (maxSize (set c key value ttl now evictNow))
        with (maxSize (exec c (OSet key value ttl now evictNow))).
      by rewrite exec_maxSize.
    + unfold set. cbv zeta. cbn [cache with_cache].
      rewrite Forall_forall in *. intros p Hp.
      apply JsMap_set_elem in Hp as [->|Hp]; [simpl; split; [lia|done]|].
      assert (Hp' : p ∈ cache c).
      { destruct (_ && _); [|done].
        eapply elem_of_sublist; [exact Hp|apply evictOldest_sublist]. }
      destruct (Hall p Hp'). split; [lia|done].
  - unfold get. destruct (JsMap.get (cache c) key) as [entry|] eqn:Hget; [|done].
    destruct (decide (expired entry now)); simpl.
    + apply (within_capacity_sublist last c); [done|apply JsMap_delete_sublist].
    + by apply (within_capacity_touch last c key entry).
  - unfold has. destruct (JsMap.get (cache c) key) as [entry|]; [|done].
    destruct (decide (expired entry now)); simpl; [|done].
    apply (within_capacity_sublist last c); [done|apply JsMap_delete_sublist].
  - apply (within_capacity_sublist last c); [done|apply JsMap_delete_sublist].
  - split; simpl; [unfold JsMap.size; simpl; lia|done].
  - apply (within_capacity_sublist last c); [done|apply sublist_filter].
  - split; simpl; [unfold JsMap.size; simpl; lia|done].
Qed.

Lemma exec_all_within_capacity (ops : list (Op T)) : ∀ last c,
  0 < maxSize c → within_capacity last c → clock_advances last ops →
  maxSize (exec_all c ops) = maxSize c
  ∧ ∃ last', within_capacity last' (exec_all c ops).
Proof.
  induction ops as [|op ops IH]; intros last c Hmax Hin Hclock; [by eauto|].
  pose proof (exec_within_capacity last c op Hmax Hin) as Hstep.
  pose proof (exec_maxSize c op) as Hm.
  change (exec_all c (op :: ops)) with (exec_all (exec c op) ops).
  assert (Hnext : ∃ last', within_capacity last' (exec c op) ∧ clock_advances last' ops).
  { destruct op as [key value ttl now evictNow| | | | | |]; simpl in Hclock;
      try (by exists last).
    destruct Hclock as (Hkey & Hlast & Hnow & Hclock). exists now. split; [|done].
    by apply Hstep. }
  destruct Hnext as (last' & Hin' & Hclock').
  destruct (IH last' (exec c op)) as [E Hex]; [lia|done|done|].
  split; [by rewrite E|done].
Qed.

End capacity_runs.

(** X5. When the clock advances between [set] calls, no run of operations
    takes a cache past its capacity: on a cache created with [maxSize >= 1],
    after any sequence of [set], [get], [has], [delete], [clear], [cleanup]
    and [destroy] in which every [set] stores under a key other than the
    empty string and reads the clock later than the [set] before it, the
    cache holds at most [maxSize] entries. *)
Theorem cache_stays_within_capacity {T} (capacity defaultTtl start : Z) (ops : list (Op T)) :
  0 < capacity →
  clock_advances start ops →
  let c := exec_all (new capacity defaultTtl) ops in
  maxSize c = capacity ∧ JsMap.size (cache c) ≤ capacity.
Proof.
  intros Hcap Hclock.
  destruct (exec_all_within_capacity ops start (new capacity defaultTtl))
    as (Hm & last' & Hsize & _); [done| |done|].
  { split; [simpl; unfold JsMap.size; simpl; lia|done]. }
  cbv zeta. simpl in Hm. rewrite Hm in Hsize. done.
Qed.

Lemma cache_stays_within_capacity_witness :
  let c := exec_all (new 2 300000)
             [OSet "a" "1" None 1 1; OSet "b" "2" None 2 2; OGet "a" 3;
              OSet "c" "3" None 4 5; OSet "d" "4" None 6 6] in
  maxSize c = 2 ∧ JsMap.size (cache c) ≤ 2.
Proof.
  apply (cache_stays_within_capacity 2 300000 0
           [OSet "a" "1" None 1 1; OSet "b" "2" None 2 2; OGet "a" 3;
            OSet "c" "3" None 4 5; OSet "d" "4" None 6 6]); [lia|].
  simpl. repeat split; (lia || discriminate).
Defined.

Section more_cache.
Context {T : Type}.
Implicit Types (c : MemoryCache T) (key : string) (value : T).

Lemma has_result c key now :
  (has c key now).1
  = match JsMap.get (cache c) key with
    | Some entry => bool_decide (¬ expired entry now)
    | None => false
    end.
Proof.
  unfold has. destruct (JsMap.get (cache c) key) as [entry|]; [|done].
  destruct (decide (expired entry now)); simpl.
  - by rewrite bool_decide_eq_false_2 by tauto.
  - by rewrite bool_decide_eq_true_2.
Qed.

End more_cache.

(** X6. [set] on a key that is in the map overwrites in place, also at
    capacity: the keys and their order, the size and the entries of all
    other keys are unchanged, and the key's entry is the new value with
    timestamp [now], the given [ttl] (by default [defaultTtl]) and no
    hits. *)
Theorem set_existing_key_keeps_others {T} (c : MemoryCache T) (key : string) (value : T)
    (ttl : option Z) (now evictNow : Z) :
  JsMap.has (cache c) key = true →
  let c' := set c key value ttl now evictNow in
  (cache c').*1 = (cache c).*1
  ∧ JsMap.size (cache c') = JsMap.size (cache c)
  ∧ JsMap.get (cache c') key = Some (mkEntry value now (default (defaultTtl c) ttl) 0)
  ∧ ∀ k, k ≠ key → JsMap.get (cache c') k = JsMap.get (cache c) k.
Proof.
  intros Hhas c'. subst c'. unfold set. cbn [cache with_cache].
  rewrite Hhas, andb_false_r.
  apply JsMap_has_true in Hhas.
  split; [by apply JsMap_keys_set_present|]. split.
  - unfold JsMap.size. f_equal.
    rewrite <-(length_fmap fst (JsMap.set _ _ _)), <-(length_fmap fst (cache c)).
    by rewrite JsMap_keys_set_present.
  - split; [apply JsMap_get_set_eq|]. intros k Hk. by apply JsMap_get_set_ne.
Qed.

Lemma set_existing_key_keeps_others_witness :
  let c := set (set (new 2 300000) "a" "1" None 1 1) "b" "2" None 2 2 in
  let c' := set c "a" "9" (Some 50) 7 7 in
  (cache c').*1 = (cache c).*1
  ∧ JsMap.size (cache c') = JsMap.size (cache c)
  ∧ JsMap.get (cache c') "a" = Some (mkEntry "9" 7 (default (defaultTtl c) (Some 50)) 0)
  ∧ ∀ k, k ≠ "a" → JsMap.get (cache c') k = JsMap.get (cache c) k.
Proof.
  apply (set_existing_key_keeps_others
           (set (set (new 2 300000) "a" "1" None 1 1) "b" "2" None 2 2) "a" "9" (Some 50) 7 7).
  reflexivity.
Defined.

(** X7. The periodic sweep is invisible to readers: after a [cleanup] at
    time [sweep], a [get] or [has] of any key at a time [now >= sweep]
    answers as it would without the sweep. *)
Theorem cleanup_transparent {T} (c : MemoryCache T) (sweep now : Z) (key : string) :
  JsMap.wf (cache c) → sweep ≤ now →
  (get (cleanup c sweep) key now).1 = (get c key now).1
  ∧ (has (cleanup c sweep) key now).1 = (has c key now).1.
Proof.
  intros Hwf Hle. rewrite !get_result, !has_result, cleanup_lookup by done.
  destruct (JsMap.get (cache c) key) as [entry|]; [|done].
  destruct (decide (expired entry sweep)) as [Hx|Hx]; [|done].
  assert (expired entry now) by (unfold expired in *; lia).
  rewrite decide_True, bool_decide_eq_false_2 by tauto. done.
Qed.

Lemma cleanup_transparent_witness :
  let c := set (set (new 2 300000) "a" "1" (Some 10) 1 1) "b" "2" None 2 2 in
  (get (cleanup c 20) "a" 30).1 = (get c "a" 30).1
  ∧ (has (cleanup c 20) "a" 30).1 = (has c "a" 30).1.
Proof.
  apply (cleanup_transparent
           (set (set (new 2 300000) "a" "1" (Some 10) 1 1) "b" "2" None 2 2) 20 30 "a").
  - apply (bool_decide_unpack _). vm_compute. exact I.
  - lia.
Defined.

(** X8. [has] agrees with [get].  [has(key)] answers [true] exactly when a
    [get(key)] at the same time would return a value; a [true] answer leaves
    the cache as it was; [has] never adds an entry; and after the answer
    [false] the key is not in the map, so every later [get] of it returns
    [null]. *)
Theorem has_agrees_with_get {T} (c : MemoryCache T) (key : string) (now : Z) :
  JsMap.wf (cache c) →
  ((has c key now).1 = true ↔ ∃ value, (get c key now).1 = Some value)
  ∧ ((has c key now).1 = true → (has c key now).2 = c)
  ∧ cache (has c key now).2 `sublist_of` cache c
  ∧ ((has c key now).1 = false →
     JsMap.get (cache (has c key now).2) key = None
     ∧ ∀ later, (get (has c key now).2 key later).1 = None).
Proof.
  intros Hwf. rewrite has_result, get_result. unfold has.
  destruct (JsMap.get (cache c) key) as [entry|] eqn:Hget.
  - destruct (decide (expired entry now)) as [Hx|Hx]; simpl.
    + rewrite bool_decide_eq_false_2 by tauto.
      split; [split; [done|by intros [? ?]]|]. split; [done|].
      split; [apply JsMap_delete_sublist|].
      intros _. assert (E : JsMap.get (JsMap.delete (cache c) key) key = None)
        by (by apply JsMap_get_delete_eq).
      split; [done|]. intros later. rewrite get_result. simpl. by rewrite E.
    + rewrite bool_decide_eq_true_2 by done.
      split; [split; [eauto|done]|]. split; [done|]. split; [done|]. done.
  - split; [split; [done|by intros [? ?]]|]. split; [done|]. split; [done|].
    intros _. split; [done|]. intros later. cbn [snd]. rewrite get_result. by rewrite Hget.
Qed.

Lemma has_agrees_with_get_witness :
  let c := set (set (new 2 300000) "a" "1" (Some 10) 1 1) "b" "2" None 2 2 in
  ((has c "a" 30).1 = true ↔ ∃ value, (get c "a" 30).1 = Some value)
  ∧ ((has c "a" 30).1 = true → (has c "a" 30).2 = c)
  ∧ cache (has c "a" 30).2 `sublist_of` cache c
  ∧ ((has c "a" 30).1 = false →
     JsMap.get (cache (has c "a" 30).2) "a" = None
     ∧ ∀ later, (get (has c "a" 30).2 "a" later).1 = None).
Proof.
  apply (has_agrees_with_get
           (set (set (new 2 300000) "a" "1" (Some 10) 1 1) "b" "2" None 2 2) "a" 30).
  apply (bool_decide_unpack _). vm_compute. exact I.
Defined.

(** ** Cache keys: injectivity, and the hash as a polynomial *)

Lemma colon_in_middle a : ∀ b, ¬ colon_free (a +:+ ":" +:+ b).
Proof.
  induction a as [|c a IH]; intros b; rewrite ?app_String, ?app_Empty.
  - simpl. by intros [? _].
  - intros [_ H]. by apply (IH b).
Qed.

Lemma join_colon_inj (l1 : list string) : ∀ l2,
  Forall colon_free l1 → Forall colon_free l2 → l1 ≠ [] → l2 ≠ [] →
  join ":" l1 = join ":" l2 → l1 = l2.
Proof.
  induction l1 as [|x l1 IH]; intros [|y l2] H1 H2 Hn1 Hn2 E; try done.
  apply Forall_cons in H1 as [Hx H1]. apply Forall_cons in H2 as [Hy H2].
  destruct l1 as [|x' l1], l2 as [|y' l2].
  - simpl in E. by rewrite E.
  - change (x = y +:+ ":" +:+ join ":" (y' :: l2)) in E.
    rewrite E in Hx. by apply colon_in_middle in Hx.
  - change (x +:+ ":" +:+ join ":" (x' :: l1) = y) in E.
    rewrite <-E in Hy. by apply colon_in_middle in Hy.
  - change (x +:+ ":" +:+ join ":" (x' :: l1) = y +:+ ":" +:+ join ":" (y' :: l2)) in E.
    apply split_colon in E as [-> E]; [|done..].
    f_equal. by apply IH.
Qed.

(** X9. [generateCacheKey] is injective on colon-free input: when the
    prefixes and the parts, as strings, hold no colon and both part lists
    are non-empty, equal keys have equal prefixes and equal parts (a number
    and the string of its digits being the same part). *)
Theorem generateCacheKey_inj (prefix1 prefix2 : string) (parts1 parts2 : list Part) :
  colon_free prefix1 → colon_free prefix2 →
  Forall (λ p, colon_free (part_to_string p)) parts1 →
  Forall (λ p, colon_free (part_to_string p)) parts2 →
  parts1 ≠ [] → parts2 ≠ [] →
  generateCacheKey prefix1 parts1 = generateCacheKey prefix2 parts2 →
  prefix1 = prefix2 ∧ part_to_string <$> parts1 = part_to_string <$> parts2.
Proof.
  intros Hp1 Hp2 H1 H2 Hn1 Hn2 E. unfold generateCacheKey in E.
  apply split_colon in E as [-> E]; [|done..]. split; [done|].
  apply join_colon_inj; [by apply Forall_fmap..| | |done].
  - by destruct parts1.
  - by destruct parts2.
Qed.

Lemma generateCacheKey_inj_witness :
  "doc" = "doc" ∧ part_to_string <$> [PStr "a"; PNum 7] = part_to_string <$> [PStr "a"; PStr "7"].
Proof.
  apply (generateCacheKey_inj "doc" "doc" [PStr "a"; PNum 7] [PStr "a"; PStr "7"]);
    try discriminate; try reflexivity.
  - by vm_compute.
  - by vm_compute.
  - repeat constructor; by vm_compute.
  - repeat constructor; by vm_compute.
Defined.

(** A part that holds a colon makes two different part lists collide. *)
Lemma generateCacheKey_colon_collision :
  generateCacheKey "doc" [PStr "a:b"] = generateCacheKey "doc" [PStr "a"; PStr "b"].
Proof. reflexivity. Qed.

(** [ToInt32] is reduction modulo 2^32 into the signed range. *)
Lemma ToInt32_range x : - 2 ^ 31 ≤ Js.ToInt32 x < 2 ^ 31.
Proof.
  unfold Js.ToInt32. pose proof (Z.mod_pos_bound x (2 ^ 32)).
  case_decide; lia.
Qed.

Lemma ToInt32_mod x : Js.ToInt32 x mod 2 ^ 32 = x mod 2 ^ 32.
Proof.
  unfold Js.ToInt32. case_decide.
  - replace (x mod 2 ^ 32 - 2 ^ 32) with (x mod 2 ^ 32 + (-1) * 2 ^ 32) by lia.
    rewrite Z_mod_plus_full. apply Z.mod_mod. lia.
  - apply Z.mod_mod. lia.
Qed.

Lemma ToInt32_congr x y : x mod 2 ^ 32 = y mod 2 ^ 32 → Js.ToInt32 x = Js.ToInt32 y.
Proof. intros E. unfold Js.ToInt32. by rewrite E. Qed.

Lemma ToInt32_idemp x : Js.ToInt32 (Js.ToInt32 x) = Js.ToInt32 x.
Proof. apply ToInt32_congr, ToInt32_mod. Qed.

(** One iteration of the loop of [simpleHash]. *)
Definition hash_step (hash char : Z) : Z :=
  let hash := Js.shl hash 5 - hash + char in Js.band hash hash.

Lemma hash_step_poly hash char :
  hash_step hash char = Js.ToInt32 (31 * hash + char).
Proof.
  unfold hash_step, Js.band, Js.shl. cbv zeta.
  rewrite Z.land_diag, ToInt32_idemp.
  apply ToInt32_congr.
  change (5 mod 32) with 5. rewrite Z.shiftl_mul_pow2 by lia.
  rewrite <-Z.add_sub_swap, <-Z.add_sub_assoc.
  rewrite Z.add_mod, ToInt32_mod by lia.
  rewrite <-(Z.add_mod (Js.ToInt32 hash * 2 ^ 5)) by lia.
  rewrite Z.add_mod, Z.mul_mod, ToInt32_mod by lia.
  rewrite <-Z.mul_mod, <-Z.add_mod by lia.
  f_equal. lia.
Qed.

Lemma simpleHash_loop_poly (question : list Z) :
  simpleHash_loop question = Js.ToInt32 (foldl (λ h c, 31 * h + c) 0 question).
Proof.
  assert (H : ∀ q h p, h = Js.ToInt32 p →
            foldl hash_step h q = Js.ToInt32 (foldl (λ h c, 31 * h + c) p q)).
  { induction q as [|c q IH]; intros h p Hh; [done|]. simpl.
    apply IH. rewrite hash_step_poly. apply ToInt32_congr.
    rewrite Hh. rewrite Z.add_mod, Z.mul_mod, ToInt32_mod by lia.
    by rewrite <-Z.mul_mod, <-Z.add_mod by lia. }
  apply (H question 0 0). reflexivity.
Qed.

(** X10. The loop of [simpleHash] computes the polynomial hash
    [h := 31 * h + c] over the code units, reduced to a signed 32-bit
    integer at the end; its value lies between [-2^31] and [2^31 - 1]. *)
Theorem simpleHash_is_polynomial (question : list Z) :
  simpleHash_loop question = Js.ToInt32 (foldl (λ h c, 31 * h + c) 0 question)
  ∧ - 2 ^ 31 ≤ simpleHash_loop question < 2 ^ 31.
Proof.
  split; [apply simpleHash_loop_poly|].
  rewrite simpleHash_loop_poly. apply ToInt32_range.
Qed.

(** The length of what [toString(36)] writes. *)
Lemma digits_go_length_le (fuel : nat) : ∀ (n : N) (acc : string) (k : nat),
  (n < 36 ^ N.of_nat k)%N →
  (String.length (Js.digits_go fuel 36 n acc) ≤ k + String.length acc)%nat.
Proof.
  induction fuel as [|fuel IH]; intros n acc k Hn; simpl; [lia|].
  case_decide; [lia|].
  destruct k as [|k]; [simpl in Hn; lia|].
  etrans; [apply (IH _ _ k)|simpl; lia].
  rewrite Nat2N.inj_succ, N.pow_succ_r' in Hn.
  apply N.Div0.div_lt_upper_bound. lia.
Qed.

Lemma digits_go_length_ge (fuel : nat) : ∀ (n : N) (acc : string),
  (String.length acc ≤ String.length (Js.digits_go fuel 36 n acc))%nat.
Proof.
  induction fuel as [|fuel IH]; intros n acc; simpl; [lia|].
  case_decide; [lia|]. etrans; [|apply IH]. simpl. lia.
Qed.

(** The characters [toString(36)] writes: decimal digits and lower-case
    letters. *)
Definition is_base36 (c : ascii) : bool :=
  let n := N_of_ascii c in
  bool_decide ((48 ≤ n ≤ 57)%N ∨ (97 ≤ n ≤ 122)%N).

Fixpoint all_chars (P : ascii → bool) (s : string) : bool :=
  match s with
  | String c r => P c && all_chars P r
  | EmptyString => true
  end.

Lemma digit_char_base36 d : (d < 36)%N → is_base36 (Js.digit_char d) = true.
Proof.
  intros Hd. unfold is_base36, Js.digit_char.
  case_decide; rewrite N_ascii_embedding by lia; apply bool_decide_eq_true_2; lia.
Qed.

Lemma digits_go_base36 (fuel : nat) : ∀ (n : N) (acc : string),
  all_chars is_base36 acc = true →
  all_chars is_base36 (Js.digits_go fuel 36 n acc) = true.
Proof.
  induction fuel as [|fuel IH]; intros n acc Hacc; simpl; [done|].
  case_decide; [done|]. apply IH. simpl.
  rewrite digit_char_base36, Hacc; [done|]. apply N.mod_lt. lia.
Qed.

(** X11. [simpleHash] returns between one and six characters, each a
    digit or a lower-case letter. *)
Theorem simpleHash_short (question : list Z) :
  (1 ≤ String.length (simpleHash question) ≤ 6)%nat
  ∧ all_chars is_base36 (simpleHash question) = true.
Proof.
  pose proof (ToInt32_range (foldl (λ h c, 31 * h + c) 0 question)) as Hr.
  rewrite <-simpleHash_loop_poly in Hr.
  unfold simpleHash, Js.toString36.
  set (n := Z.to_N (Z.abs (simpleHash_loop question))).
  assert (Hn : (n < 36 ^ N.of_nat 6)%N) by (subst n; simpl; lia).
  case_decide as Hz; [simpl; split; [lia|done]|].
  split; [split|].
  - destruct (N.size_nat n) as [|fuel] eqn:Hs.
    { destruct n; [done|]. simpl in Hs. destruct p; discriminate. }
    simpl. rewrite decide_False by done.
    etrans; [|apply digits_go_length_ge]. simpl. lia.
  - pose proof (digits_go_length_le (N.size_nat n) n "" 6 Hn). simpl in *. lia.
  - by apply digits_go_base36.
Qed.

(** ** The memoising wrappers and the response middleware *)

Lemma get_hit {T} (c : MemoryCache T) key now entry :
  JsMap.get (cache c) key = Some entry → ¬ expired entry now →
  (get c key now).1 = Some (data entry).
Proof. intros Hget Hx. rewrite get_result, Hget. by rewrite decide_False. Qed.

(** X12. [cached] and [cachedAsync] memoise.  After a call that missed the
    cache and whose function returned a result other than [null], a call of
    either wrapper, around any function, whose arguments give the same key
    and whose lookup comes no later than [ttl] (by default [defaultTtl])
    after the store, returns that result, whatever its own function would
    do. *)
Theorem cached_memoizes {Args T} (is_null : T → bool)
    (fn other : Args → MemoryCache T → option T * MemoryCache T)
    (cache : MemoryCache T) (keyGenerator : Args → string) (ttl : option Z)
    (args args' : Args) (getNow setNow evictNow : Z) (result : T)
    (cache1 : MemoryCache T) (getNow' setNow' evictNow' : Z) :
  (get cache (keyGenerator args) getNow).1 = None →
  fn args (get cache (keyGenerator args) getNow).2 = (Some result, cache1) →
  is_null result = false →
  keyGenerator args' = keyGenerator args →
  getNow' - setNow ≤ default (defaultTtl cache1) ttl →
  let first := Cached.cached is_null fn cache keyGenerator ttl args getNow setNow evictNow in
  first.1 = Some result
  ∧ (Cached.cached is_null other first.2 keyGenerator ttl args' getNow' setNow' evictNow').1
    = Some result
  ∧ (Cached.cachedAsync is_null other first.2 keyGenerator ttl args' getNow' setNow'
       evictNow').1
    = Some result.
Proof.
  intros Hmiss Hfn Hnull Hkey Hfresh first.
  assert (Hfirst : first = (Some result,
            set cache1 (keyGenerator args) result ttl setNow evictNow)).
  { subst first. unfold Cached.cached, Cached.call.
    destruct (get cache (keyGenerator args) getNow) as [looked cache0].
    simpl in Hmiss, Hfn. subst looked. by rewrite Hfn. }
  rewrite Hfirst. cbn [fst snd]. split; [done|].
  assert (Hhit : (get (set cache1 (keyGenerator args) result ttl setNow evictNow)
                    (keyGenerator args') getNow').1 = Some result).
  { rewrite Hkey.
    rewrite (get_hit _ _ _ (mkEntry result setNow (default (defaultTtl cache1) ttl) 0));
      [done|apply set_lookup|unfold expired; simpl; lia]. }
  unfold Cached.cached, Cached.cachedAsync.
  destruct (get _ (keyGenerator args') getNow') as [v c2]. simpl in Hhit. subst v.
  rewrite Hnull. split; reflexivity.
Qed.

Lemma cached_memoizes_witness :
  let is_null := (λ _ : Z, false) in
  let fn := (λ (n : Z) (c : MemoryCache Z), (Some (n * 2), c)) in
  let other := (λ (_ : Z) (c : MemoryCache Z), (@None Z, c)) in
  let first := Cached.cached is_null fn (new 10 1000) pretty None 21 1 2 2 in
  first.1 = Some 42
  ∧ (Cached.cached is_null other first.2 pretty None 21 500 501 501).1 = Some 42
  ∧ (Cached.cachedAsync is_null other first.2 pretty None 21 500 501 501).1 = Some 42.
Proof.
  apply (cached_memoizes (λ _ : Z, false)
           (λ (n : Z) (c : MemoryCache Z), (Some (n * 2), c))
           (λ (_ : Z) (c : MemoryCache Z), (@None Z, c))
           (new 10 1000) pretty None 21 21 1 2 2 42
           (get (new 10 1000) (pretty 21) 1).2 500 501 501);
    [reflexivity|reflexivity|reflexivity|reflexivity|simpl; lia].
Defined.

Lemma get_hit_counted {T} (c : MemoryCache T) key now entry :
  JsMap.get (cache c) key = Some entry → ¬ expired entry now →
  (get c key now).1 = Some (data entry)
  ∧ stats_hits (get c key now).2 = stats_hits c + 1.
Proof. intros Hget Hx. unfold get. rewrite Hget. by rewrite decide_False. Qed.

Lemma call_result {Args T} (fn : Args → MemoryCache T → option T * MemoryCache T)
    (c : MemoryCache T) key ttl args setNow evictNow :
  (Cached.call fn c key ttl args setNow evictNow).1 = (fn args c).1.
Proof. unfold Cached.call. by destruct (fn args c) as [[result|] c']. Qed.

(** X13. A stored [null] is never served.  After a call that missed the
    cache and whose function returned [null], a call of either wrapper,
    around any function, whose arguments give the same key and whose lookup
    comes no later than [ttl] (by default [defaultTtl]) after the store,
    finds the stored [null], which the cache counts as a hit, and yet calls
    its function and returns what that returns. *)
Theorem cached_null_is_recomputed {Args T} (is_null : T → bool)
    (fn other : Args → MemoryCache T → option T * MemoryCache T)
    (cache : MemoryCache T) (keyGenerator : Args → string) (ttl : option Z)
    (args args' : Args) (getNow setNow evictNow : Z) (result : T)
    (cache1 : MemoryCache T) (getNow' setNow' evictNow' : Z) :
  (get cache (keyGenerator args) getNow).1 = None →
  fn args (get cache (keyGenerator args) getNow).2 = (Some result, cache1) →
  is_null result = true →
  keyGenerator args' = keyGenerator args →
  getNow' - setNow ≤ default (defaultTtl cache1) ttl →
  let first := Cached.cached is_null fn cache keyGenerator ttl args getNow setNow evictNow in
  let looked := get first.2 (keyGenerator args') getNow' in
  first.1 = Some result
  ∧ looked.1 = Some result
  ∧ stats_hits looked.2 = stats_hits cache1 + 1
  ∧ (Cached.cached is_null other first.2 keyGenerator ttl args' getNow' setNow' evictNow').1
    = (other args' looked.2).1
  ∧ (Cached.cachedAsync is_null other first.2 keyGenerator ttl args' getNow' setNow'
       evictNow').1
    = (other args' looked.2).1.
Proof.
  intros Hmiss Hfn Hnull Hkey Hfresh first looked.
  assert (Hfirst : first = (Some result,
            set cache1 (keyGenerator args) result ttl setNow evictNow)).
  { subst first. unfold Cached.cached, Cached.call.
    destruct (get cache (keyGenerator args) getNow) as [found cache0].
    simpl in Hmiss, Hfn. subst found. by rewrite Hfn. }
  subst looked. rewrite Hfirst. cbn [fst snd]. split; [done|].
  destruct (get_hit_counted (set cache1 (keyGenerator args) result ttl setNow evictNow)
              (keyGenerator args') getNow'
              (mkEntry result setNow (default (defaultTtl cache1) ttl) 0))
    as [Hhit Hcount]; [rewrite Hkey; apply set_lookup|unfold expired; simpl; lia|].
  split; [done|].
  split; [rewrite Hcount; by destruct (set_stats cache1 (keyGenerator args) result ttl
                                         setNow evictNow) as [-> _]|].
  unfold Cached.cached, Cached.cachedAsync.
  destruct (get _ (keyGenerator args') getNow') as [v c2]. simpl in Hhit. subst v.
  simpl. rewrite Hnull. split; apply call_result.
Qed.

Lemma cached_null_is_recomputed_witness :
  let is_null := (λ n : Z, bool_decide (n = 0)) in
  let fn := (λ (n : Z) (c : MemoryCache Z), (Some 0, c)) in
  let other := (λ (n : Z) (c : MemoryCache Z), (Some (n + 1), c)) in
  let first := Cached.cached is_null fn (new 10 1000) pretty None 21 1 2 2 in
  let looked := get first.2 (pretty 21) 500 in
  first.1 = Some 0
  ∧ looked.1 = Some 0
  ∧ stats_hits looked.2 = stats_hits (get (new 10 1000 : MemoryCache Z) (pretty 21) 1).2 + 1
  ∧ (Cached.cached is_null other first.2 pretty None 21 500 501 501).1
    = (other 21 looked.2).1
  ∧ (Cached.cachedAsync is_null other first.2 pretty None 21 500 501 501).1
    = (other 21 looked.2).1.
Proof.
  apply (cached_null_is_recomputed (λ n : Z, bool_decide (n = 0))
           (λ (n : Z) (c : MemoryCache Z), (Some 0, c))
           (λ (n : Z) (c : MemoryCache Z), (Some (n + 1), c))
           (new 10 1000) pretty None 21 21 1 2 2 0
           (get (new 10 1000) (pretty 21) 1).2 500 501 501);
    [reflexivity|reflexivity|reflexivity|reflexivity|simpl; lia].
Defined.





(** What the replay of the example above holds: one cookie is lost and a
    content type has appeared. *)
Lemma withResponseCache_replay_example :
  let handler := (λ (url : string) (c : MemoryCache CachedValue),
                    (mkResponse 200 "OK"
                       {["set-cookie" := ["a=1"; "b=2"]; "x-trace" := ["7"]]} url, c)) in
  let other := (λ (_ : string) (c : MemoryCache CachedValue),
                  (mkResponse 500 "" ∅ "", c)) in
  let first := withResponseCache id (Some 1000) handler "/a" (new 500 300000) 1 2 2 in
  (withResponseCache id (Some 1000) other "/a" first.2 1002 1003 1003).1
  = Some (mkResponse 200 "OK"
            {["content-type" := ["text/plain;charset=UTF-8"]; "set-cookie" := ["b=2"];
              "x-trace" := ["7"]]} "/a").
Proof. vm_compute. reflexivity. Qed.

(** ** Bounded histories: the metrics store and the error queue *)

(** The last [cap] elements of a list. *)
Definition last_n {A} (cap : nat) (l : list A) : list A := drop (length l - cap) l.

Lemma tail_drop {A} (k : nat) (l : list A) : tail (drop k l) = drop (S k) l.
Proof.
  revert l. induction k as [|k IH]; intros [|x l]; simpl; done.
Qed.

(** [push] followed by [shift] when the bound is passed keeps the last
    [cap] elements. *)
Lemma push_shift_last_n {A} (cap : nat) (l : list A) (e : A) :
  let q := last_n cap l ++ [e] in
  (if decide (Z.of_nat cap < Z.of_nat (length q)) then tail q else q)
  = last_n cap (l ++ [e]).
Proof.
  unfold last_n. cbv zeta. rewrite !length_app, length_drop. simpl.
  destruct (decide (cap ≤ length l)%nat) as [Hle|Hgt].
  - rewrite decide_True by lia.
    rewrite <-drop_app_le by lia. rewrite tail_drop. f_equal. lia.
  - rewrite decide_False by lia.
    replace (length l - cap)%nat with 0%nat by lia.
    replace (length l + 1 - cap)%nat with 0%nat by lia. done.
Qed.

Lemma last_n_length {A} (cap : nat) (l : list A) :
  length (last_n cap l) = Nat.min (length l) cap.
Proof. unfold last_n. rewrite length_drop. lia. Qed.

Section error_queue.
Import ErrorHandler.

(** X15. The error queue holds the last 50 errors: after [clearErrors]
    and any sequence of [handleError] calls, [getRecentErrors] returns the
    normalised errors of the last 50 calls, in order. *)
Theorem errorQueue_keeps_last_50 (errors : list Thrown) :
  let queue := foldl handleError (clearErrors []) errors in
  getRecentErrors queue = last_n 50 (normalizeError <$> errors)
  ∧ (length queue ≤ 50)%nat
  ∧ length queue = Nat.min (length errors) 50.
Proof.
  assert (E : foldl handleError [] errors = last_n 50 (normalizeError <$> errors)).
  { induction errors as [|e errors IH] using rev_ind; [done|].
    rewrite foldl_app, fmap_app. simpl. rewrite IH.
    unfold handleError, addToQueue, maxQueueSize.
    apply (push_shift_last_n 50). }
  cbv zeta. unfold clearErrors, getRecentErrors. rewrite E.
  split; [done|]. rewrite last_n_length, length_fmap. lia.
Qed.

End error_queue.

Section metrics.
Import PerformanceMonitor.

Lemma recordMetric_same metrics name value :
  recordMetric metrics name value !! name
  = Some (let values := default [] (metrics !! name) ++ [value] in
          if decide (100 < Z.of_nat (length values)) then tail values else values).
Proof.
  unfold recordMetric. cbv zeta. rewrite lookup_insert_eq.
  destruct (metrics !! name) as [vs|] eqn:E.
  - rewrite bool_decide_eq_true_2 by eauto. by rewrite E.
  - rewrite bool_decide_eq_false_2 by (by intros [? ?]). by rewrite lookup_insert_eq.
Qed.

Lemma recordMetric_other metrics name value other :
  name ≠ other → recordMetric metrics name value !! other = metrics !! other.
Proof.
  intros Hne. unfold recordMetric. cbv zeta. rewrite lookup_insert_ne by done.
  destruct (bool_decide _); [done|]. by rewrite lookup_insert_ne.
Qed.

Lemma record_all_lookup (calls : list (string * Z)) (name : string) :
  record_all ∅ calls !! name
  = if decide (recorded name calls = []) then None
    else Some (last_n 100 (recorded name calls)).
Proof.
  induction calls as [|[n v] calls IH] using rev_ind; [done|].
  unfold record_all, recorded in *. rewrite foldl_app, filter_app, fmap_app. simpl.
  rewrite filter_cons, filter_nil. simpl.
  destruct (decide (n = name)) as [->|Hne].
  - rewrite recordMetric_same, IH. cbv zeta.
    set (r := snd <$> filter (λ call : string * Z, call.1 = name) calls).
    assert (Hne : r ++ [v] ≠ []).
    { intros H%(f_equal length). rewrite length_app in H. simpl in H. lia. }
    rewrite (decide_False (P := r ++ [v] = [])) by done. f_equal.
    destruct (decide (r = [])) as [E|E].
    + rewrite E. done.
    + cbn [default from_option]. apply (push_shift_last_n 100).
  - rewrite recordMetric_other, IH by done. simpl. by rewrite app_nil_r.
Qed.

(** X16. [recordMetric] keeps, for each metric name, the last 100 values
    recorded under that name, in the order recorded; a name has an entry
    exactly when a value was recorded under it. *)
Theorem recordMetric_keeps_last_100 (calls : list (string * Z)) (name : string) :
  let kept := default [] (record_all ∅ calls !! name) in
  kept = last_n 100 (recorded name calls)
  ∧ (length kept ≤ 100)%nat
  ∧ (is_Some (record_all ∅ calls !! name) ↔ recorded name calls ≠ []).
Proof.
  cbv zeta. rewrite record_all_lookup.
  destruct (decide (recorded name calls = [])) as [E|E]; simpl.
  - rewrite E. split; [done|]. split; [lia|]. split; [by intros [? ?]|done].
  - split; [done|]. split; [rewrite last_n_length; lia|]. split; [done|eauto].
Qed.

Lemma Math_min_spec (rest : list Z) : ∀ first,
  Math_min first rest ∈ first :: rest
  ∧ ∀ v, v ∈ first :: rest → Math_min first rest ≤ v.
Proof.
  unfold Math_min. induction rest as [|x rest IH]; intros first; simpl.
  - split; [by left|]. intros v Hv. apply list_elem_of_singleton in Hv as ->. lia.
  - destruct (IH (Z.min first x)) as [Hin Hle]. split.
    + apply elem_of_cons in Hin as [Hin|Hin]; [|by right; right].
      rewrite Hin. destruct (Z.min_spec first x) as [[_ ->]|[_ ->]]; [by left|by right; left].
    + intros v Hv.
      assert (foldl Z.min (Z.min first x) rest ≤ Z.min first x) by (apply Hle; by left).
      apply elem_of_cons in Hv as [->|Hv]; [lia|].
      apply elem_of_cons in Hv as [->|Hv]; [lia|].
      apply Hle. by right.
Qed.

Lemma Math_max_spec (rest : list Z) : ∀ first,
  Math_max first rest ∈ first :: rest
  ∧ ∀ v, v ∈ first :: rest → v ≤ Math_max first rest.
Proof.
  unfold Math_max. induction rest as [|x rest IH]; intros first; simpl.
  - split; [by left|]. intros v Hv. apply list_elem_of_singleton in Hv as ->. lia.
  - destruct (IH (Z.max first x)) as [Hin Hle]. split.
    + apply elem_of_cons in Hin as [Hin|Hin]; [|by right; right].
      rewrite Hin. destruct (Z.max_spec first x) as [[_ ->]|[_ ->]]; [by right; left|by left].
    + intros v Hv.
      assert (Z.max first x ≤ foldl Z.max (Z.max first x) rest) by (apply Hle; by left).
      apply elem_of_cons in Hv as [->|Hv]; [lia|].
      apply elem_of_cons in Hv as [->|Hv]; [lia|].
      apply Hle. by right.
Qed.

Lemma sum_bounds (l : list Z) (lo hi : Z) : ∀ acc,
  (∀ v, v ∈ l → lo ≤ v ≤ hi) →
  acc + lo * Z.of_nat (length l) ≤ foldl Z.add acc l ≤ acc + hi * Z.of_nat (length l).
Proof.
  induction l as [|x l IH]; intros acc Hb; simpl; [lia|].
  assert (lo ≤ x ≤ hi) by (apply Hb; by left).
  specialize (IH (acc + x)). 
  assert (Hb' : ∀ v, v ∈ l → lo ≤ v ≤ hi) by (intros v Hv; apply Hb; by right).
  specialize (IH Hb'). lia.
Qed.

Lemma Qdiv_between (sum lo hi n : Z) :
  0 < n → lo * n ≤ sum ≤ hi * n →
  (inject_Z lo <= inject_Z sum / inject_Z n)%Q ∧ (inject_Z sum / inject_Z n <= inject_Z hi)%Q.
Proof.
  intros Hn Hb. destruct n as [|p|p]; try lia.
  unfold Qle, Qdiv, Qmult, Qinv, inject_Z. simpl. lia.
Qed.

(** X17. [getMetricStats] returns [null] exactly when nothing was
    recorded under the name; otherwise [count] is the number of kept values
    (1 to 100), [min] and [max] are kept values that bound all of them, and
    [avg] lies between [min] and [max]. *)
Theorem getMetricStats_summarises (calls : list (string * Z)) (name : string) :
  let kept := last_n 100 (recorded name calls) in
  match getMetricStats (record_all ∅ calls) name with
  | None => recorded name calls = []
  | Some stats =>
      count stats = Z.of_nat (length kept)
      ∧ 1 ≤ count stats ≤ 100
      ∧ min stats ∈ kept ∧ max stats ∈ kept
      ∧ (∀ v, v ∈ kept → min stats ≤ v ≤ max stats)
      ∧ (inject_Z (min stats) <= avg stats)%Q
      ∧ (avg stats <= inject_Z (max stats))%Q
  end.
Proof.
  cbv zeta. unfold getMetricStats. rewrite record_all_lookup.
  destruct (decide (recorded name calls = [])) as [E|E]; [done|].
  pose proof (last_n_length 100 (recorded name calls)) as Hlen.
  destruct (last_n 100 (recorded name calls)) as [|first rest] eqn:Hk.
  { simpl in Hlen. destruct (recorded name calls); [done|simpl in Hlen; lia]. }
  destruct (Math_min_spec rest first) as [Hmin_in Hmin].
  destruct (Math_max_spec rest first) as [Hmax_in Hmax].
  cbn [count min max avg]. split; [done|]. split; [simpl in *; lia|].
  split; [done|]. split; [done|]. split; [by intros v Hv; split; auto|].
  pose proof (sum_bounds (first :: rest) (Math_min first rest) (Math_max first rest) 0) as Hs.
  assert (Hb : ∀ v, v ∈ first :: rest → Math_min first rest ≤ v ≤ Math_max first rest)
    by (by intros v Hv; split; auto).
  specialize (Hs Hb).
  apply Qdiv_between; [simpl; lia|lia].
Qed.

End metrics.

(** ** The error module: responses and retries *)

Section errors.
Import ErrorHandler Lqa.

(** The default texts are not empty, so [BaseError] always sets a user
    message. *)
Lemma default_message_nonempty type : getDefaultUserMessage type ≠ "".
Proof. by destruct type. Qed.

Lemma BaseError_userMessage message type statusCode isOperational userMessage :
  ∃ shown, ErrorHandler.userMessage (BaseError message type statusCode isOperational userMessage)
           = Some shown
    ∧ shown ≠ ""
    ∧ shown = (if Js.truthy_string userMessage then default "" userMessage
               else getDefaultUserMessage type).
Proof.
  unfold BaseError. simpl. eexists. split; [done|]. split; [|done].
  destruct userMessage as [um|]; simpl; [|apply default_message_nonempty].
  destruct (bool_decide (um ≠ "")) eqn:E; [by apply bool_decide_eq_true_1 in E|].
  apply default_message_nonempty.
Qed.

Lemma init_status_cases (statusCode : Z) :
  match Fetch.init_status statusCode with
  | Some status =>
      status = statusCode mod 65536 ∧ 200 ≤ status ≤ 599 ∧ (status ∉ [204; 205; 304])
  | None =>
      ¬ (200 ≤ statusCode mod 65536 ≤ 599) ∨ statusCode mod 65536 ∈ [204; 205; 304]
  end.
Proof.
  unfold Fetch.init_status, Fetch.ToUint16, Fetch.null_body_status. cbv zeta.
  set (status := statusCode mod 65536).
  case_bool_decide as Hrange; cbn [andb]; [|by left].
  rewrite (bool_decide_ext (status ∈ [101; 103; 204; 205; 304]) (status ∈ [204; 205; 304]))
    by (rewrite !elem_of_cons, !elem_of_nil; lia).
  case_bool_decide as Hnull; cbn [negb]; [by right|done].
Qed.

(** X18. What [handleApiError] shows.  Outside development the body has
    no [details].  A thrown value that is not an [AppError] gives status
    500, the generic text and the type [INTERNAL_SERVER], whatever its
    message.  For an error built by [BaseError], [handleApiError] throws
    itself when the status code, as an unsigned 16-bit number, is outside
    200 to 599 or is 204, 205 or 304; otherwise the response has that
    status and the error's type, and as text the user message if that is
    not empty, otherwise the default text of the type. *)
Theorem handleApiError_hides_internals (error : Thrown) :
  (∀ response, handleApiError false error = Some response → body_details response = None)
  ∧ (isAppError error = false →
     ∀ development, ∃ response,
       handleApiError development error = Some response
       ∧ status response = 500
       ∧ body_error response = "An unexpected error occurred. Please try again."
       ∧ body_type response = INTERNAL_SERVER)
  ∧ (∀ message type statusCode isOperational userMessage development,
       let built := BaseError message type statusCode isOperational userMessage in
       match handleApiError development (ThrownApp built) with
       | Some response =>
           status response = statusCode mod 65536
           ∧ 200 ≤ status response ≤ 599
           ∧ (status response ∉ [204; 205; 304])
           ∧ body_type response = type
           ∧ body_error response
             = (if Js.truthy_string userMessage then default "" userMessage
                else getDefaultUserMessage type)
       | None =>
           ¬ (200 ≤ statusCode mod 65536 ≤ 599) ∨ statusCode mod 65536 ∈ [204; 205; 304]
       end).
Proof.
  split; [|split].
  - intros response. unfold handleApiError, json_response.
    destruct error as [e| |]; [destruct (Fetch.init_status (statusCode e))|..];
      simpl; by intros [= <-].
  - intros Hno development. destruct error as [e|m|]; [done|..]; by eexists.
  - intros message type statusCode isOperational userMessage development.
    cbv zeta.
    destruct (BaseError_userMessage message type statusCode isOperational userMessage)
      as (shown & Hum & Hne & ->).
    unfold handleApiError, json_response. rewrite Hum. simpl Js.truthy_string.
    rewrite bool_decide_eq_true_2 by done.
    change (ErrorHandler.statusCode (BaseError message type statusCode isOperational
                                       userMessage)) with statusCode.
    pose proof (init_status_cases statusCode) as Hc.
    destruct (Fetch.init_status statusCode) as [status|]; simpl; [|done].
    destruct Hc as (-> & ? & ?). done.
Qed.

Section retry_facts.
Context {T : Type}.
Context (operation : nat → Outcome T) (random : nat → Q) (maxRetries baseDelay maxDelay : Z).

(** The sleeps after the attempts [from], ..., [from + n - 1]. *)
Definition planned_sleeps (from n : nat) : list Q :=
  (λ j, with_jitter (backoff baseDelay maxDelay j) (random j)) <$> seq from n.

(** How the call ends when the outcome [o] is its last. *)
Definition ending_of (o : Outcome T) : Ending T :=
  match o with
  | Resolves value => Returned value
  | Rejects error => Threw (Some error)
  end.

(** An attempt after which the loop stops: the operation resolved, or it
    rejected with an error that is not retried, or it was the last one. *)
Definition decisive (attempt : nat) : Prop :=
  match operation attempt with
  | Resolves _ => True
  | Rejects error => non_retryable error = true ∨ Z.of_nat attempt = maxRetries
  end.

(** An attempt that rejected with an error that is retried. *)
Definition retried (attempt : nat) : Prop :=
  ∃ error, operation attempt = Rejects error ∧ non_retryable error = false.

Lemma retry_loop_decisive (k : nat) : ∀ attempt fuel lastError slept,
  (k < fuel)%nat →
  (∀ j, (attempt ≤ j < attempt + k)%nat → retried j ∧ Z.of_nat j ≠ maxRetries) →
  decisive (attempt + k) →
  retry_loop operation random maxRetries baseDelay maxDelay fuel attempt lastError slept
  = mkRetryRun (ending_of (operation (attempt + k))) (S (attempt + k))
      (slept ++ planned_sleeps attempt k).
Proof.
  induction k as [|k IH]; intros attempt fuel lastError slept Hfuel Hbefore Hdec.
  - destruct fuel as [|fuel]; [lia|]. rewrite Nat.add_0_r in *.
    unfold planned_sleeps. simpl. rewrite app_nil_r.
    unfold decisive in Hdec. destruct (operation attempt) as [v|e]; [done|].
    destruct Hdec as [Hfatal|Hlast]; simpl.
    + case_decide; [done|]. by rewrite Hfatal.
    + by rewrite decide_True.
  - destruct fuel as [|fuel]; [lia|].
    destruct (Hbefore attempt) as [(e & He & Hretry) Hne]; [lia|].
    simpl. rewrite He, decide_False, Hretry by done.
    rewrite (IH (S attempt)); [| lia | | ].
    + replace (S attempt + k)%nat with (attempt + S k)%nat by lia.
      unfold planned_sleeps. simpl. by rewrite <-app_assoc.
    + intros j Hj. apply Hbefore. lia.
    + by replace (S attempt + k)%nat with (attempt + S k)%nat by lia.
Qed.

Lemma retry_loop_shape (fuel : nat) : ∀ attempt lastError slept,
  Z.of_nat attempt + Z.of_nat fuel = maxRetries + 1 →
  let run := retry_loop operation random maxRetries baseDelay maxDelay fuel attempt
               lastError slept in
  (fuel = 0%nat ∧ run = mkRetryRun (Threw lastError) attempt slept)
  ∨ ∃ n, (n < fuel)%nat ∧ calls run = S (attempt + n)
       ∧ sleeps run = slept ++ planned_sleeps attempt n
       ∧ ending run = ending_of (operation (attempt + n)).
Proof.
  induction fuel as [|fuel IH]; intros attempt lastError slept Hinv; [by left|].
  right. simpl.
  destruct (operation attempt) as [v|e] eqn:Hop.
  { exists 0%nat. rewrite Nat.add_0_r, Hop. unfold planned_sleeps. simpl.
    rewrite app_nil_r. split; [lia|done]. }
  case_decide.
  { exists 0%nat. rewrite Nat.add_0_r, Hop. unfold planned_sleeps. simpl.
    rewrite app_nil_r. split; [lia|done]. }
  destruct (non_retryable e).
  { exists 0%nat. rewrite Nat.add_0_r, Hop. unfold planned_sleeps. simpl.
    rewrite app_nil_r. split; [lia|done]. }
  destruct (IH (S attempt) (Some e)
              (slept ++ [with_jitter (backoff baseDelay maxDelay attempt) (random attempt)]))
    as [[-> Hrun]|(n & Hn & Hc & Hs & He)]; [lia|lia|].
  exists (S n). split; [lia|]. rewrite Hc, Hs, He.
  replace (attempt + S n)%nat with (S attempt + n)%nat by lia.
  split; [done|]. split; [|done]. unfold planned_sleeps. simpl. by rewrite <-app_assoc.
Qed.

Lemma with_jitter_bounds (delay : Z) (r : Q) :
  0 ≤ delay → (0 <= r)%Q → (r < 1)%Q →
  (inject_Z delay <= with_jitter delay r)%Q
  ∧ (with_jitter delay r <= (11 # 10) * inject_Z delay)%Q.
Proof.
  intros Hd H0 H1. unfold with_jitter.
  assert (HD : (0 <= inject_Z delay)%Q).
  { unfold Qle, inject_Z. simpl. lia. }
  set (D := inject_Z delay) in *. split; nra.
Qed.

End retry_facts.

(** X19. [retryWithBackoff] stops at the first decisive attempt: the first
    one, not past [maxRetries], at which the operation resolves, or rejects
    with an error that is not retried, or which is attempt [maxRetries].
    It then returns that value or throws that error, has called the
    operation once per attempt, and has slept once before each retry, for
    the capped exponential delay with its jitter. *)
Theorem retryWithBackoff_stops_at_first_decisive {T} (operation : nat → Outcome T)
    (random : nat → Q) (maxRetries baseDelay maxDelay : Z) (attempt : nat) :
  Z.of_nat attempt ≤ maxRetries →
  (∀ j, (j < attempt)%nat → retried operation j) →
  decisive operation maxRetries attempt →
  let run := retryWithBackoff operation random maxRetries baseDelay maxDelay in
  ending run = ending_of (operation attempt)
  ∧ calls run = S attempt
  ∧ sleeps run = planned_sleeps random baseDelay maxDelay 0 attempt.
Proof.
  intros Hle Hbefore Hdec run. subst run. unfold retryWithBackoff.
  rewrite (retry_loop_decisive operation random maxRetries baseDelay maxDelay attempt 0);
    [done|lia| |done].
  intros j Hj. split; [apply Hbefore; lia|lia].
Qed.

Lemma retryWithBackoff_stops_at_first_decisive_witness :
  let operation := (λ i : nat, if decide (i < 2)%nat then Rejects (ThrownError "reset")
                               else Resolves 7) in
  let random := (λ _ : nat, (1 # 2)%Q) in
  let run := retryWithBackoff operation random 3 1000 10000 in
  ending run = ending_of (operation 2%nat)
  ∧ calls run = 3%nat
  ∧ sleeps run = planned_sleeps random 1000 10000 0 2.
Proof.
  apply (retryWithBackoff_stops_at_first_decisive
           (λ i : nat, if decide (i < 2)%nat then Rejects (ThrownError "reset")
                       else Resolves 7)
           (λ _ : nat, (1 # 2)%Q) 3 1000 10000 2).
  - lia.
  - intros [|[|j]] Hj; [by eexists..|lia].
  - exact I.
Defined.

(** X20. [retryWithBackoff] is bounded.  With delays that are not negative
    and random numbers in [0, 1), it calls the operation at most
    [maxRetries + 1] times (never, throwing [undefined], when [maxRetries]
    is negative), sleeps once between two calls, ends with the outcome of
    its last call, and no sleep is longer than 1.1 times [maxDelay]. *)
Theorem retryWithBackoff_bounded {T} (operation : nat → Outcome T)
    (random : nat → Q) (maxRetries baseDelay maxDelay : Z) :
  0 ≤ baseDelay → 0 ≤ maxDelay →
  (∀ j, (0 <= random j)%Q ∧ (random j < 1)%Q) →
  let run := retryWithBackoff operation random maxRetries baseDelay maxDelay in
  Z.of_nat (calls run) ≤ Z.max 0 (maxRetries + 1)
  ∧ length (sleeps run) = pred (calls run)
  ∧ (maxRetries < 0 → run = mkRetryRun (Threw None) 0 [])
  ∧ (0 ≤ maxRetries → ending run = ending_of (operation (pred (calls run))))
  ∧ Forall (λ s, (0 <= s)%Q ∧ (s <= (11 # 10) * inject_Z maxDelay)%Q) (sleeps run).
Proof.
  intros Hb Hm Hr run. subst run. unfold retryWithBackoff.
  destruct (decide (maxRetries < 0)) as [Hneg|Hpos].
  { replace (Z.to_nat (maxRetries + 1)) with 0%nat by lia. simpl.
    split; [lia|]. split; [done|]. split; [done|]. split; [lia|constructor]. }
  destruct (retry_loop_shape operation random maxRetries baseDelay maxDelay
              (Z.to_nat (maxRetries + 1)) 0 None [])
    as [[Hz _]|(n & Hn & Hc & Hs & He)]; [lia|lia|].
  cbv zeta. rewrite Hc, Hs, He. simpl.
  split; [lia|]. split; [unfold planned_sleeps; by rewrite length_fmap, length_seq|].
  split; [lia|]. split; [done|].
  unfold planned_sleeps. apply Forall_fmap, Forall_forall. intros j _. simpl.
  assert (Hback : 0 ≤ backoff baseDelay maxDelay j ≤ maxDelay).
  { unfold backoff. pose proof (Z.pow_nonneg 2 (Z.of_nat j)). nia. }
  destruct (with_jitter_bounds (backoff baseDelay maxDelay j) (random j))
    as [Hlo Hhi]; [lia|apply Hr..|].
  assert (H0 : (0 <= inject_Z (backoff baseDelay maxDelay j))%Q).
  { unfold Qle, inject_Z. simpl. lia. }
  assert (H1 : (inject_Z (backoff baseDelay maxDelay j) <= inject_Z maxDelay)%Q).
  { unfold Qle, inject_Z. simpl. lia. }
  split; lra.
Qed.

Lemma retryWithBackoff_bounded_witness :
  let operation := (λ i : nat, if decide (i < 2)%nat then Rejects (ThrownError "reset")
                               else Resolves 7) in
  let random := (λ _ : nat, (1 # 2)%Q) in
  let run := retryWithBackoff operation random 3 1000 10000 in
  Z.of_nat (calls run) ≤ Z.max 0 (3 + 1)
  ∧ length (sleeps run) = pred (calls run)
  ∧ (3 < 0 → run = mkRetryRun (Threw None) 0 [])
  ∧ (0 ≤ 3 → ending run = ending_of (operation (pred (calls run))))
  ∧ Forall (λ s, (0 <= s)%Q ∧ (s <= (11 # 10) * inject_Z 10000)%Q) (sleeps run).
Proof.
  apply (retryWithBackoff_bounded
           (λ i : nat, if decide (i < 2)%nat then Rejects (ThrownError "reset")
                       else Resolves 7)
           (λ _ : nat, (1 # 2)%Q) 3 1000 10000); [lia|lia|].
  intros j. split; [discriminate|reflexivity].
Defined.

End errors.

(** ** The stored file name *)

Section stored_name.
Import Upload.

Lemma replace_unsafe_facts (s : list Z) : ∀ in_run,
  Forall (λ c, safe c = true) (replace_unsafe in_run s)
  ∧ (length (replace_unsafe in_run s) ≤ length s)%nat
  ∧ (Forall (λ c, safe c = true) s → replace_unsafe in_run s = s).
Proof.
  induction s as [|c s IH]; intros in_run; simpl; [done|].
  destruct (safe c) eqn:Hc.
  - destruct (IH false) as (Hs & Hl & Hid). split; [by constructor|]. split; [simpl; lia|].
    intros Hall. apply Forall_cons in Hall as [_ Hall]. by rewrite Hid.
  - destruct (IH true) as (Hs & Hl & Hid). destruct in_run.
    + split; [done|]. split; [lia|]. intros Hall. apply Forall_cons in Hall as [? _]. congruence.
    + split; [by constructor|]. split; [simpl; lia|].
      intros Hall. apply Forall_cons in Hall as [? _]. congruence.
Qed.

(** X21. The name under which [saveIncomingFile] writes a file is a stem
    followed by the extension, where the stem holds only letters, digits,
    [-] and [_] (so no slash, backslash, dot or NUL), is not empty and at
    most 11 code units longer than the base name, and is the base name, an
    underscore and the first ten digits of the hash when the base name is
    already clean. *)
Theorem fileName_is_sanitised (base ext hash : list Z) :
  Forall (λ c, safe c = true) hash →
  ∃ stem, fileName base ext hash = stem ++ ext
    ∧ Forall (λ c, safe c = true) stem
    ∧ (47 ∉ stem) ∧ (92 ∉ stem) ∧ (46 ∉ stem) ∧ (0 ∉ stem)
    ∧ (1 ≤ length stem ≤ length base + 11)%nat
    ∧ (Forall (λ c, safe c = true) base →
       stem = base ++ [95] ++ take 10 hash).
Proof.
  intros Hhash. unfold fileName. cbv zeta.
  exists (replace_unsafe false base ++ [95] ++ take 10 hash).
  destruct (replace_unsafe_facts base false) as (Hs & Hl & Hid).
  assert (Hstem : Forall (λ c, safe c = true)
                    (replace_unsafe false base ++ [95] ++ take 10 hash)).
  { apply Forall_app. split; [done|]. apply Forall_app. split; [by constructor|].
    by apply Forall_take. }
  assert (Hnot : ∀ c, safe c = false →
            c ∉ replace_unsafe false base ++ [95] ++ take 10 hash).
  { intros c Hc Hin. rewrite Forall_forall in Hstem. specialize (Hstem c Hin). congruence. }
  split; [by rewrite <-!app_assoc|]. split; [done|].
  split; [by apply Hnot|]. split; [by apply Hnot|]. split; [by apply Hnot|].
  split; [by apply Hnot|]. split.
  - rewrite length_app. simpl. rewrite length_take. lia.
  - intros Hb. by rewrite Hid.
Qed.

Lemma fileName_is_sanitised_witness :
  ∃ stem, fileName (Js.code_units "../etc/my report") (Js.code_units ".pdf")
            (Js.code_units "da39a3ee5e6b4b0d3255bfef95601890afd80709") = stem ++ Js.code_units ".pdf"
    ∧ Forall (λ c, safe c = true) stem
    ∧ (47 ∉ stem) ∧ (92 ∉ stem) ∧ (46 ∉ stem) ∧ (0 ∉ stem)
    ∧ (1 ≤ length stem ≤ length (Js.code_units "../etc/my report") + 11)%nat
    ∧ (Forall (λ c, safe c = true) (Js.code_units "../etc/my report") →
       stem = Js.code_units "../etc/my report" ++ [95]
              ++ take 10 (Js.code_units "da39a3ee5e6b4b0d3255bfef95601890afd80709")).
Proof.
  apply (fileName_is_sanitised (Js.code_units "../etc/my report") (Js.code_units ".pdf")
           (Js.code_units "da39a3ee5e6b4b0d3255bfef95601890afd80709")).
  apply (bool_decide_unpack _). vm_compute. exact I.
Defined.

End stored_name.

(** ** The chat route: refusals and repeats *)

(** The bucket key of a chat request. *)
Definition chat_key (req : Request) : string :=
  "chat:" +:+ ipFromHeaders (req_headers req).


Lemma POST_refused srv req clk upstream :
  allowed (rateLimit (buckets srv) (chat_key req) 60 60000 (t_limit clk)).1 = false →
  POST srv req clk upstream
  = (handleApiError RateLimitError,
     mkServer (rateLimit (buckets srv) (chat_key req) 60 60000 (t_limit clk)).2
       (responseCache srv)).
Proof.
  unfold POST, chat_key. destruct (rateLimit _ _ _ _ _) as [rl bs]. simpl.
  by intros ->.
Qed.

Lemma POST_invalid srv req clk upstream :
  allowed (rateLimit (buckets srv) (chat_key req) 60 60000 (t_limit clk)).1 = true →
  req_json req ≫= bodySchema_parse = None →
  POST srv req clk upstream
  = (handleApiError OtherError,
     mkServer (rateLimit (buckets srv) (chat_key req) 60 60000 (t_limit clk)).2
       (responseCache srv)).
Proof.
  unfold POST, chat_key. destruct (rateLimit _ _ _ _ _) as [rl bs]. simpl.
  by intros -> ->.
Qed.


(** X22. A chat request from a caller whose bucket holds 60 timestamps of
    the last minute is answered 429 with the rate-limit error; the response
    cache is not touched, and the refused request adds no timestamp to the
    bucket. *)
Theorem chat_rate_limited (srv : Server) (req : Request) (clk : Clock)
    (upstream : Upstream) :
  60 ≤ Z.of_nat (length (filter (λ t, t_limit clk - t < 60000)
                           (bucket_timestamps (buckets srv) (chat_key req)))) →
  let out := POST srv req clk upstream in
  status out.1 = 429
  ∧ payload out.1 = ErrorPayload RateLimitError
  ∧ responseCache out.2 = responseCache srv
  ∧ bucket_timestamps (buckets out.2) (chat_key req)
    = filter (λ t, t_limit clk - t < 60000)
        (bucket_timestamps (buckets srv) (chat_key req)).
Proof.
  intros Hfull out. subst out.
  assert (Hden : allowed (rateLimit (buckets srv) (chat_key req) 60 60000 (t_limit clk)).1
                 = false).
  { rewrite rateLimit_allowed. apply bool_decide_eq_false_2. lia. }
  rewrite POST_refused by done. simpl.
  split; [done|]. split; [done|]. split; [done|].
  by rewrite rateLimit_timestamps, Hden.
Qed.

Lemma chat_rate_limited_witness :
  let srv := mkServer {["chat:unknown" := mkBucket (replicate 60 0) 60 60000]}
               (new 500 300000) in
  let out := POST srv example_request (mkClock 10 11 12 12) example_failure in
  status out.1 = 429
  ∧ payload out.1 = ErrorPayload RateLimitError
  ∧ responseCache out.2 = responseCache srv
  ∧ bucket_timestamps (buckets out.2) (chat_key example_request)
    = filter (λ t, t_limit (mkClock 10 11 12 12) - t < 60000)
        (bucket_timestamps (buckets srv) (chat_key example_request)).
Proof.
  apply (chat_rate_limited
           (mkServer {["chat:unknown" := mkBucket (replicate 60 0) 60 60000]}
              (new 500 300000))
           example_request (mkClock 10 11 12 12) example_failure).
  vm_compute. discriminate.
Defined.

(** X23. A chat request that the limiter lets through and whose body is
    rejected ([req.json()] or [bodySchema.parse] throwing) is answered 500,
    leaves the response cache untouched, and still counts against the
    caller's quota. *)
Theorem chat_invalid_body_costs_quota (srv : Server) (req : Request) (clk : Clock)
    (upstream : Upstream) :
  req_json req ≫= bodySchema_parse = None →
  allowed (rateLimit (buckets srv) (chat_key req) 60 60000 (t_limit clk)).1 = true →
  let out := POST srv req clk upstream in
  status out.1 = 500
  ∧ payload out.1 = ErrorPayload OtherError
  ∧ responseCache out.2 = responseCache srv
  ∧ bucket_timestamps (buckets out.2) (chat_key req)
    = filter (λ t, t_limit clk - t < 60000)
        (bucket_timestamps (buckets srv) (chat_key req)) ++ [t_limit clk].
Proof.
  intros Hbad Hal out. subst out. rewrite POST_invalid by done. simpl.
  split; [done|]. split; [done|]. split; [done|].
  by rewrite rateLimit_timestamps, Hal.
Qed.

Lemma chat_invalid_body_costs_quota_witness :
  let srv := mkServer ∅ (new 500 300000) in
  let req := mkRequest ∅ (Some (mkBody (Js.code_units "hi") None None None None)) in
  let out := POST srv req (mkClock 10 11 12 12) example_failure in
  status out.1 = 500
  ∧ payload out.1 = ErrorPayload OtherError
  ∧ responseCache out.2 = responseCache srv
  ∧ bucket_timestamps (buckets out.2) (chat_key req)
    = filter (λ t, t_limit (mkClock 10 11 12 12) - t < 60000)
        (bucket_timestamps (buckets srv) (chat_key req)) ++ [t_limit (mkClock 10 11 12 12)].
Proof.
  apply (chat_invalid_body_costs_quota (mkServer ∅ (new 500 300000))
           (mkRequest ∅ (Some (mkBody (Js.code_units "hi") None None None None)))
           (mkClock 10 11 12 12) example_failure); reflexivity.
Defined.



(** ** The upload route *)

Section upload_route.
Import UploadRoute.

(** Lower case on the letters A to Z, for the examples. *)
Fixpoint ascii_lower (s : string) : string :=
  match s with
  | String c r =>
      let n := N_of_ascii c in
      String (if bool_decide (65 ≤ n ≤ 90)%N then ascii_of_N (n + 32) else c) (ascii_lower r)
  | EmptyString => EmptyString
  end.

(** The message of every library error in the examples. *)
Definition example_message (failure : Failure) : string := "failed".

(** A store that saves every file under its own name. *)
Definition example_save (f : File) : option string :=
  Some ("/storage/uploads/" +:+ f_name f).

(** [endsWith] holds of every suffix [substring] cuts. *)
Lemma rev_app_spec (s acc : string) : String.rev_app s acc = String.rev s +:+ acc.
Proof.
  unfold String.rev. revert acc. induction s as [|c s IH]; intros acc; simpl; [done|].
  rewrite (IH (String c acc)), (IH (String c "")).
  clear. induction (String.rev_app s "") as [|d r IHr]; [done|].
  rewrite !app_String. by rewrite IHr.
Qed.

Lemma rev_String c s : String.rev (String c s) = String.rev s +:+ String c "".
Proof. unfold String.rev at 1. simpl. apply rev_app_spec. Qed.

Lemma string_app_assoc (a b c : string) : (a +:+ b) +:+ c = a +:+ (b +:+ c).
Proof. induction a as [|x a IH]; [done|]. rewrite !app_String. by rewrite IH. Qed.

Lemma string_prefix_app (a b : string) : String.prefix a (a +:+ b) = true.
Proof.
  induction a as [|x a IH]; [by destruct b|].
  rewrite app_String. simpl. destruct (ascii_dec x x); [done|congruence].
Qed.

Lemma drop_chars_suffix (n : nat) : ∀ s, ∃ pre, s = pre +:+ drop_chars n s.
Proof.
  induction n as [|n IH]; intros s; [by exists ""; destruct s|].
  destruct s as [|c s]; [by exists ""|]. simpl.
  destruct (IH s) as [pre Hpre]. exists (String c pre). rewrite app_String. by f_equal.
Qed.

Lemma string_rev_app (a b : string) : String.rev (a +:+ b) = String.rev b +:+ String.rev a.
Proof.
  induction a as [|x a IH].
  - rewrite app_Empty. clear. induction (String.rev b) as [|d r IHr]; [done|].
    rewrite app_String. by f_equal.
  - rewrite app_String, !rev_String, IH. apply string_app_assoc.
Qed.

Lemma endsWith_drop_chars (n : nat) (s : string) : endsWith s (drop_chars n s) = true.
Proof.
  destruct (drop_chars_suffix n s) as [pre Hpre]. unfold endsWith.
  rewrite Hpre at 2. rewrite string_rev_app. apply string_prefix_app.
Qed.

(** The cases of membership in a literal list. *)
Ltac elems H :=
  repeat (apply elem_of_cons in H; destruct H as [H|H]);
  try (by apply elem_of_nil in H).

(** No name ends both in an allowed extension and in one of the extension
    patterns. *)
Lemma at_end_never_after_allowed_extension (text ext pre : string) :
  AtEnd text ∈ SUSPICIOUS_PATTERNS → ext ∈ ALLOWED_EXTENSIONS →
  matches_at_end text (pre +:+ ext) = false.
Proof.
  intros Hp He. unfold matches_at_end. rewrite string_rev_app.
  generalize (String.rev pre). intros x.
  unfold SUSPICIOUS_PATTERNS in Hp. unfold ALLOWED_EXTENSIONS in He.
  elems Hp; simplify_eq; elems He; subst; by vm_compute.
Qed.

(** The [File] entries of a form, in order. *)
Definition files_of (entries : list FormEntry) : list File :=
  omap (λ e, match e with FileEntry f => Some f | TextEntry _ => None end) entries.

Section upload_facts.
Context (toLowerCase : string → string).
Context (saveIncomingFile : File → option string).
Context (development : bool).
Context (library_message : Failure → string).

Local Abbreviation check_file := (check_file toLowerCase).
Local Abbreviation save_files := (save_files toLowerCase saveIncomingFile).
Local Abbreviation POST := (POST toLowerCase saveIncomingFile development library_message).
Local Abbreviation thrown := (thrown library_message).
Local Abbreviation fail := (UploadRoute.fail development library_message).

(** A file that passes every check of the loop body. *)
Definition acceptable (f : File) : Prop :=
  f_size f ≤ MAX_FILE_SIZE
  ∧ (∃ ext, ext ∈ ALLOWED_EXTENSIONS ∧ endsWith (toLowerCase (f_name f)) ext = true)
  ∧ ∀ text, Anywhere text ∈ SUSPICIOUS_PATTERNS →
      matches_anywhere text (toLowerCase (f_name f)) = false.

Lemma fileExt_allowed_endsWith (f : File) :
  substring (toLowerCase (f_name f)) (lastIndexOf "." (f_name f)) ∈ ALLOWED_EXTENSIONS →
  existsb (λ ext, endsWith (toLowerCase (f_name f)) ext) ALLOWED_EXTENSIONS = true.
Proof.
  intros Hin. apply existsb_exists. eexists. split; [by apply list_elem_of_In|].
  apply endsWith_drop_chars.
Qed.

Lemma check_file_cases (f : File) (totalSize : Z) :
  match check_file f totalSize with
  | None => acceptable f ∧ totalSize + f_size f ≤ MAX_TOTAL_SIZE
  | Some (FileTooLarge f') => f' = f ∧ MAX_FILE_SIZE < f_size f
  | Some (TotalTooLarge total) =>
      total = totalSize + f_size f ∧ MAX_TOTAL_SIZE < total ∧ f_size f ≤ MAX_FILE_SIZE
  | Some (BadExtension f' fileExt) =>
      f' = f ∧ (fileExt ∉ ALLOWED_EXTENSIONS)
      ∧ fileExt = substring (toLowerCase (f_name f)) (lastIndexOf "." (f_name f))
  | Some (SuspiciousName f') =>
      f' = f ∧ ∃ text, Anywhere text ∈ SUSPICIOUS_PATTERNS
                 ∧ matches_anywhere text (toLowerCase (f_name f)) = true
  | Some _ => False
  end.
Proof.
  unfold UploadRoute.check_file.
  destruct (decide (MAX_FILE_SIZE < f_size f)) as [|Hsize]; [done|].
  cbv zeta. destruct (decide (MAX_TOTAL_SIZE < totalSize + f_size f)) as [|Htotal];
    [split; [done|split; [done|lia]]|].
  set (fileExt := substring _ _).
  destruct (bool_decide (fileExt ∈ ALLOWED_EXTENSIONS)) eqn:Hext; cbn [negb];
    [apply bool_decide_eq_true_1 in Hext|apply bool_decide_eq_false_1 in Hext; done].
  pose proof (fileExt_allowed_endsWith f Hext) as Hends.
  destruct (drop_chars_suffix (Z.to_nat (lastIndexOf "." (f_name f))) (toLowerCase (f_name f)))
    as [pre Hpre]. fold (substring (toLowerCase (f_name f)) (lastIndexOf "." (f_name f))) in Hpre.
  fold fileExt in Hpre.
  destruct (existsb (λ pattern, test pattern (toLowerCase (f_name f)))
              SUSPICIOUS_PATTERNS) eqn:Hsus.
  - cbv iota beta. split; [done|]. apply existsb_exists in Hsus as (pattern & Hin & Htest).
    apply list_elem_of_In in Hin. destruct pattern as [text|text]; simpl in Htest.
    + rewrite Hpre, at_end_never_after_allowed_extension in Htest by done. done.
    + by exists text.
  - rewrite Hends, andb_false_r. cbv iota beta. split; [|lia]. split; [lia|]. split.
    + apply existsb_exists in Hends as (ext & Hin & He). exists ext.
      split; [by apply list_elem_of_In|done].
    + intros text Hin. destruct (matches_anywhere text _) eqn:Hm; [|done].
      assert (existsb (λ pattern, test pattern (toLowerCase (f_name f))) SUSPICIOUS_PATTERNS
              = true); [|congruence].
      apply existsb_exists. exists (Anywhere text). split; [by apply list_elem_of_In|done].
Qed.

(** What a failure of the loop says about the file that caused it. *)
Definition justified (failure : Failure) : Prop :=
  match failure with
  | FileTooLarge f => MAX_FILE_SIZE < f_size f
  | TotalTooLarge totalSize => MAX_TOTAL_SIZE < totalSize
  | BadExtension f fileExt =>
      (fileExt ∉ ALLOWED_EXTENSIONS)
      ∧ fileExt = substring (toLowerCase (f_name f)) (lastIndexOf "." (f_name f))
  | SuspiciousName f =>
      ∃ text, Anywhere text ∈ SUSPICIOUS_PATTERNS
        ∧ matches_anywhere text (toLowerCase (f_name f)) = true
  | SaveFailed f => acceptable f ∧ saveIncomingFile f = None
  | _ => False
  end.

Lemma check_file_justified (f : File) (totalSize : Z) (failure : Failure) :
  UploadRoute.check_file toLowerCase f totalSize = Some failure → justified failure.
Proof.
  intros E. pose proof (check_file_cases f totalSize) as Hc. rewrite E in Hc.
  destruct failure; simpl; try done.
  - by destruct Hc as [-> ?].
  - by destruct Hc as (-> & ? & _).
  - by destruct Hc as (-> & ? & ?).
  - by destruct Hc as [-> ?].
Qed.

Lemma save_files_spec (files : list FormEntry) : ∀ totalSize saved,
  match save_files files totalSize saved with
  | (None, totalSize', saved') =>
      totalSize' = totalSize + foldr Z.add 0 (f_size <$> files_of files)
      ∧ Forall acceptable (files_of files)
      ∧ (files_of files ≠ [] → totalSize' ≤ MAX_TOTAL_SIZE)
      ∧ ∃ paths, saved' = saved ++ paths
          ∧ Some <$> paths = saveIncomingFile <$> files_of files
  | (Some failure, _, saved') =>
      justified failure
      ∧ ∃ paths, saved' = saved ++ paths
          ∧ (length paths < length (files_of files))%nat
          ∧ Some <$> paths = saveIncomingFile <$> take (length paths) (files_of files)
  end.
Proof.
  induction files as [|[f|v] files IH]; intros totalSize saved; simpl.
  - split; [lia|]. split; [done|]. split; [done|]. exists []. by rewrite app_nil_r.
  - pose proof (check_file_cases f totalSize) as Hc.
    destruct (UploadRoute.check_file toLowerCase f totalSize) as [failure|] eqn:Hcheck.
    + split; [by eapply check_file_justified|].
      exists []. rewrite app_nil_r. split; [done|]. split; [simpl; lia|done].
    + destruct Hc as [Hacc Htot].
      destruct (saveIncomingFile f) as [p|] eqn:Hsave.
      * specialize (IH (totalSize + f_size f) (saved ++ [p])).
        destruct (UploadRoute.save_files _ _ files _ _) as [[[failure|] t] s].
        -- destruct IH as (Hff & paths & -> & Hlen & Hpaths).
           split; [done|].
           exists (p :: paths). rewrite <-app_assoc. split; [done|]. split; [simpl; lia|].
           cbn [length take]. rewrite !fmap_cons, Hsave. by f_equal.
        -- destruct IH as (-> & Hall & Hle & paths & -> & Hpaths).
           split; [unfold fmap; lia|]. split; [by constructor|]. split.
           ++ intros _. destruct (files_of files) eqn:E; [simpl; lia|].
              unfold fmap in *. by apply Hle.
           ++ exists (p :: paths). rewrite <-app_assoc. split; [done|].
              rewrite fmap_cons. by f_equal.
      * split; [done|]. exists []. rewrite app_nil_r.
        split; [done|]. split; [simpl; lia|done].
  - apply IH.
Qed.

Lemma save_files_app (good rest : list FormEntry) : ∀ totalSize saved,
  save_files (good ++ rest) totalSize saved
  = match save_files good totalSize saved with
    | (None, totalSize, saved) => save_files rest totalSize saved
    | stopped => stopped
    end.
Proof.
  induction good as [|[f|v] good IH]; intros totalSize saved; simpl; [done| |apply IH].
  destruct (UploadRoute.check_file toLowerCase f totalSize); [done|].
  destruct (saveIncomingFile f); [apply IH|done].
Qed.

(** The limiter's decision for an upload from [headers] at [now]. *)
Definition upload_limit (buckets : gmap string RateLimit.Bucket)
    (headers : gmap string string) (now : Z) :=
  RateLimit.rateLimit buckets ("upload:" +:+ RateLimit.ipFromHeaders headers) 20 60000 now.

Lemma POST_validated buckets headers now form upstream files :
  RateLimit.allowed (upload_limit buckets headers now).1 = true →
  form = Some files → (1 ≤ length files ≤ 12)%nat →
  POST buckets headers now true form upstream
  = let bs := (upload_limit buckets headers now).2 in
    match save_files files 0 [] with
    | (Some failure, _, saved) =>
        fail failure (mkEffects bs saved None)
    | (None, _, saved) =>
        let effects := mkEffects bs saved (Some saved) in
        match upstream with
        | FetchRejects => fail FetchFailed effects
        | FetchResponse _ _ JsonRejects => fail IngestJsonFailed effects
        | FetchResponse false _ _ => fail IngestFailed effects
        | FetchResponse true _ JsonNull => fail IngestNull effects
        | FetchResponse true _ (JsonObject ingested) =>
            (Ingested (default (Z.of_nat (length saved)) ingested), effects)
        end
    end.
Proof.
  intros Hal -> Hlen. unfold UploadRoute.POST, upload_limit in *.
  destruct (RateLimit.rateLimit _ _ _ _ _) as [rl bs]. simpl in Hal. rewrite Hal. simpl.
  rewrite decide_False by lia. unfold MAX_FILES. rewrite decide_False by lia. done.
Qed.

Lemma POST_reply_cases buckets headers now storageReady form upstream :
  match (POST buckets headers now storageReady form upstream).1 with
  | Ingested n =>
      RateLimit.allowed (upload_limit buckets headers now).1 = true
      ∧ storageReady = true
      ∧ ∃ files, form = Some files ∧ (1 ≤ length files ≤ 12)%nat
  | Failed failure response =>
      response = ErrorHandler.handleApiError development (thrown failure)
      ∧ match failure with
        | RateLimited => RateLimit.allowed (upload_limit buckets headers now).1 = false
        | StorageFailed => storageReady = false
        | FormFailed => form = None
        | NoFiles => form = Some []
        | TooManyFiles => ∃ files, form = Some files ∧ (12 < length files)%nat
        | FetchFailed | IngestJsonFailed | IngestFailed | IngestNull =>
            ∃ files, form = Some files ∧ (save_files files 0 []).1.1 = None
        | failure => ∃ files, form = Some files
                       ∧ (save_files files 0 []).1.1 = Some failure
        end
  end.
Proof.
  unfold UploadRoute.POST, upload_limit.
  destruct (RateLimit.rateLimit _ _ _ _ _) as [rl bs]. simpl.
  destruct (RateLimit.allowed rl); simpl; [|done].
  destruct storageReady; simpl; [|done].
  destruct form as [files|]; [|done].
  destruct (decide (length files = 0%nat)) as [Hz|Hnz].
  { destruct files; [done|simpl in Hz; lia]. }
  destruct (decide (MAX_FILES < Z.of_nat (length files))) as [Hmany|Hfew].
  { split; [done|]. exists files. unfold MAX_FILES in *. split; [done|lia]. }
  pose proof (save_files_spec files 0 []) as Hspec.
  destruct (UploadRoute.save_files toLowerCase saveIncomingFile files 0 [])
    as [[[failure|] t] s] eqn:Hsave.
  - destruct Hspec as [Hj _]. simpl. split; [done|].
    destruct failure; simpl in Hj; try done; exists files; by rewrite Hsave.
  - destruct upstream as [|[] st [| |n]]; simpl;
      try (split; [done|]; exists files; by rewrite Hsave).
    split; [done|]. split; [done|]. exists files. unfold MAX_FILES in *. split; [done|lia].
Qed.

End upload_facts.

(** X25. What a successful upload guarantees.  Whenever the handler
    answers with [ingested], the limiter let the request through, the
    storage was ready, the form held 1 to 12 entries, every [File] among
    them is at most 25 MB, has a lower-cased name that ends in an allowed
    extension and matches no substring pattern, the files total at most
    100 MB, every file was saved, in order, exactly the saved paths were
    posted to the backend, and the number returned is the backend's
    [ingested] or, without one, the number of saved files. *)
Theorem upload_accepted (toLowerCase : string → string)
    (saveIncomingFile : File → option string) (development : bool)
    (library_message : Failure → string)
    (buckets : gmap string RateLimit.Bucket) (headers : gmap string string) (now : Z)
    (storageReady : bool) (form : option (list FormEntry)) (upstream : Upstream)
    (n : Z) (effects : Effects) :
  POST toLowerCase saveIncomingFile development library_message buckets headers now
    storageReady form upstream
  = (Ingested n, effects) →
  RateLimit.allowed (upload_limit buckets headers now).1 = true
  ∧ storageReady = true
  ∧ ∃ files, form = Some files
      ∧ (1 ≤ length files ≤ 12)%nat
      ∧ Forall (acceptable toLowerCase) (files_of files)
      ∧ (files_of files ≠ [] → foldr Z.add 0 (f_size <$> files_of files) ≤ MAX_TOTAL_SIZE)
      ∧ Some <$> saved effects = saveIncomingFile <$> files_of files
      ∧ posted effects = Some (saved effects)
      ∧ ∃ status ingested,
          upstream = FetchResponse true status (JsonObject ingested)
          ∧ n = default (Z.of_nat (length (saved effects))) ingested.
Proof.
  intros E.
  pose proof (POST_reply_cases toLowerCase saveIncomingFile development library_message
                buckets headers now storageReady form upstream) as Hc.
  rewrite E in Hc. simpl in Hc. destruct Hc as (Hal & -> & files & -> & Hlen).
  split; [done|]. split; [done|]. exists files. split; [done|]. split; [done|].
  rewrite (POST_validated _ _ _ _ _ _ _ _ _ files) in E by done. cbv zeta in E.
  pose proof (save_files_spec toLowerCase saveIncomingFile files 0 []) as Hspec.
  destruct (save_files toLowerCase saveIncomingFile files 0 []) as [[[failure|] t] s];
    [done|].
  destruct Hspec as (-> & Hall & Hle & paths & -> & Hpaths).
  destruct upstream as [|[] st [| |ingested]]; simpl in E; try done.
  injection E as <- <-. simpl.
  split; [done|]. split; [intros Hne; specialize (Hle Hne); lia|].
  split; [done|]. split; [done|]. by exists st, ingested.
Qed.

Lemma upload_accepted_witness :
  let form := [FileEntry (mkFile "Report.PDF" 1000 "application/pdf" "%PDF");
               TextEntry "note"] in
  let effects := mkEffects (upload_limit ∅ ∅ 0).2 ["/storage/uploads/Report.PDF"]
                   (Some ["/storage/uploads/Report.PDF"]) in
  RateLimit.allowed (upload_limit ∅ ∅ 0).1 = true
  ∧ true = true
  ∧ ∃ files, Some form = Some files
      ∧ (1 ≤ length files ≤ 12)%nat
      ∧ Forall (acceptable ascii_lower) (files_of files)
      ∧ (files_of files ≠ [] → foldr Z.add 0 (f_size <$> files_of files) ≤ MAX_TOTAL_SIZE)
      ∧ Some <$> saved effects = example_save <$> files_of files
      ∧ posted effects = Some (saved effects)
      ∧ ∃ status ingested,
          FetchResponse true 200 (JsonObject None) = FetchResponse true status (JsonObject ingested)
          ∧ 1 = default (Z.of_nat (length (saved effects))) ingested.
Proof.
  apply (upload_accepted ascii_lower example_save false example_message ∅ ∅ 0 true
           (Some [FileEntry (mkFile "Report.PDF" 1000 "application/pdf" "%PDF");
                  TextEntry "note"])
           (FetchResponse true 200 (JsonObject None)) 1
           (mkEffects (upload_limit ∅ ∅ 0).2 ["/storage/uploads/Report.PDF"]
              (Some ["/storage/uploads/Report.PDF"]))).
  reflexivity.
Defined.

(** X26. Two checks of the upload loop cannot fire.  The handler never
    answers with [Unsupported file type]: a name that passed the extension
    check ends in an allowed extension.  And a rejection for suspicious
    patterns is always due to one of the five substring patterns, never to
    one of the seven extension patterns. *)
Theorem upload_checks_that_never_fire (toLowerCase : string → string)
    (saveIncomingFile : File → option string) (development : bool)
    (library_message : Failure → string)
    (buckets : gmap string RateLimit.Bucket) (headers : gmap string string) (now : Z)
    (storageReady : bool) (form : option (list FormEntry)) (upstream : Upstream) :
  match (POST toLowerCase saveIncomingFile development library_message buckets headers now
           storageReady form upstream).1 with
  | Failed (BadType _) _ => False
  | Failed (SuspiciousName f) _ =>
      ∃ text, Anywhere text ∈ SUSPICIOUS_PATTERNS
        ∧ matches_anywhere text (toLowerCase (f_name f)) = true
  | _ => True
  end.
Proof.
  pose proof (POST_reply_cases toLowerCase saveIncomingFile development library_message
                buckets headers now storageReady form upstream) as Hc.
  destruct (POST _ _ _ _ _ _ _ _ _ _).1 as [n|failure response]; [done|].
  destruct Hc as [_ Hc].
  destruct failure; try done; destruct Hc as (files & _ & Hsave);
    pose proof (save_files_spec toLowerCase saveIncomingFile files 0 []) as Hspec;
    destruct (save_files toLowerCase saveIncomingFile files 0 []) as [[[failure|] t] s];
    simpl in Hsave; try done; injection Hsave as ->; by destruct Hspec as [Hj _].
Qed.

(** X27. Files are checked and saved one by one, without rollback: when
    the entries before a rejected file pass and are saved, the request fails
    with that file's error, a 400 of type [FILE_UPLOAD], the files before it
    stay written, and the backend is not called. *)
Theorem upload_keeps_files_saved_before_a_failure (toLowerCase : string → string)
    (saveIncomingFile : File → option string) (development : bool)
    (library_message : Failure → string)
    (buckets : gmap string RateLimit.Bucket) (headers : gmap string string) (now : Z)
    (upstream : Upstream) (good rest : list FormEntry) (bad : File)
    (totalSize : Z) (paths : list string) (failure : Failure) :
  RateLimit.allowed (upload_limit buckets headers now).1 = true →
  (length (good ++ FileEntry bad :: rest) ≤ 12)%nat →
  save_files toLowerCase saveIncomingFile good 0 [] = (None, totalSize, paths) →
  check_file toLowerCase bad totalSize = Some failure →
  POST toLowerCase saveIncomingFile development library_message buckets headers now true
    (Some (good ++ FileEntry bad :: rest)) upstream
  = (Failed failure (ErrorHandler.handleApiError development (thrown library_message failure)),
     mkEffects (upload_limit buckets headers now).2 paths None)
  ∧ Some <$> paths = saveIncomingFile <$> files_of good
  ∧ ∃ response,
      ErrorHandler.handleApiError development (thrown library_message failure) = Some response
      ∧ ErrorHandler.status response = 400
      ∧ ErrorHandler.body_type response = ErrorHandler.FILE_UPLOAD.
Proof.
  intros Hal Hlen Hgood Hbad.
  assert (Hresponse : ∃ response,
            ErrorHandler.handleApiError development (thrown library_message failure)
            = Some response
            ∧ ErrorHandler.status response = 400
            ∧ ErrorHandler.body_type response = ErrorHandler.FILE_UPLOAD).
  { pose proof (check_file_cases toLowerCase bad totalSize) as Hc. rewrite Hbad in Hc.
    destruct failure; try done; by eexists. }
  rewrite (POST_validated _ _ _ _ _ _ _ _ _ (good ++ FileEntry bad :: rest)); [|done..|].
  2:{ rewrite length_app in *. simpl in *. lia. }
  cbv zeta. rewrite save_files_app, Hgood. simpl. rewrite Hbad. split; [done|].
  split; [|done].
  pose proof (save_files_spec toLowerCase saveIncomingFile good 0 []) as Hspec.
  rewrite Hgood in Hspec. destruct Hspec as (_ & _ & _ & paths' & Hp & Hpaths).
  simpl in Hp. by subst paths'.
Qed.

Lemma upload_keeps_files_saved_before_a_failure_witness :
  let good := [FileEntry (mkFile "a.pdf" 1000 "application/pdf" "%PDF")] in
  let bad := mkFile "run.exe" 10 "application/octet-stream" "MZ" in
  let failure := BadExtension bad ".exe" in
  POST ascii_lower example_save false example_message ∅ ∅ 0 true (Some (good ++ FileEntry bad :: []))
    FetchRejects
  = (Failed failure (ErrorHandler.handleApiError false (thrown example_message failure)),
     mkEffects (upload_limit ∅ ∅ 0).2 ["/storage/uploads/a.pdf"] None)
  ∧ Some <$> ["/storage/uploads/a.pdf"] = example_save <$> files_of good
  ∧ ∃ response,
      ErrorHandler.handleApiError false (thrown example_message failure) = Some response
      ∧ ErrorHandler.status response = 400
      ∧ ErrorHandler.body_type response = ErrorHandler.FILE_UPLOAD.
Proof.
  apply (upload_keeps_files_saved_before_a_failure ascii_lower example_save false example_message ∅ ∅ 0
           FetchRejects [FileEntry (mkFile "a.pdf" 1000 "application/pdf" "%PDF")] []
           (mkFile "run.exe" 10 "application/octet-stream" "MZ") 1000
           ["/storage/uploads/a.pdf"]
           (BadExtension (mkFile "run.exe" 10 "application/octet-stream" "MZ") ".exe"));
    [reflexivity|simpl; lia|reflexivity|reflexivity].
Defined.

(** X28. A form whose 1 to 12 entries hold no [File] passes validation:
    nothing is saved, the backend is called with an empty list of paths,
    and an answer without [ingested] is reported as 0 files ingested. *)
Theorem upload_without_files_is_accepted (toLowerCase : string → string)
    (saveIncomingFile : File → option string) (development : bool)
    (library_message : Failure → string)
    (buckets : gmap string RateLimit.Bucket) (headers : gmap string string) (now : Z)
    (status : Z) (files : list FormEntry) :
  RateLimit.allowed (upload_limit buckets headers now).1 = true →
  (1 ≤ length files ≤ 12)%nat →
  files_of files = [] →
  POST toLowerCase saveIncomingFile development library_message buckets headers now true
    (Some files)
    (FetchResponse true status (JsonObject None))
  = (Ingested 0, mkEffects (upload_limit buckets headers now).2 [] (Some [])).
Proof.
  intros Hal Hlen Hnone.
  rewrite (POST_validated _ _ _ _ _ _ _ _ _ files) by done. cbv zeta.
  assert (E : ∀ t s, save_files toLowerCase saveIncomingFile files t s = (None, t, s)).
  { clear -Hnone. induction files as [|[f|v] files IH]; intros t s; simpl; [done|done|].
    apply IH. done. }
  by rewrite E.
Qed.

Lemma upload_without_files_is_accepted_witness :
  POST ascii_lower example_save false example_message ∅ ∅ 0 true (Some [TextEntry "hello"])
    (FetchResponse true 200 (JsonObject None))
  = (Ingested 0, mkEffects (upload_limit ∅ ∅ 0).2 [] (Some [])).
Proof.
  apply (upload_without_files_is_accepted ascii_lower example_save false example_message ∅ ∅ 0 200
           [TextEntry "hello"]); [reflexivity|simpl; lia|reflexivity].
Defined.

End upload_route.

(** ** The three endpoints together, and the streaming route *)

Lemma chat_buckets srv req clk upstream :
  ChatRoute.buckets (ChatRoute.POST srv req clk upstream).2
  = (rateLimit (ChatRoute.buckets srv) (chat_key req) 60 60000 (ChatRoute.t_limit clk)).2.
Proof.
  unfold ChatRoute.POST, chat_key. destruct (rateLimit _ _ _ _ _) as [rl bs]. simpl.
  destruct (allowed rl); simpl; [|done].
  destruct (_ ≫= _) as [body|]; simpl; [|done].
  destruct (get _ _ _) as [[v|] rc]; simpl; [done|].
  by destruct upstream as [|[] st [| |a s]].
Qed.

Lemma chat_stream_buckets bs headers now json upstream :
  (ChatStreamRoute.POST bs headers now json upstream).1.2
  = (rateLimit bs ("chat_stream:" +:+ ipFromHeaders headers) 60 60000 now).2.
Proof.
  unfold ChatStreamRoute.POST. destruct (rateLimit _ _ _ _ _) as [rl bs']. simpl.
  destruct (allowed rl); simpl; [|done].
  destruct (_ ≫= _) as [body|]; simpl; [|done].
  destruct upstream as [|ok hasBody text]; [done|].
  destruct (negb ok || negb hasBody); [by destruct text|done].
Qed.

Lemma upload_buckets toLowerCase saveIncomingFile development library_message bs headers
    now storageReady form upstream :
  UploadRoute.buckets
    (UploadRoute.POST toLowerCase saveIncomingFile development library_message bs headers
       now storageReady form upstream).2
  = (rateLimit bs ("upload:" +:+ ipFromHeaders headers) 20 60000 now).2.
Proof.
  unfold UploadRoute.POST. destruct (rateLimit _ _ _ _ _) as [rl bs']. simpl.
  destruct (allowed rl); simpl; [|done].
  destruct storageReady; simpl; [|done].
  destruct form as [files|]; [|done].
  repeat case_decide; try done.
  destruct (UploadRoute.save_files _ _ _ _ _) as [[[failure|] t] s]; [done|].
  by destruct upstream as [|[] st [| |n]].
Qed.

(** X29. The three endpoints count against separate quotas: handling a
    request on one of [chat], [chat_stream] and [upload] leaves the buckets
    of the two others, for every client address, as they were. *)
Theorem endpoints_have_separate_quotas (ip : string)
    (srv : ChatRoute.Server) (req : ChatRoute.Request) (clk : ChatRoute.Clock)
    (chat_upstream : ChatRoute.Upstream)
    (bs : gmap string Bucket) (headers : gmap string string) (now : Z)
    (json : option ChatRoute.ChatBody) (stream_upstream : ChatStreamRoute.Upstream)
    (toLowerCase : string → string) (saveIncomingFile : UploadRoute.File → option string)
    (development storageReady : bool) (library_message : UploadRoute.Failure → string)
    (form : option (list UploadRoute.FormEntry))
    (upload_upstream : UploadRoute.Upstream) :
  let after_chat := ChatRoute.buckets (ChatRoute.POST srv req clk chat_upstream).2 in
  let after_stream := (ChatStreamRoute.POST bs headers now json stream_upstream).1.2 in
  let after_upload :=
    UploadRoute.buckets
      (UploadRoute.POST toLowerCase saveIncomingFile development library_message bs headers
         now storageReady form upload_upstream).2 in
  (after_chat !! ("chat_stream:" +:+ ip) = ChatRoute.buckets srv !! ("chat_stream:" +:+ ip)
   ∧ after_chat !! ("upload:" +:+ ip) = ChatRoute.buckets srv !! ("upload:" +:+ ip))
  ∧ (after_stream !! ("chat:" +:+ ip) = bs !! ("chat:" +:+ ip)
     ∧ after_stream !! ("upload:" +:+ ip) = bs !! ("upload:" +:+ ip))
  ∧ (after_upload !! ("chat:" +:+ ip) = bs !! ("chat:" +:+ ip)
     ∧ after_upload !! ("chat_stream:" +:+ ip) = bs !! ("chat_stream:" +:+ ip)).
Proof.
  cbv zeta. rewrite chat_buckets, chat_stream_buckets, upload_buckets.
  unfold chat_key. repeat split; by apply rateLimit_other.
Qed.

(** X30. The streaming route calls the backend exactly when the limiter
    lets the request through and the body parses; it answers with the 429
    event exactly when the limiter refuses, streams exactly when the backend
    answers ok with a body, never sends an empty error text, and ends in an
    uncaught exception exactly when a request that was let through has an
    invalid body or the backend call rejects. *)
Theorem chat_stream_reaches_backend_only_when_allowed
    (bs : gmap string Bucket) (headers : gmap string string) (now : Z)
    (json : option ChatRoute.ChatBody) (upstream : ChatStreamRoute.Upstream) :
  let passed :=
    allowed (rateLimit bs ("chat_stream:" +:+ ipFromHeaders headers) 60 60000 now).1 in
  let valid := bool_decide (is_Some (json ≫= ChatRoute.bodySchema_parse)) in
  let out := ChatStreamRoute.POST bs headers now json upstream in
  out.2 = passed && valid
  ∧ (out.1.1 = ChatStreamRoute.RateLimitExceeded ↔ passed = false)
  ∧ (out.1.1 = ChatStreamRoute.Streaming
     ↔ passed = true ∧ valid = true
       ∧ ∃ text, upstream = ChatStreamRoute.FetchResponse true true text)
  ∧ (∀ error, out.1.1 = ChatStreamRoute.UpstreamFailed error → error ≠ "")
  ∧ (out.1.1 = ChatStreamRoute.Uncaught
     ↔ passed = true
       ∧ (valid = false ∨ upstream = ChatStreamRoute.FetchRejects
          ∨ ∃ ok hasBody, upstream = ChatStreamRoute.FetchResponse ok hasBody None
              ∧ ok && hasBody = false)).
Proof.
  cbv zeta. unfold ChatStreamRoute.POST.
  destruct (rateLimit _ _ _ _ _) as [rl bs']. simpl.
  destruct (allowed rl); simpl.
  2:{ repeat split; try done; intros; destruct_and?; done. }
  destruct (_ ≫= _) as [body|]; simpl.
  2:{ repeat split; try done; intros; destruct_and?; try done. by left. }
  destruct upstream as [|[] [] [text|]]; simpl;
    (split; [done|]); (split; [done|]); (split; [|split]).
  all: try (intros error [= <-]; by case_bool_decide).
  all: try done.
  all: try (split; [done|intros (_ & _ & ? & [=])]; done).
  all: try (split; [by eauto|done]).
  all: split;
    [ intros H; first [ discriminate H | split; [done|]; right; right; by eexists _, _ ]
    | intros (_ & [?|[?|(ok0 & hb & ? & ?)]]); by simplify_eq ].
Qed.
